(** * Repository indexing and semantic retrieval engine

    A shallow embedding of the chunking engine, the embedding client, the
    vector store, the indexing orchestrator and the framework scorer of the
    backend services ([vector_store.py], [code_analyser.py],
    [progress_tracker.py], [repository_analyzer.py], [api/v1/search.py]),
    together with the properties the specification states about them.

    Conventions.  A Python [str] is a list of Unicode code points; Python
    integers are [Z]; identifiers taken from fixed tables (file extensions,
    tree-sitter node types, framework names) are Rocq strings.  Whatever a
    third-party component decides (the tree-sitter parser, the LangChain
    splitter, the embedding provider, the database engine) is an input of
    the model. *)

From Stdlib Require Import ZArith QArith Qpower Lia List Bool String Ascii.
From Stdlib Require Import Permutation Sorted FinFun DecimalString.
From stdpp Require Import base list gmap strings.

Local Open Scope Z_scope.
Set Warnings "-register-all".

(** ** Python strings and slices *)

Module Py.

Definition char := N.
Definition str := list char.

Definition of_string (s : string) : str :=
  List.map N_of_ascii (list_ascii_of_string s).

Definition len {A} (s : list A) : Z := Z.of_nat (length s).

(** Index normalisation of a slice bound: negative bounds count from the
    end, and every bound is clamped into [0, len]. *)
Definition norm_index (n i : Z) : Z :=
  if i <? 0 then Z.max 0 (i + n) else Z.min i n.

(** [s[a:b]] *)
Definition slice {A} (s : list A) (a b : Z) : list A :=
  let n := len s in
  let a' := norm_index n a in
  let b' := norm_index n b in
  firstn (Z.to_nat (b' - a')) (skipn (Z.to_nat a') s).

(** [s[a:]] *)
Definition slice_from {A} (s : list A) (a : Z) : list A :=
  skipn (Z.to_nat (norm_index (len s) a)) s.

(** [s[:b]] *)
Definition slice_to {A} (s : list A) (b : Z) : list A :=
  firstn (Z.to_nat (norm_index (len s) b)) s.

(** The code points [str.strip()] removes ([str.isspace]). *)
Definition is_space (c : char) : bool :=
  ((9 <=? c) && (c <=? 13) || (28 <=? c) && (c <=? 32)
   || (c =? 133) || (c =? 160) || (c =? 5760)
   || (8192 <=? c) && (c <=? 8202)
   || (c =? 8232) || (c =? 8233) || (c =? 8239) || (c =? 8287)
   || (c =? 12288))%N.

Fixpoint lstrip (s : str) : str :=
  match s with
  | c :: s' => if is_space c then lstrip s' else s
  | [] => []
  end.

Definition rstrip (s : str) : str := rev (lstrip (rev s)).

Definition strip (s : str) : str := rstrip (lstrip s).

(** Truth value of a string: non-empty. *)
Definition truthy {A} (s : list A) : bool :=
  match s with [] => false | _ => true end.

Fixpoint starts_with (p s : str) : bool :=
  match p, s with
  | [], _ => true
  | a :: p', b :: s' => (a =? b)%N && starts_with p' s'
  | _ :: _, [] => false
  end.

(** [sub in s] *)
Fixpoint contains (sub s : str) : bool :=
  starts_with sub s ||
  match s with
  | [] => false
  | _ :: s' => contains sub s'
  end.

(** [s.find(sub, start)] for [0 <= start]: the least index [>= start]
    where [sub] occurs, or [-1]. *)
Fixpoint find_from (sub s : str) (pos : Z) : Z :=
  if starts_with sub s then pos
  else match s with
       | [] => -1
       | _ :: s' => find_from sub s' (pos + 1)
       end.

Definition find (sub s : str) (start : Z) : Z :=
  let st := norm_index (len s) start in
  if len s <? start then -1
  else find_from sub (skipn (Z.to_nat st) s) st.

(** [text.split(sep)] for a non-empty separator; [cur] is the part being
    read, most recent character first, and [skip] the number of separator
    characters still to pass over. *)
Fixpoint split_go (sep text : str) (skip : nat) (cur : str) : list str :=
  match text with
  | [] => [rev cur]
  | c :: t =>
      match skip with
      | S k => split_go sep t k cur
      | O =>
          if starts_with sep text
          then rev cur :: split_go sep t (length sep - 1) []
          else split_go sep t 0 (c :: cur)
      end
  end.

Definition split (sep text : str) : list str := split_go sep text 0 [].

(** [bisect.bisect_left(a, x)] on an ascending list: the number of
    entries strictly below [x]. *)
Fixpoint bisect_left (a : list Z) (x : Z) : Z :=
  match a with
  | y :: a' => if y <? x then 1 + bisect_left a' x else 0
  | [] => 0
  end.

(** [enumerate(l)] *)
Definition enumerate {A} (l : list A) : list (Z * A) :=
  combine (List.map Z.of_nat (seq 0 (length l))) l.

End Py.

(** Stable sorting: [x] is placed before the first entry [y] with
    [le x y], so entries that compare equal keep their original order. *)
Fixpoint insert_sorted {A} (le : A -> A -> bool) (x : A) (l : list A) : list A :=
  match l with
  | [] => [x]
  | y :: l' => if le x y then x :: l else y :: insert_sorted le x l'
  end.

Definition sorted_with {A} (le : A -> A -> bool) (l : list A) : list A :=
  List.fold_right (insert_sorted le) [] l.

(** [sorted(l, key=...)] on integer keys, and its [reverse=True] variant
    (which also keeps equal keys in their original order). *)
Definition sorted_by {A} (key : A -> Z) (l : list A) : list A :=
  sorted_with (fun x y => key x <=? key y) l.

Definition sorted_by_desc {A} (key : A -> Z) (l : list A) : list A :=
  sorted_with (fun x y => key y <=? key x) l.

(** How a call ends: with a value, with an exception, or not at all. *)
Inductive outcome (A : Type) : Type :=
| Ok (a : A)
| Raise (err : string)
| Hang.
Arguments Ok {A} a.
Arguments Raise {A} err.
Arguments Hang {A}.

(** ** Chunking engine ([vector_store.py]) *)

Module Chunking.
Import Py.

Definition code_separators : list str :=
  List.map of_string [String "010" (String "010" ""); String "010" ""; "; "; ", "; " "; ""]%string.

Definition markup_separators : list str :=
  List.map of_string
    [String "010" (String "010" ""); String "010" "# "; String "010" "## ";
     String "010" "### "; String "010" ""; ". "; " "; ""]%string.

Definition in_strings (x : string) (l : list string) : bool :=
  existsb (String.eqb x) l.

Definition _get_separators_for_file (file_ext : string) : list str :=
  if in_strings file_ext [".md"; ".markdown"; ".rst"; ".txt"]%string
  then markup_separators
  else if in_strings file_ext [".json"; ".yaml"; ".yml"; ".toml"; ".xml"; ".html"; ".css"]%string
  then List.map of_string [String "010" (String "010" ""); String "010" ""; ","; " "; ""]%string
  else if in_strings file_ext [".csv"; ".tsv"; ".log"]%string
  then List.map of_string [String "010" ""; ","; " "; ""]%string
  else code_separators.

Definition node_types_map : list (string * list string) :=
  [ (".py", ["function_definition"; "class_definition"; "decorated_definition"]);
    (".pyw", ["function_definition"; "class_definition"; "decorated_definition"]);
    (".js", ["function_declaration"; "class_declaration"; "method_definition"; "arrow_function"; "function_expression"]);
    (".jsx", ["function_declaration"; "class_declaration"; "method_definition"; "arrow_function"; "function_expression"]);
    (".ts", ["function_declaration"; "class_declaration"; "method_definition"; "interface_declaration"; "type_alias_declaration"]);
    (".tsx", ["function_declaration"; "class_declaration"; "method_definition"; "interface_declaration"; "type_alias_declaration"]);
    (".java", ["class_declaration"; "method_declaration"; "interface_declaration"; "constructor_declaration"]);
    (".go", ["function_declaration"; "method_declaration"; "type_declaration"; "type_spec"]);
    (".rs", ["function_item"; "impl_item"; "trait_item"; "struct_item"; "enum_item"; "mod_item"]);
    (".c", ["function_definition"; "struct_specifier"; "class_specifier"]);
    (".cpp", ["function_definition"; "class_specifier"; "struct_specifier"; "namespace_definition"]);
    (".cc", ["function_definition"; "class_specifier"; "struct_specifier"]);
    (".cxx", ["function_definition"; "class_specifier"; "struct_specifier"]);
    (".h", ["function_definition"; "class_specifier"; "struct_specifier"]);
    (".hpp", ["function_definition"; "class_specifier"; "struct_specifier"]);
    (".cs", ["class_declaration"; "method_declaration"; "interface_declaration"; "struct_declaration"; "namespace_declaration"])
  ]%string.

Fixpoint assoc_get {V} (k : string) (m : list (string * V)) : option V :=
  match m with
  | [] => None
  | (k', v) :: m' => if String.eqb k k' then Some v else assoc_get k m'
  end.

Definition _get_chunkable_node_types (file_ext : string) : list string :=
  match assoc_get file_ext node_types_map with
  | Some tys => tys
  | None => []
  end.

(** [_line_number_at]: count of newlines strictly before [idx], plus 1. *)
Definition _line_number_at (newline_positions : list Z) (idx : Z) : Z :=
  bisect_left newline_positions idx + 1.

(** [[i for i, ch in enumerate(content) if ch == "\n"]] *)
Definition newline_positions_of (content : str) : list Z :=
  List.map fst (List.filter (fun p => (snd p =? 10)%N) (enumerate content)).

(** [len(ch.encode("utf-8"))] *)
Definition utf8_len (ch : char) : Z :=
  if (ch <? 128)%N then 1
  else if (ch <? 2048)%N then 2
  else if (ch <? 65536)%N then 3
  else 4.

(** A lone surrogate cannot be encoded: [encode("utf-8")] raises. *)
Definition is_surrogate (ch : char) : bool :=
  ((55296 <=? ch) && (ch <=? 57343))%N.

Fixpoint utf8_offsets_from (total : Z) (content : str) : list Z :=
  match content with
  | [] => []
  | ch :: rest =>
      let total' := total + utf8_len ch in
      total' :: utf8_offsets_from total' rest
  end.

Definition _utf8_byte_offsets (content : str) : list Z :=
  0 :: utf8_offsets_from 0 content.

Definition _char_index_from_byte (byte_offsets : list Z) (byte_pos : Z) : Z :=
  if byte_pos <=? 0 then 0
  else if byte_pos >=? List.last byte_offsets 0 then len byte_offsets - 1
  else bisect_left byte_offsets byte_pos.

(** A syntax-tree node as tree-sitter reports it. *)
Inductive node : Type :=
| Node (type : string) (start_byte end_byte : Z) (children : list node).

Definition ts_chunk := (Z * Z * string)%type.
Definition ts_start (c : ts_chunk) : Z := fst (fst c).
Definition ts_end (c : ts_chunk) : Z := snd (fst c).

(** The nested [traverse]: a node of a target type whose character span is
    at most [2 * max_chunk_chars] is taken and not descended into. *)
Fixpoint traverse (target_types : list string) (byte_offsets : list Z)
    (max_chunk_chars : Z) (n : node) : list ts_chunk :=
  match n with
  | Node ty sb eb children =>
      let descend :=
        List.flat_map (traverse target_types byte_offsets max_chunk_chars) children in
      if in_strings ty target_types then
        let start_char := _char_index_from_byte byte_offsets sb in
        let end_char := _char_index_from_byte byte_offsets eb in
        if end_char - start_char <=? max_chunk_chars * 2
        then [(start_char, end_char, ty)]
        else descend
      else descend
  end.

(** The final loop: chunk [i] is dropped when some other chunk [j <> i]
    satisfies [start >= other_start and end <= other_end]. *)
Definition is_contained (ic : Z * ts_chunk) (chunks : list ts_chunk) : bool :=
  existsb (fun jo =>
             negb (fst ic =? fst jo)
             && (ts_start (snd ic) >=? ts_start (snd jo))
             && (ts_end (snd ic) <=? ts_end (snd jo)))
          (enumerate chunks).

Definition drop_contained (chunks : list ts_chunk) : list ts_chunk :=
  List.map snd
    (List.filter (fun ic => negb (is_contained ic chunks)) (enumerate chunks)).

(** [_extract_tree_sitter_chunks], called with a parser at hand.  [parse]
    is what [parser.parse] gives: [None] when it raises. *)
Definition _extract_tree_sitter_chunks (content : str) (parse : option node)
    (file_ext : string) (max_chunk_chars : Z) : list ts_chunk :=
  if existsb is_surrogate content then []
  else
    match parse with
    | None => []
    | Some root =>
        let target_types := _get_chunkable_node_types file_ext in
        if negb (truthy target_types) then []
        else
          let byte_offsets := _utf8_byte_offsets content in
          let chunks := traverse target_types byte_offsets max_chunk_chars root in
          drop_contained (sorted_by ts_start chunks)
    end.

(** *** Universal fallback tier *)

Definition span := (Z * Z)%type.

Fixpoint str_eqb (a b : str) : bool :=
  match a, b with
  | [], [] => true
  | x :: a', y :: b' => (x =? y)%N && str_eqb a' b'
  | _, _ => false
  end.

(** [seps.index(sep)]: position of the first equal entry. *)
Fixpoint index_of (sep : str) (seps : list str) : Z :=
  match seps with
  | [] => 0
  | s :: seps' => if str_eqb s sep then 0 else 1 + index_of sep seps'
  end.

(** The character-level loop of [split_recursive] (separator [""]), from
    loop variable [i]; it runs at most [len(text)] times since [step >= 1]. *)
Fixpoint char_split (fuel : nat) (chunk_size step : Z) (text : str)
    (start_offset i : Z) : list span :=
  match fuel with
  | O => []
  | S fuel' =>
      if i <? len text then
        let e := Z.min (len text) (i + chunk_size) in
        let here :=
          if truthy (strip (slice text i e))
          then [(start_offset + i, start_offset + e)] else [] in
        if e >=? len text then here
        else here ++ char_split fuel' chunk_size step text start_offset (i + step)
      else []
  end.

(** Piece spans of [text.split(sep)]: each piece carries its separator,
    except the last. *)
Fixpoint piece_spans (sep_len : Z) (parts : list str) (cursor : Z) : list span :=
  match parts with
  | [] => []
  | part :: rest =>
      match rest with
      | [] => [(cursor, cursor + len part)]
      | _ :: _ =>
          let piece_end := cursor + len part + sep_len in
          (cursor, piece_end) :: piece_spans sep_len rest piece_end
      end
  end.

Definition emit_current (text : str) (start_offset cur_start cur_end : Z) : list span :=
  if (cur_end >? cur_start) && truthy (strip (slice text cur_start cur_end))
  then [(start_offset + cur_start, start_offset + cur_end)]
  else [].

(** The loop over the pieces; [recurse] is the recursive call with the
    remaining, lower-priority separators. *)
Fixpoint merge_pieces (recurse : str -> Z -> list span)
    (chunk_size chunk_overlap : Z) (text : str) (start_offset : Z)
    (pieces : list span) (cur_start cur_end : Z) : list span :=
  match pieces with
  | [] => emit_current text start_offset cur_start cur_end
  | (p_start, p_end) :: rest =>
      if p_end - cur_start <=? chunk_size then
        merge_pieces recurse chunk_size chunk_overlap text start_offset rest cur_start p_end
      else
        let flushed := emit_current text start_offset cur_start cur_end in
        let overlap_start :=
          if chunk_overlap >? 0 then Z.max cur_start (cur_end - chunk_overlap)
          else cur_end in
        if p_end - overlap_start <=? chunk_size then
          flushed ++
          merge_pieces recurse chunk_size chunk_overlap text start_offset rest overlap_start p_end
        else
          flushed ++
          recurse (slice text p_start p_end) (start_offset + p_start) ++
          merge_pieces recurse chunk_size chunk_overlap text start_offset rest p_end p_end
  end.

(** [split_recursive(text, start_offset, seps)]; the spans are returned in
    the order the source appends them.  Every recursive call has a
    shorter separator list (or the list [[""]]), so the depth is bounded
    by [len(seps) + 2]: that is the [fuel]. *)
Fixpoint split_recursive (fuel : nat) (chunk_size chunk_overlap : Z)
    (text : str) (start_offset : Z) (seps : list str) : list span :=
  match fuel with
  | O => []
  | S fuel' =>
      if len text <=? chunk_size then
        if truthy (strip text) then [(start_offset, start_offset + len text)] else []
      else
        (fix for_sep (rest : list str) : list span :=
           match rest with
           | [] => split_recursive fuel' chunk_size chunk_overlap text start_offset [[]]
           | sep :: rest' =>
               if negb (truthy sep) then
                 char_split (length text) chunk_size
                   (Z.max 1 (chunk_size - Z.max 0 chunk_overlap)) text start_offset 0
               else if contains sep text then
                 merge_pieces
                   (fun t o =>
                      split_recursive fuel' chunk_size chunk_overlap t o
                        (slice_from seps (index_of sep seps + 1)))
                   chunk_size chunk_overlap text start_offset
                   (piece_spans (len sep) (split sep text) 0) 0 0
               else for_sep rest'
           end) seps
  end.

Definition _fallback_recursive_split_spans (content : str) (separators : list str)
    (chunk_size chunk_overlap : Z) : list span :=
  split_recursive (length separators + 2) chunk_size chunk_overlap content 0 separators.

(** *** The hybrid entry point *)

Record chunk := {
  path : str;
  chunk_index : Z;
  start_line : Z;
  end_line : Z;
  content : str;
  chunk_type : string;
  splitter : string
}.

(** What the LangChain splitter does for one file. *)
Inductive langchain_outcome :=
| LcUnavailable
    (* the import failed: LANGCHAIN_SPLITTER_AVAILABLE is false *)
| LcDocuments (docs : list (option Z * str))
    (* create_documents: the start_index metadata, if any, and page_content *)
| LcTypeError (before : list (option Z * str)) (parts : option (list str))
    (* a TypeError: from the constructor, which rejects add_start_index
       ([before] is empty), or while the documents are read, after those of
       [before]; then split_text gives [parts], or raises *)
| LcError.
    (* any other exception *)

Definition line_of (newline_positions : list Z) (idx : Z) : Z :=
  if truthy newline_positions then _line_number_at newline_positions idx else 1.

(** One round of the output loops: a span whose stripped text is empty is
    skipped. *)
Definition chunk_of_span (p : str) (text : str) (newline_positions : list Z)
    (ty spl : string) (idx s e : Z) : option chunk :=
  let chunk_text := strip (slice text s e) in
  if negb (truthy chunk_text) then None
  else Some {| path := p; chunk_index := idx;
               start_line := line_of newline_positions s;
               end_line := line_of newline_positions e;
               content := chunk_text;
               chunk_type := ty; splitter := spl |}.

Fixpoint keep_some {A} (l : list (option A)) : list A :=
  match l with
  | [] => []
  | Some x :: l' => x :: keep_some l'
  | None :: l' => keep_some l'
  end.

Definition tree_sitter_chunks (p text : str) (newline_positions : list Z)
    (spans : list ts_chunk) : list chunk :=
  keep_some
    (List.map (fun '(idx, (s, e, node_type)) =>
                 chunk_of_span p text newline_positions
                   ("tree_sitter:" ++ node_type)%string "tree_sitter" idx s e)
              (enumerate spans)).

Definition recursive_chunks (p text : str) (newline_positions : list Z)
    (spans : list span) : list chunk :=
  keep_some
    (List.map (fun '(idx, (s, e)) =>
                 chunk_of_span p text newline_positions "recursive" "recursive" idx s e)
              (enumerate spans)).

(** The span of one document: [start_index] (0 when the metadata has
    none) and the length of [page_content]. *)
Definition document_span (d : option Z * str) : span :=
  let start := match fst d with Some i => i | None => 0 end in
  (start, start + len (snd d)).

(** Spans inferred from [split_text] parts by searching forward. *)
Fixpoint infer_spans (text : str) (chunk_overlap : Z) (parts : list str)
    (cursor : Z) : list span :=
  match parts with
  | [] => []
  | part :: rest =>
      let pos := find part text cursor in
      let pos := if pos <? 0 then find part text 0 else pos in
      if pos <? 0 then infer_spans text chunk_overlap rest cursor
      else (pos, pos + len part)
           :: infer_spans text chunk_overlap rest
                (Z.max (pos + len part - Z.max 0 chunk_overlap) 0)
  end.

(** [split_text_to_code_chunks].  [file_ext] is [_file_ext(path)]
    ([os.path.splitext] and [lower]); [parser] is [None] when
    [_get_tree_sitter_parser] has no parser for the extension, and
    otherwise holds what parsing gives.  The result is [None] when the
    call raises (the only such path is [split_text] failing inside the
    [TypeError] handler).  The [content_sha256] field, a function of
    [content] that no statement below depends on, is left out. *)
Definition split_text_to_code_chunks (p : str) (file_ext : string) (text : str)
    (chunk_chars chunk_overlap : Z)
    (parser : option (option node)) (lc : langchain_outcome)
  : option (list chunk) :=
  let newline_positions := newline_positions_of text in
  let tier1 :=
    match parser with
    | Some parse =>
        let spans := _extract_tree_sitter_chunks text parse file_ext chunk_chars in
        if truthy spans then tree_sitter_chunks p text newline_positions spans else []
    | None => []
    end in
  if truthy tier1 then Some tier1
  else
    let separators := _get_separators_for_file file_ext in
    let spans2 :=
      match lc with
      | LcUnavailable => Some []
      | LcDocuments docs => Some (List.map document_span docs)
      | LcTypeError before (Some parts) =>
          Some (List.map document_span before ++ infer_spans text chunk_overlap parts 0)
      | LcTypeError _ None => None
      | LcError => Some []
      end in
    match spans2 with
    | None => None
    | Some spans2 =>
        let spans2 :=
          if truthy spans2 then spans2
          else _fallback_recursive_split_spans text separators chunk_chars chunk_overlap in
        Some (recursive_chunks p text newline_positions spans2)
    end.

End Chunking.

(** ** Embedding client ([vector_store.py]) *)

Module Embedding.
Import Py.

(** An embedding; its floats are read as the rationals they denote. *)
Definition vector := list Q.

(** One entry of [resp.data]: the position label and the embedding. *)
Definition datum := (Z * vector)%type.

(** What one [client.embeddings.create] request gives: [resp.data], or an
    exception. *)
Inductive reply :=
| Data (data : list datum)
| Fails (err : string).

(** The provider: the reply to request number [n] (counting from 0) for a
    batch. *)
Definition provider := nat -> list str -> reply.

(** The world the client acts on: clients constructed, requests issued,
    and the [time.sleep] durations, oldest first. *)
Record env := {
  clients : nat;
  calls : nat;
  slept : list Q
}.

Definition new_client (e : env) : env :=
  {| clients := S (clients e); calls := calls e; slept := slept e |}.

Definition request (e : env) : env :=
  {| clients := clients e; calls := S (calls e); slept := slept e |}.

Definition sleep (d : Q) (e : env) : env :=
  {| clients := clients e; calls := calls e; slept := slept e ++ [d] |}.

(** [retry_backoff_sec * (2 ** (attempt - 1)) + (0.1 * attempt)] *)
Definition sleep_s (retry_backoff_sec : Q) (attempt : Z) : Q :=
  (retry_backoff_sec * (2 ^ (attempt - 1)) + (1 # 10) * inject_Z attempt)%Q.

(** The inner [while True] of one batch.  [attempt] counts the failures so
    far and [retries_left] is [max_retries - attempt] (0 when that is
    negative): a failure raises as soon as [attempt + 1 > max_retries]. *)
Fixpoint embed_batch (P : provider) (retry_backoff_sec : Q)
    (retries_left : nat) (attempt : Z) (batch : list str) (e : env)
  : env * outcome (list vector) :=
  match P (calls e) batch with
  | Data data => (request e, Ok (List.map snd (sorted_by fst data)))
  | Fails err =>
      let attempt := attempt + 1 in
      match retries_left with
      | O => (request e, Raise err)
      | S retries_left =>
          embed_batch P retry_backoff_sec retries_left attempt batch
            (sleep (sleep_s retry_backoff_sec attempt) (request e))
      end
  end.

(** The outer [while i < len(texts)].  With [batch_size >= 1] it runs at
    most [len(texts)] rounds; the [fuel] is spent only by a loop that
    never advances. *)
Fixpoint embed_loop (P : provider) (batch_size max_retries : Z)
    (retry_backoff_sec : Q) (texts : list str) (fuel : nat)
    (i : Z) (out : list vector) (e : env) : env * outcome (list vector) :=
  if i <? len texts then
    match fuel with
    | O => (e, Hang)
    | S fuel' =>
        let batch := slice texts i (i + batch_size) in
        match embed_batch P retry_backoff_sec (Z.to_nat max_retries) 0 batch e with
        | (e', Ok vs) =>
            embed_loop P batch_size max_retries retry_backoff_sec texts fuel'
              (i + batch_size) (out ++ vs) e'
        | (e', Raise err) => (e', Raise err)
        | (e', Hang) => (e', Hang)
        end
    end
  else (e, Ok out).

Definition embed_texts_openai (P : provider) (texts : list str)
    (batch_size max_retries : Z) (retry_backoff_sec : Q) (e : env)
  : env * outcome (list vector) :=
  if negb (truthy texts) then (e, Ok [])
  else
    embed_loop P batch_size max_retries retry_backoff_sec texts
      (length texts) 0 [] (new_client e).

(** The defaults of the signature: [batch_size=64], [max_retries=3],
    [retry_backoff_sec=1.5]. *)
Definition default_batch_size : Z := 64.
Definition default_max_retries : Z := 3.
Definition default_retry_backoff_sec : Q := 3 # 2.

End Embedding.

(** ** Vector store ([vector_store.py]) and its database session *)

Module Store.
Import Py Chunking Embedding.

(** A row of [project_code_chunks].  The generated columns ([id],
    [created_at]) and [content_sha256] are left out. *)
Record row := {
  project_id : Z;
  row_path : str;
  row_chunk_index : Z;
  row_start_line : Z;
  row_end_line : Z;
  row_content : str;
  embedding : vector
}.

(** The analysis columns of a [projects] row, written together by the
    orchestrator. *)
Record analysis := {
  repository_type : string;
  framework : option string;
  total_files : Z;
  analysis_metadata : str
}.

Record project := {
  owner_id : Z;
  preprocessing_status : string;
  stored_analysis : option analysis
}.

Record database := {
  projects : gmap Z project;
  project_code_chunks : list row
}.

(** A SQLAlchemy session ([autocommit=False]) on one connection:
    [committed] is what other sessions read, [pending] what this
    transaction reads, and [tx_failed] tells that a statement has failed
    in the open transaction, after which the engine refuses every
    statement until a rollback. *)
Record session := {
  committed : database;
  pending : database;
  tx_failed : bool
}.

Definition db_rollback (s : session) : session :=
  {| committed := committed s; pending := committed s; tx_failed := false |}.

(** [db.commit()]: a failed transaction ends as a rollback. *)
Definition db_commit (s : session) : session :=
  if tx_failed s then db_rollback s
  else {| committed := pending s; pending := pending s; tx_failed := false |}.

(** [db.close()] *)
Definition db_close (s : session) : session := db_rollback s.

Definition fail_statement (s : session) : session :=
  {| committed := committed s; pending := pending s; tx_failed := true |}.

Definition write (f : database -> database) (s : session) : session :=
  {| committed := committed s; pending := f (pending s); tx_failed := tx_failed s |}.

(** Every [ProgressTracker] method ends in [_emit_progress]:
    [db.add(progress); db.commit()], with a rollback when that raises.  On
    the shared session this commits whatever is pending.  The progress
    rows themselves are not modelled.  [tracker] tells whether a tracker was
    passed. *)
Definition emit_progress (tracker : bool) (s : session) : session :=
  if tracker then db_commit s else s.

(** [delete_project_chunks] *)
Definition delete_project_chunks (pid : Z) (d : database) : database :=
  {| projects := projects d;
     project_code_chunks :=
       List.filter (fun r => negb (project_id r =? pid)) (project_code_chunks d) |}.

Definition insert_rows (rows : list row) (d : database) : database :=
  {| projects := projects d;
     project_code_chunks := project_code_chunks d ++ rows |}.

(** The rows of one project, as a query sees them. *)
Definition chunks_of (pid : Z) (d : database) : list row :=
  List.filter (fun r => project_id r =? pid) (project_code_chunks d).

(** One entry of [files]. *)
Record file_meta := {
  f_path : str;
  f_absolute_path : str;
  f_ext : string;
    (* _file_ext(path) *)
  f_read : option str;
    (* read_text: None when it raises *)
  f_parser : option (option node);
  f_langchain : langchain_outcome
}.

(** How [execute_values] ends.  It sends the rows in pages of
    [page_size], one statement per page: building the statement of a page
    can raise on the client before anything is sent (a value that cannot
    be adapted, such as a text holding a NUL character), and the server
    can refuse the statement.  [page] counts from 0; a fault at a page
    the rows do not reach never happens. *)
Inductive insert_outcome :=
| InsertDone
| ClientError (page : nat)
| ServerError (page : nat).

(** What the store's surroundings decide. *)
Record store_env := {
  known_dim : Z;
    (* _infer_embedding_dim: 0 when the dimension must be probed *)
  schema_fails : bool;
    (* ensure_pgvector_schema raises by itself; its statements are the
       first of a call, and they also raise in a failed transaction *)
  insert_result : insert_outcome
    (* how execute_values ends *)
}.

Record world := {
  db : session;
  net : env
}.

Record index_result := {
  files_indexed : Z;
  chunks_written : Z;
  embedding_dim : option Z
}.

(** The file loop of [index_project_chunks_to_pgvector]. *)
Fixpoint chunk_files (tracker : bool) (chunk_chars chunk_overlap : Z)
    (code_files : list file_meta) (chunks : list chunk) (files_read : Z)
    (s : session) : session * outcome (list chunk * Z) :=
  match code_files with
  | [] => (s, Ok (chunks, files_read))
  | fm :: rest =>
      match f_read fm with
      | None => chunk_files tracker chunk_chars chunk_overlap rest chunks files_read s
      | Some text =>
          if negb (truthy (strip text))
          then chunk_files tracker chunk_chars chunk_overlap rest chunks files_read s
          else
            match split_text_to_code_chunks (f_path fm) (f_ext fm) text
                    chunk_chars chunk_overlap (f_parser fm) (f_langchain fm) with
            | None => (s, Raise "split_text")
            | Some cs =>
                chunk_files tracker chunk_chars chunk_overlap rest
                  (chunks ++ cs) (files_read + 1) (emit_progress tracker s)
            end
      end
  end.

(** [batch = 2000], the [page_size] of [execute_values]. *)
Definition page_size : nat := 2000.

(** [execute_values(cursor, insert_sql, rows, page_size=batch)] on the
    session's connection.  The pages before a failing one have been
    executed and stay pending in the transaction; a client-side failure
    leaves the transaction healthy, a server-side one fails it. *)
Definition execute_values (result : insert_outcome) (rows : list row) (s : session)
  : session * outcome unit :=
  match result with
  | InsertDone => (write (insert_rows rows) s, Ok tt)
  | ClientError page =>
      if (page * page_size <? length rows)%nat
      then (write (insert_rows (firstn (page * page_size) rows)) s, Raise "execute_values")
      else (write (insert_rows rows) s, Ok tt)
  | ServerError page =>
      if (page * page_size <? length rows)%nat
      then (fail_statement (write (insert_rows (firstn (page * page_size) rows)) s),
            Raise "execute_values")
      else (write (insert_rows rows) s, Ok tt)
  end.

Definition row_of (pid : Z) (cv : chunk * vector) : row :=
  {| project_id := pid;
     row_path := path (fst cv);
     row_chunk_index := chunk_index (fst cv);
     row_start_line := start_line (fst cv);
     row_end_line := end_line (fst cv);
     row_content := content (fst cv);
     embedding := snd cv |}.

(** The embedding dimension: the known one, or the length of a probe
    embedding. *)
Definition embedding_dimension (P : provider) (E : store_env) (e : env)
  : env * outcome Z :=
  if known_dim E <=? 0 then
    match embed_texts_openai P [of_string "dimension probe"] 1
            default_max_retries default_retry_backoff_sec e with
    | (e', Ok (v :: _)) => (e', Ok (len v))
    | (e', Ok []) => (e', Raise "IndexError")
    | (e', Raise err) => (e', Raise err)
    | (e', Hang) => (e', Hang)
    end
  else (e, Ok (known_dim E)).

(** [index_project_chunks_to_pgvector], with [chunk_chars], [chunk_overlap]
    and [max_files] as in its signature ([max_files = None] is [None]). *)
Definition index_project_chunks_to_pgvector (P : provider) (E : store_env)
    (tracker : bool) (pid : Z) (files : list file_meta)
    (chunk_chars chunk_overlap : Z) (max_files : option Z) (w : world)
  : world * outcome index_result :=
  let code_files :=
    List.filter (fun f => truthy (f_absolute_path f) && truthy (f_path f)) files in
  let code_files :=
    match max_files with
    | Some m => slice_to code_files m
    | None => code_files
    end in
  let s := emit_progress tracker (db w) in
  match chunk_files tracker chunk_chars chunk_overlap code_files [] 0 s with
  | (s, Raise err) => ({| db := s; net := net w |}, Raise err)
  | (s, Hang) => ({| db := s; net := net w |}, Hang)
  | (s, Ok (chunks, files_read)) =>
      if negb (truthy chunks) then
        ({| db := s; net := net w |},
         Ok {| files_indexed := files_read; chunks_written := 0; embedding_dim := None |})
      else
        match embedding_dimension P E (net w) with
        | (e, Raise err) => ({| db := s; net := e |}, Raise err)
        | (e, Hang) => ({| db := s; net := e |}, Hang)
        | (e, Ok dim) =>
            if schema_fails E || tx_failed s
            then ({| db := fail_statement s; net := e |}, Raise "ensure_pgvector_schema")
            else
              (* Full reindex strategy: delete existing rows for project *)
              let s := write (delete_project_chunks pid) s in
              match embed_texts_openai P (List.map content chunks) default_batch_size
                      default_max_retries default_retry_backoff_sec e with
              | (e, Raise err) => ({| db := s; net := e |}, Raise err)
              | (e, Hang) => ({| db := s; net := e |}, Hang)
              | (e, Ok vectors) =>
                  if negb (len vectors =? len chunks)
                  then ({| db := s; net := e |}, Raise "Embedding count mismatch")
                  else
                    let rows := List.map (row_of pid) (combine chunks vectors) in
                    match execute_values (insert_result E) rows s with
                    | (s, Raise err) => ({| db := s; net := e |}, Raise err)
                    | (s, Hang) => ({| db := s; net := e |}, Hang)
                    | (s, Ok _) =>
                        let s := db_commit s in
                        ({| db := s; net := e |},
                         Ok {| files_indexed := files_read;
                               chunks_written := len rows;
                               embedding_dim := Some dim |})
                    end
              end
        end
  end.

(** The [main] loop body of [scripts/reindex_pgvector.py] for one project:
    the call, and [db.close()] in the [finally] clause. *)
Definition reindex_script (P : provider) (E : store_env) (pid : Z)
    (files : list file_meta) (w : world) : world * outcome index_result :=
  let '(w', r) :=
    index_project_chunks_to_pgvector P E false pid files 1200 150 None w in
  ({| db := db_close (db w'); net := net w' |}, r).

(** *** Search *)

Record ChunkRow := {
  cr_path : str;
  cr_start_line : Z;
  cr_end_line : Z;
  cr_content : str;
  score : Q
}.

(** [vector_search_project].  [distance] is pgvector's [<->] operator;
    [path_prefix] is matched as a plain prefix. *)
Definition vector_search_project (P : provider) (E : store_env)
    (distance : vector -> vector -> Q) (pid : Z) (query : str) (k : Z)
    (path_prefix : option str) (w : world) : world * outcome (list ChunkRow) :=
  match embed_texts_openai P [query] 1 default_max_retries
          default_retry_backoff_sec (net w) with
  | (e, Raise err) => ({| db := db w; net := e |}, Raise err)
  | (e, Hang) => ({| db := db w; net := e |}, Hang)
  | (e, Ok []) => ({| db := db w; net := e |}, Raise "IndexError")
  | (e, Ok (qvec :: _)) =>
      if schema_fails E || tx_failed (db w)
      then ({| db := fail_statement (db w); net := e |}, Raise "ensure_pgvector_schema")
      else if k <? 0
      then ({| db := fail_statement (db w); net := e |}, Raise "LIMIT must not be negative")
      else
        let matching :=
          List.filter
            (fun r =>
               (project_id r =? pid)
               && match path_prefix with
                  | Some p => if truthy p then starts_with p (row_path r) else true
                  | None => true
                  end)
            (project_code_chunks (pending (db w))) in
        let ordered :=
          sorted_with (fun a b => Qle_bool (distance (embedding a) qvec)
                                           (distance (embedding b) qvec)) matching in
        ({| db := db w; net := e |},
         Ok (List.map (fun r => {| cr_path := row_path r;
                                   cr_start_line := row_start_line r;
                                   cr_end_line := row_end_line r;
                                   cr_content := row_content r;
                                   score := distance (embedding r) qvec |})
                      (firstn (Z.to_nat k) ordered)))
  end.

(** [search_project_code] of the API: ownership and status checks, then
    the search with [k = min(top_k, 50)]; every failure of the search is
    turned into an HTTP 500.  The project lookup is a statement of its
    own, outside the [try]: in a failed transaction it raises. *)
Definition search_project_code (P : provider) (E : store_env)
    (distance : vector -> vector -> Q) (pid : Z) (query : str) (top_k : Z)
    (current_user : Z) (w : world) : world * outcome (list ChunkRow) :=
  if tx_failed (db w) then (w, Raise "InFailedSqlTransaction")
  else
    match projects (pending (db w)) !! pid with
    | None => (w, Raise "404 Project not found")
    | Some p =>
        if negb (owner_id p =? current_user) then (w, Raise "404 Project not found")
        else if negb (String.eqb (preprocessing_status p) "completed")
        then (w, Raise "400 Project indexing status")
        else
          match vector_search_project P E distance pid query (Z.min top_k 50) None w with
          | (w', Ok rows) => (w', Ok rows)
          | (w', Raise _) => (w', Raise "500 Search failed")
          | (w', Hang) => (w', Hang)
          end
    end.

End Store.

(** ** Indexing orchestrator ([code_analyser.py]) *)

Module Orchestrator.
Import Py Chunking Embedding Store.

(** What the steps before the embedding stage give: the repository
    analysis, and the [all_files] and [global_context] of the final
    workflow state. *)
Record workflow_env := {
  analysis_result : outcome analysis;
    (* analyze_repository *)
  workflow_result : outcome (list file_meta)
    (* workflow.invoke *)
}.

Record run_result := {
  success : bool;
  run_project_id : Z;
  run_total_files : Z;
  run_framework : option string
}.

Definition set_status (status : string) (an : option analysis) (p : project) : project :=
  {| owner_id := owner_id p;
     preprocessing_status := status;
     stored_analysis := match an with Some a => Some a | None => stored_analysis p end |}.

Definition update_project (pid : Z) (f : project -> project) (d : database) : database :=
  {| projects := alter f pid (projects d);
     project_code_chunks := project_code_chunks d |}.

(** The [except Exception] clause of [run_indexing_workflow]: report, mark
    the project failed, commit, re-raise.  The project lookup is a
    statement of its own and raises in a failed transaction. *)
Definition mark_failed (tracker : bool) (pid : Z) (err : string) (w : world)
  : world * outcome run_result :=
  let s := emit_progress tracker (db w) in
  if tx_failed s then ({| db := s; net := net w |}, Raise "InFailedSqlTransaction")
  else
    match projects (pending s) !! pid with
    | Some _ =>
        ({| db := db_commit (write (update_project pid (set_status "failed" None)) s);
            net := net w |}, Raise err)
    | None => ({| db := s; net := net w |}, Raise err)
    end.

(** [run_indexing_workflow].  The progress reports made inside
    [analyze_repository] and the workflow find nothing pending on the
    session and repeat the report before them; they are not written out. *)
Definition run_indexing_workflow (P : provider) (E : store_env) (W : workflow_env)
    (tracker : bool) (pid : Z) (w : world) : world * outcome run_result :=
  (* progress_tracker.start_stage('repository_analysis', ...) *)
  let s := emit_progress tracker (db w) in
  match analysis_result W with
  | Hang => ({| db := s; net := net w |}, Hang)
  | Raise err => mark_failed tracker pid err {| db := s; net := net w |}
  | Ok an =>
      (* progress_tracker.start_stage('indexing', ...) *)
      let s := emit_progress tracker s in
      match workflow_result W with
      | Hang => ({| db := s; net := net w |}, Hang)
      | Raise err => mark_failed tracker pid err {| db := s; net := net w |}
      | Ok all_files =>
          (* progress_tracker.start_stage('finalizing', ...) *)
          let s := emit_progress tracker s in
          if tx_failed s
          then mark_failed tracker pid "InFailedSqlTransaction" {| db := s; net := net w |}
          else
            (* Update project with analysis *)
            let s :=
              match projects (pending s) !! pid with
              | Some _ =>
                  db_commit (write (update_project pid (set_status "completed" (Some an))) s)
              | None => s
              end in
            (* Create code chunks + embeddings and store in pgvector *)
            match index_project_chunks_to_pgvector P E tracker pid all_files
                    1200 150 None {| db := s; net := net w |} with
            | (w', Hang) => (w', Hang)
            | (w', _) =>
                (* an exception is logged: "Do not fail the whole indexing;
                   fallback is parse-on-demand." *)
                ({| db := emit_progress tracker (db w'); net := net w' |},
                 Ok {| success := true;
                       run_project_id := pid;
                       run_total_files := len all_files;
                       run_framework := framework an |})
            end
      end
  end.

End Orchestrator.

(** ** Framework scorer ([repository_analyzer.py]) *)

Module Framework.
Import Py.
Local Open Scope string_scope.

Record patterns := {
  files : list string;
  imports : list string;
  indicators : list string;
  package_deps : option (list string)
}.

Definition dquote : string := String (ascii_of_nat 34) EmptyString.

Definition FRAMEWORK_PATTERNS : list (string * patterns) :=
  [ ("fastapi",
     {| files := ["main.py"; "app.py"];
        imports := ["from fastapi import"; "import fastapi"];
        indicators := ["FastAPI("; "@app.get"; "@app.post"];
        package_deps := None |});
    ("flask",
     {| files := ["app.py"; "wsgi.py"];
        imports := ["from flask import"; "import flask"];
        indicators := ["Flask("; "@app.route"];
        package_deps := None |});
    ("django",
     {| files := ["manage.py"; "settings.py"; "wsgi.py"];
        imports := ["from django"; "import django"];
        indicators := ["INSTALLED_APPS"; "MIDDLEWARE"];
        package_deps := None |});
    ("react",
     {| files := ["package.json"];
        imports := ["from react"; "from 'react'"; "import react"; "import 'react'"];
        indicators := ["React.Component"; "useState"; "useEffect"];
        package_deps := Some ["react"; "react-dom"] |});
    ("nextjs",
     {| files := ["next.config.js"; "next.config.ts"];
        imports := ["from next"; "from 'next'"];
        indicators := ["export default function"; "getServerSideProps"; "getStaticProps"];
        package_deps := Some ["next"] |});
    ("vue",
     {| files := ["vue.config.js"];
        imports := ["from vue"; "from 'vue'"];
        indicators := ["createApp"; "Vue.component"];
        package_deps := Some ["vue"] |});
    ("angular",
     {| files := ["angular.json"];
        imports := ["from @angular"];
        indicators := ["@Component"; "@NgModule"];
        package_deps := Some ["@angular/core"] |});
    ("express",
     {| files := ["server.js"; "app.js"];
        imports := ["from express"; "from 'express'"; "require(" ++ dquote ++ "express" ++ dquote ++ ")";
                    "require('express')"];
        indicators := ["express()"; "app.listen"];
        package_deps := Some ["express"] |});
    ("spring-boot",
     {| files := ["pom.xml"; "build.gradle"];
        imports := ["import org.springframework"];
        indicators := ["@SpringBootApplication"; "@RestController"; "@Service"];
        package_deps := None |});
    ("laravel",
     {| files := ["artisan"; "composer.json"];
        imports := ["use Illuminate"];
        indicators := ["namespace App\"; "Route::"];
        package_deps := None |})
  ].

(** [package.json] at the project root: absent, unreadable as the scorer
    needs it ([json.load] or the dictionary merge raises), or the keys of
    its [dependencies] and [devDependencies]. *)
Inductive manifest :=
| NoManifest
| BadManifest
| Manifest (dependencies devDependencies : list string).

(** The project directory as the scorer reads it. *)
Record repo := {
  root_manifest : manifest;
  other_names : list string;
    (* names of the entries below the root, the root package.json apart *)
  files_map : list (string * list (option str))
    (* language -> its code files in scan order; None: cannot be read *)
}.

Definition mem (x : string) (l : list string) : bool := existsb (String.eqb x) l.

(** [list(self.project_path.rglob(file_pattern))] is non-empty; the
    patterns of the table have no wildcard. *)
Definition rglob_finds (r : repo) (file_pattern : string) : bool :=
  mem file_pattern (other_names r)
  || match root_manifest r with
     | NoManifest => false
     | _ => String.eqb file_pattern "package.json"
     end.

Definition files_score (r : repo) (p : patterns) : Z :=
  List.fold_left (fun score f => if rglob_finds r f then score + 2 else score)
                 (files p) 0%Z.

(** One code file: [+3] if any import pattern occurs (the loop breaks at
    the first), [+1] for each indicator that occurs. *)
Definition file_score (p : patterns) (file : option str) : Z :=
  match file with
  | None => 0
  | Some text =>
      (if existsb (fun pat => contains (of_string pat) text) (imports p) then 3 else 0)
      + List.fold_left
          (fun score ind => if contains (of_string ind) text then score + 1 else score)
          (indicators p) 0
  end%Z.

Definition code_score (r : repo) (p : patterns) : Z :=
  List.fold_left
    (fun score lf =>
       List.fold_left (fun score file => score + file_score p file)%Z
                      (firstn 20 (snd lf)) score)
    (files_map r) 0%Z.

Definition deps_score (r : repo) (p : patterns) : Z :=
  match package_deps p with
  | None => 0
  | Some wanted =>
      match root_manifest r with
      | Manifest deps dev =>
          List.fold_left
            (fun score dep => if mem dep (deps ++ dev) then score + 5 else score)%Z
            wanted 0
      | _ => 0
      end
  end%Z.

Definition framework_score (r : repo) (p : patterns) : Z :=
  (files_score r p + code_score r p + deps_score r p)%Z.

(** The score of a framework given by name; 0 for a name not in the table. *)
Definition score_of (r : repo) (fw : string) : Z :=
  match Chunking.assoc_get fw FRAMEWORK_PATTERNS with
  | Some p => framework_score r p
  | None => 0%Z
  end.

Definition _detect_framework (r : repo) : option string :=
  let detected_frameworks :=
    List.filter (fun fs => (snd fs >? 0)%Z)
      (List.map (fun fp => (fst fp, framework_score r (snd fp))) FRAMEWORK_PATTERNS) in
  match sorted_by_desc snd detected_frameworks with
  | (fw, _) :: _ => Some fw
  | [] => None
  end.

End Framework.

(** ** Notions the statements below use *)

Module Notions.
Import Py Chunking.

(** Every node of the tree has [start_byte <= end_byte]. *)
Fixpoint byte_ordered (n : node) : bool :=
  match n with
  | Node _ sb eb children => (sb <=? eb) && forallb byte_ordered children
  end.

(** No entry's character range lies within the range of another entry. *)
Definition containment_free (l : list ts_chunk) : Prop :=
  forall (i j : nat) (a b : ts_chunk),
    i <> j -> nth_error l i = Some a -> nth_error l j = Some b ->
    ~ (ts_start b <= ts_start a /\ ts_end a <= ts_end b).

(** A span whose start does not exceed its end. *)
Definition ordered (sp : span) : Prop := fst sp <= snd sp.

(** The provider is faithful to an embedding function [E]: whenever it
    replies, [resp.data] holds the embeddings of the batch labelled by
    position, in any order. *)
Definition faithful (E : str -> Embedding.vector) (P : Embedding.provider) : Prop :=
  forall n batch data,
    P n batch = Embedding.Data data ->
    Permutation data (enumerate (List.map E batch)).

(** The provider never raises. *)
Definition always_replies (P : Embedding.provider) : Prop :=
  forall n batch, exists data, P n batch = Embedding.Data data.

(** Every marker file name and every designated dependency of the table. *)
Definition marker_files : list string :=
  List.flat_map (fun fp => Framework.files (snd fp)) Framework.FRAMEWORK_PATTERNS.

Definition designated_deps : list string :=
  List.flat_map (fun fp => match Framework.package_deps (snd fp) with
                           | Some l => l
                           | None => []
                           end) Framework.FRAMEWORK_PATTERNS.

(** The premise of the specification's framework example: the only
    framework signal of the project is a [package.json] at its root whose
    dependencies contain [react].  No other dependency a framework
    designates is listed, no entry below the root (the manifest apart)
    bears a marker file name, and no code file contains an import or
    indicator pattern. *)
Definition react_is_only_signal (r : Framework.repo) : Prop :=
  (exists deps dev,
      Framework.root_manifest r = Framework.Manifest deps dev
      /\ In "react"%string deps
      /\ forall fw p wanted dep,
           In (fw, p) Framework.FRAMEWORK_PATTERNS ->
           Framework.package_deps p = Some wanted ->
           In dep wanted -> dep <> "react"%string -> ~ In dep (deps ++ dev))
  /\ (forall fw p f,
        In (fw, p) Framework.FRAMEWORK_PATTERNS ->
        In f (Framework.files p) -> ~ In f (Framework.other_names r))
  /\ (forall fw p pat lang fs text,
        In (fw, p) Framework.FRAMEWORK_PATTERNS ->
        In pat (Framework.imports p ++ Framework.indicators p) ->
        In (lang, fs) (Framework.files_map r) -> In (Some text) fs ->
        contains (of_string pat) text = false).

(** The smallest such project: a root [package.json] listing [react]. *)
Definition react_only_repo : Framework.repo :=
  {| Framework.root_manifest := Framework.Manifest ["react"%string] [];
     Framework.other_names := [];
     Framework.files_map := [] |}.

(** A session with no uncommitted work and no failed statement. *)
Definition clean (s : Store.session) : Prop :=
  Store.tx_failed s = false /\ Store.pending s = Store.committed s.

(** The hit a stored row gives for a query vector. *)
Definition hit_of (distance : Embedding.vector -> Embedding.vector -> Q)
    (qvec : Embedding.vector) (r : Store.row) : Store.ChunkRow :=
  {| Store.cr_path := Store.row_path r;
     Store.cr_start_line := Store.row_start_line r;
     Store.cr_end_line := Store.row_end_line r;
     Store.cr_content := Store.row_content r;
     Store.score := distance (Store.embedding r) qvec |}.


(** *** A concrete project for the examples *)

Definition provider_down : Embedding.provider :=
  fun _ _ => Embedding.Fails "provider down".

(** A provider that embeds a text as its length. *)
Definition length_embedding (t : str) : Embedding.vector := [inject_Z (len t)].

Definition length_provider : Embedding.provider :=
  fun _ batch => Embedding.Data (rev (enumerate (List.map length_embedding batch))).

(** A provider that answers the first request and is down afterwards. *)
Definition provider_down_after_first : Embedding.provider :=
  fun n batch =>
    match n with
    | O => Embedding.Data (rev (enumerate (List.map length_embedding batch)))
    | S _ => Embedding.Fails "provider down"
    end.

Definition no_requests : Embedding.env :=
  {| Embedding.clients := 0; Embedding.calls := 0; Embedding.slept := [] |}.

Definition three_texts : list str := [of_string "a"; of_string "bb"; of_string "ccc"].

(** Squared Euclidean distance, for the examples. *)
Definition squared_distance (a b : Embedding.vector) : Q :=
  List.fold_left (fun acc xy => (acc + (fst xy - snd xy) * (fst xy - snd xy))%Q)
                 (combine a b) 0%Q.

(** A four-character text of 1, 2, 3 and 4 bytes, and a tree over it. *)
Definition multibyte_text : str := [104; 233; 8364; 128512]%N.

Definition multibyte_tree : Chunking.node :=
  Chunking.Node "module" 0 10 [Chunking.Node "function_definition" 1 6 []].

(** A two-line Python text with its syntax tree. *)
Definition two_line_text : str :=
  of_string ("def f():" ++ String (ascii_of_nat 10) "  return 1")%string.

Definition two_line_tree : Chunking.node :=
  Chunking.Node "module" 0 19 [Chunking.Node "function_definition" 0 19 []].

Definition sample_file : Store.file_meta :=
  {| Store.f_path := of_string "a.py";
     Store.f_absolute_path := of_string "/srv/p/a.py";
     Store.f_ext := ".py";
     Store.f_read := Some (of_string "x = 1");
     Store.f_parser := None;
     Store.f_langchain := Chunking.LcUnavailable |}.

Definition old_row : Store.row :=
  {| Store.project_id := 1;
     Store.row_path := of_string "old.py";
     Store.row_chunk_index := 0;
     Store.row_start_line := 1;
     Store.row_end_line := 1;
     Store.row_content := of_string "y = 2";
     Store.embedding := [1%Q] |}.

Definition indexed_database : Store.database :=
  {| Store.projects :=
       {[ 1 := {| Store.owner_id := 7;
                  Store.preprocessing_status := "processing";
                  Store.stored_analysis := None |} ]};
     Store.project_code_chunks := [old_row] |}.

Definition indexed_world : Store.world :=
  {| Store.db := {| Store.committed := indexed_database;
                    Store.pending := indexed_database;
                    Store.tx_failed := false |};
     Store.net := no_requests |}.

(** A store of two projects: three rows of project 1 at distances 4, 0
    and 36 from a one-character query under [length_embedding], and a row
    of project 2 at distance 0. *)
Definition stored_row (pid : Z) (p : string) (v : Q) : Store.row :=
  {| Store.project_id := pid;
     Store.row_path := of_string p;
     Store.row_chunk_index := 0;
     Store.row_start_line := 1;
     Store.row_end_line := 1;
     Store.row_content := of_string "pass";
     Store.embedding := [v] |}.

Definition library_database : Store.database :=
  {| Store.projects :=
       {[ 1 := {| Store.owner_id := 7;
                  Store.preprocessing_status := "completed";
                  Store.stored_analysis := None |} ]};
     Store.project_code_chunks :=
       [ stored_row 1 "a.py" 3; stored_row 2 "other.py" 1;
         stored_row 1 "b.py" 1; stored_row 1 "c.py" 7 ] |}.

Definition library_world : Store.world :=
  {| Store.db := {| Store.committed := library_database;
                    Store.pending := library_database;
                    Store.tx_failed := false |};
     Store.net := no_requests |}.

Definition sound_store : Store.store_env :=
  {| Store.known_dim := 1536; Store.schema_fails := false; Store.insert_result := Store.InsertDone |}.






Definition sample_analysis : Store.analysis :=
  {| Store.repository_type := "Python Backend";
     Store.framework := None;
     Store.total_files := 1;
     Store.analysis_metadata := [] |}.

Definition sample_workflow : Orchestrator.workflow_env :=
  {| Orchestrator.analysis_result := Ok sample_analysis;
     Orchestrator.workflow_result := Ok [sample_file] |}.


End Notions.

(** ** More of the vector store: fixed windows and prompt formatting *)

Module Windows.
Import Py Chunking.

(** The [while start < n] loop of [_chunk_spans]; it runs at most [n]
    times since [step >= 1]. *)
Fixpoint chunk_spans_loop (fuel : nat) (n chunk_chars step start : Z) : list span :=
  match fuel with
  | O => []
  | S fuel' =>
      if start <? n then
        let e := Z.min n (start + chunk_chars) in
        (start, e) ::
        (if e >=? n then []
         else chunk_spans_loop fuel' n chunk_chars step (start + step))
      else []
  end.

(** [_chunk_spans]: simple character-based splitting with overlap. *)
Definition _chunk_spans (text : str) (chunk_chars chunk_overlap : Z)
  : outcome (list span) :=
  if chunk_chars <=? 0 then Raise "chunk_chars must be > 0"
  else if chunk_overlap <? 0 then Raise "chunk_overlap must be >= 0"
  else
    let n := len text in
    if n =? 0 then Ok []
    else Ok (chunk_spans_loop (length text) n chunk_chars
               (Z.max 1 (chunk_chars - chunk_overlap)) 0).

End Windows.

Module Prompt.
Import Py.

(** A search hit as [format_chunks_for_prompt] reads it; the line columns
    are nullable. *)
Record hit := {
  hit_path : str;
  hit_start_line : option Z;
  hit_end_line : option Z;
  hit_content : str;
  hit_score : Q
}.

Definition of_chunk_row (c : Store.ChunkRow) : hit :=
  {| hit_path := Store.cr_path c;
     hit_start_line := Some (Store.cr_start_line c);
     hit_end_line := Some (Store.cr_end_line c);
     hit_content := Store.cr_content c;
     hit_score := Store.score c |}.

(** [str(n)] for an integer. *)
Definition show_int (z : Z) : str :=
  of_string (NilZero.string_of_int (Z.to_int z)).

Definition nl : str := [10%N].

(** One block; [fmt_score] is the rendering [f"{score:.4f}"] of the
    distance. *)
Definition block (fmt_score : Q -> str) (c : hit) : str :=
  let loc :=
    match hit_start_line c, hit_end_line c with
    | Some s, Some e => hit_path c ++ of_string ":" ++ show_int s ++ of_string "-" ++ show_int e
    | _, _ => hit_path c
    end in
  of_string "=== " ++ loc ++ of_string " (dist=" ++ fmt_score (hit_score c)
  ++ of_string ") ===" ++ nl ++ hit_content c ++ nl.

(** The loop: blocks are taken in order until one would exceed the
    budget; the first block is always taken. *)
Fixpoint select_blocks (max_chars : Z) (blocks parts : list str) (used : Z) : list str :=
  match blocks with
  | [] => parts
  | b :: rest =>
      if (used + len b >? max_chars) && truthy parts then parts
      else select_blocks max_chars rest (parts ++ [b]) (used + len b)
  end.

(** [sep.join(parts)] *)
Fixpoint join (sep : str) (parts : list str) : str :=
  match parts with
  | [] => []
  | [p] => p
  | p :: rest => p ++ sep ++ join sep rest
  end.

Definition format_chunks_for_prompt (fmt_score : Q -> str) (chunks : list hit)
    (max_chars : Z) : str :=
  strip (join nl (select_blocks max_chars (List.map (block fmt_score) chunks) [] 0)).

End Prompt.

(** ** More of the repository analyzer ([repository_analyzer.py]) *)

Module Analyzer.
Local Open Scope string_scope.

Definition ENTRY_POINT_PATTERNS : list (string * list string) :=
  [ ("python", ["main.py"; "app.py"; "__main__.py"; "wsgi.py"; "asgi.py"; "manage.py"]);
    ("javascript", ["index.js"; "main.js"; "app.js"; "server.js"]);
    ("typescript", ["index.ts"; "main.ts"; "app.ts"; "server.ts"]);
    ("java", ["Main.java"; "Application.java"; "App.java"]);
    ("go", ["main.go"]);
    ("rust", ["main.rs"]);
    ("php", ["index.php"; "artisan"]) ].

(** The inner loops of [_find_entry_points]: a match is appended unless it
    is already listed. *)
Fixpoint add_matches (matches entry_points : list string) : list string :=
  match matches with
  | [] => entry_points
  | m :: rest =>
      if Framework.mem m entry_points then add_matches rest entry_points
      else add_matches rest (entry_points ++ [m])%list
  end.

(** [_find_entry_points].  [rglob pattern] is the list of the matches of
    [project_path.rglob(pattern)], as paths relative to the root, in the
    order the file system yields them. *)
Definition _find_entry_points (rglob : string -> list string) : list string :=
  firstn 5
    (List.fold_left
       (fun entry_points lp =>
          List.fold_left (fun eps pattern => add_matches (rglob pattern) eps)
                         (snd lp) entry_points)
       ENTRY_POINT_PATTERNS []).

Definition important_patterns : list string :=
  [ "README.md"; "README.rst"; "README.txt"; "requirements.txt"; "package.json";
    "pom.xml"; "Dockerfile"; "docker-compose.yml"; ".env.example"; "config.py";
    "settings.py"; "main.py"; "app.py"; "index.js"; "index.ts" ].

(** [_identify_important_files]: the first match of each pattern. *)
Definition _identify_important_files (rglob : string -> list string) : list string :=
  firstn 10
    (List.fold_left (fun important pattern => (important ++ firstn 1 (rglob pattern))%list)
                    important_patterns []).

(** [_detect_primary_language].  [language_stats] holds the line count
    of each language in insertion order; [max] keeps the first of several
    maximal entries. *)
Fixpoint max_by_lines (best : string * Z) (rest : list (string * Z)) : string :=
  match rest with
  | [] => fst best
  | kv :: rest' =>
      if (snd kv >? snd best)%Z then max_by_lines kv rest'
      else max_by_lines best rest'
  end.

Definition _detect_primary_language (language_stats : list (string * Z)) : string :=
  match language_stats with
  | [] => "unknown"
  | kv :: rest => max_by_lines kv rest
  end.

End Analyzer.

(** ** The reindexing script ([scripts/reindex_pgvector.py]) *)

Module Script.
Import Py Embedding Store.

(** The loop of [main] over the projects found.  A job is a project id
    with the files scanned under its folder, or [None] when the folder
    cannot be located (the project is skipped). *)
Fixpoint reindex_projects (P : provider) (E : store_env)
    (jobs : list (Z * option (list file_meta))) (w : world) : world * outcome unit :=
  match jobs with
  | [] => (w, Ok tt)
  | (_, None) :: rest => reindex_projects P E rest w
  | (pid, Some files) :: rest =>
      match index_project_chunks_to_pgvector P E false pid files 1200 150 None w with
      | (w', Ok _) => reindex_projects P E rest w'
      | (w', Raise err) => (w', Raise err)
      | (w', Hang) => (w', Hang)
      end
  end.

(** [main], once the arguments are parsed: exit code 1 when no project
    matches, 0 after the loop; the session is closed in every case. *)
Definition main (P : provider) (E : store_env)
    (jobs : list (Z * option (list file_meta))) (w : world) : world * outcome Z :=
  if negb (truthy jobs)
  then ({| db := db_close (db w); net := net w |}, Ok 1)
  else
    match reindex_projects P E jobs w with
    | (w', Ok _) => ({| db := db_close (db w'); net := net w' |}, Ok 0)
    | (w', Raise err) => ({| db := db_close (db w'); net := net w' |}, Raise err)
    | (w', Hang) => (w', Hang)
    end.

(** The process, [raise SystemExit(main(sys.argv))]: its exit status is
    what [main] returns, and an exception that leaves [main] ends the
    interpreter with status 1. *)
Definition exit_status (P : provider) (E : store_env)
    (jobs : list (Z * option (list file_meta))) (w : world) : world * outcome Z :=
  match main P E jobs w with
  | (w', Ok code) => (w', Ok code)
  | (w', Raise _) => (w', Ok 1)
  | (w', Hang) => (w', Hang)
  end.

End Script.

(** ** Notions for the further properties *)

Module ExtraNotions.
Import Py.

(** The number of newline characters before index [idx]. *)
Definition newlines_before (text : str) (idx : Z) : Z :=
  len (List.filter (fun ch => (ch =? 10)%N) (firstn (Z.to_nat idx) text)).

(** Consecutive pieces from [cursor] to [final], each starting where the
    one before it ends. *)
Fixpoint tiles (cursor : Z) (pieces : list Chunking.span) (final : Z) : Prop :=
  match pieces with
  | [] => cursor = final
  | (a, b) :: rest => a = cursor /\ a <= b /\ tiles b rest final
  end.

(** A non-empty span between [lo] and [hi] of at most [size] characters. *)
Definition within (lo hi size : Z) (sp : Chunking.span) : Prop :=
  lo <= fst sp < snd sp /\ snd sp <= hi /\ snd sp - fst sp <= size.

(** Some span holds the index [i]. *)
Definition covers (spans : list Chunking.span) (i : Z) : Prop :=
  exists sp, In sp spans /\ fst sp <= i < snd sp.

(** The character at index [i] exists and is not white space. *)
Definition visible_at (text : str) (i : Z) : Prop :=
  0 <= i /\ exists c, nth_error text (Z.to_nat i) = Some c /\ is_space c = false.

(** What a splitter gives on a text at an offset: spans inside the text
    of at most [chunk_size] characters that leave no visible character
    out. *)
Definition splits_well (chunk_size : Z) (text : str) (off : Z) (spans : list Chunking.span) : Prop :=
  Forall (within off (off + len text) chunk_size) spans
  /\ (forall j, visible_at text j -> covers spans (off + j)).

(** [part] occurs in [text] as a contiguous run of characters. *)
Definition occurs_in (part text : str) : Prop :=
  exists before after, text = before ++ part ++ after.

(** The chunk bears the marks of one of the two tiers: a tree-sitter
    chunk names a node type the extension designates. *)
Definition tier_marked (file_ext : string) (c : Chunking.chunk) : Prop :=
  (Chunking.splitter c = "tree_sitter"%string
   /\ exists node_type,
        Chunking.chunk_type c = ("tree_sitter:" ++ node_type)%string
        /\ In node_type (Chunking._get_chunkable_node_types file_ext))
  \/ (Chunking.splitter c = "recursive"%string
      /\ Chunking.chunk_type c = "recursive"%string).

(** The first entry of [l] with the greatest key: everything before it is
    strictly smaller, everything after it at most as large. *)
Definition first_greatest {A} (key : A -> Z) (l : list A) (x : A) : Prop :=
  exists before after,
    l = before ++ x :: after
    /\ (forall y, In y before -> key y < key x)
    /\ (forall y, In y after -> key y <= key x).

(** The number of characters of the blocks together. *)
Definition total_len (blocks : list str) : Z :=
  List.fold_right (fun b acc => len b + acc) 0 blocks.

(** The columns of the table's uniqueness constraint besides the project
    id, for a chunk and for a row. *)
Definition chunk_key (c : Chunking.chunk) : str * Z :=
  (Chunking.path c, Chunking.chunk_index c).

Definition row_key (r : Store.row) : str * Z :=
  (Store.row_path r, Store.row_chunk_index r).

(** *** More sample inputs *)

(** A text of white space only. *)
Definition blank_text : str := [32; 10; 32]%N.

Definition unreadable_file : Store.file_meta :=
  {| Store.f_path := of_string "gone.py";
     Store.f_absolute_path := of_string "/srv/p/gone.py";
     Store.f_ext := ".py";
     Store.f_read := None;
     Store.f_parser := None;
     Store.f_langchain := Chunking.LcUnavailable |}.

Definition blank_file : Store.file_meta :=
  {| Store.f_path := of_string "blank.py";
     Store.f_absolute_path := of_string "/srv/p/blank.py";
     Store.f_ext := ".py";
     Store.f_read := Some blank_text;
     Store.f_parser := None;
     Store.f_langchain := Chunking.LcUnavailable |}.

(** A readable file of two lines under the path [p]. *)
Definition source_file (p : string) : Store.file_meta :=
  {| Store.f_path := of_string p;
     Store.f_absolute_path := of_string "/srv/p/" ++ of_string p;
     Store.f_ext := ".py";
     Store.f_read := Some Notions.two_line_text;
     Store.f_parser := None;
     Store.f_langchain := Chunking.LcUnavailable |}.

(** A provider that fails its first [k] requests and replies afterwards. *)
Definition provider_up_after (k : nat) : Embedding.provider :=
  fun n batch =>
    if (n <? k)%nat then Embedding.Fails "rate limited"
    else Embedding.Data (rev (enumerate (List.map Notions.length_embedding batch))).

(** The project row of the sample database. *)
Definition sample_project : Store.project :=
  {| Store.owner_id := 7;
     Store.preprocessing_status := "processing";
     Store.stored_analysis := None |}.

End ExtraNotions.
(** * Properties *)

(** ** Slices, sorting and bisection *)

Section PyFacts.
Import Py.
Context {A : Type}.
Implicit Types s : list A.

Lemma len_nonneg s : 0 <= len s.
Proof. unfold len. lia. Qed.

Lemma norm_index_range n i : 0 <= n -> 0 <= norm_index n i <= n.
Proof. intros Hn. unfold norm_index. destruct (i <? 0) eqn:E; lia. Qed.

Lemma norm_index_id n i : 0 <= i <= n -> norm_index n i = i.
Proof. intros H. unfold norm_index. destruct (i <? 0) eqn:E; lia. Qed.

(** A slice between in-range bounds is the plain sub-list. *)
Lemma slice_in_range s a b :
  0 <= a <= b -> b <= len s ->
  slice s a b = firstn (Z.to_nat (b - a)) (skipn (Z.to_nat a) s)
  /\ len (slice s a b) = b - a.
Proof.
  intros Ha Hb. unfold slice.
  rewrite !norm_index_id by lia. split; [reflexivity|].
  unfold len in *. rewrite length_firstn, length_skipn. lia.
Qed.

(** With non-negative bounds, a non-empty slice has [a < b]. *)
Lemma slice_nonempty_ordered s a b :
  0 <= a -> 0 <= b -> slice s a b <> [] -> a < b.
Proof.
  intros Ha Hb Hne. destruct (Z_lt_le_dec a b) as [|Hle]; [assumption|].
  exfalso. apply Hne. unfold slice, norm_index.
  destruct (a <? 0) eqn:E1; [lia|]. destruct (b <? 0) eqn:E2; [lia|].
  replace (Z.to_nat (Z.min b (len s) - Z.min a (len s))) with O by lia.
  reflexivity.
Qed.

End PyFacts.

Section BisectFacts.
Import Py.

Lemma bisect_left_nonneg a x : 0 <= bisect_left a x.
Proof. induction a as [|y a IH]; simpl; [lia|]. destruct (y <? x); lia. Qed.

Lemma bisect_left_le_len a x : bisect_left a x <= len a.
Proof.
  unfold len. induction a as [|y a IH]; simpl; [lia|].
  destruct (y <? x); lia.
Qed.

Lemma bisect_left_mono a x y : x <= y -> bisect_left a x <= bisect_left a y.
Proof.
  intros Hxy. induction a as [|z a IH]; simpl; [lia|].
  destruct (z <? x) eqn:E1, (z <? y) eqn:E2; try lia.
  pose proof (bisect_left_nonneg a y). lia.
Qed.

(** Below the last entry the insertion point is a proper index. *)
Lemma bisect_left_below_last a x d :
  a <> [] -> x <= List.last a d -> bisect_left a x <= len a - 1.
Proof.
  unfold len. induction a as [|y a IH]; [congruence|].
  intros _ Hx. destruct a as [|z a].
  - simpl in *. destruct (y <? x) eqn:E; lia.
  - change (List.last (y :: z :: a) d) with (List.last (z :: a) d) in Hx.
    specialize (IH ltac:(congruence) Hx).
    change (bisect_left (y :: z :: a) x)
      with (if y <? x then 1 + bisect_left (z :: a) x else 0).
    simpl length in *. destruct (y <? x); lia.
Qed.

(** On an ascending list the insertion point splits the list as
    [bisect.bisect_left] documents: everything before it is below [x],
    everything from it on is not. *)
Lemma bisect_left_partition a x :
  Sorted Z.le a ->
  Forall (fun y => y < x) (firstn (Z.to_nat (bisect_left a x)) a)
  /\ Forall (fun y => x <= y) (skipn (Z.to_nat (bisect_left a x)) a).
Proof.
  intros Hs. apply Sorted_StronglySorted in Hs; [|intros ? ? ?; lia].
  induction Hs as [|y a Hsa IH Hy]; simpl.
  - split; constructor.
  - destruct (y <? x) eqn:E.
    + pose proof (bisect_left_nonneg a x).
      replace (Z.to_nat (1 + bisect_left a x)) with (S (Z.to_nat (bisect_left a x))) by lia.
      simpl. destruct IH as [IH1 IH2]. split; [constructor; [lia|assumption]|assumption].
    + simpl. split; [constructor|].
      constructor; [lia|]. eapply List.Forall_impl; [|exact Hy]. simpl. intros; lia.
Qed.

End BisectFacts.

Section SortFacts.
Context {A : Type} (le : A -> A -> bool).

Lemma insert_sorted_perm x l : Permutation (insert_sorted le x l) (x :: l).
Proof.
  induction l as [|y l IH]; simpl; [reflexivity|].
  destruct (le x y); [reflexivity|].
  rewrite IH. apply perm_swap.
Qed.

Lemma sorted_with_perm l : Permutation (sorted_with le l) l.
Proof.
  induction l as [|x l IH]; simpl; [reflexivity|].
  unfold sorted_with in *. simpl. rewrite insert_sorted_perm. now constructor.
Qed.

Lemma sorted_with_In x l : In x (sorted_with le l) <-> In x l.
Proof.
  split; apply Permutation_in; [|symmetry]; apply sorted_with_perm.
Qed.

Lemma sorted_with_length l : length (sorted_with le l) = length l.
Proof. apply Permutation_length, sorted_with_perm. Qed.

Hypothesis le_total : forall x y, le x y = false -> le y x = true.
Hypothesis le_trans : forall x y z, le x y = true -> le y z = true -> le x z = true.

Lemma insert_sorted_sorted x l :
  StronglySorted (fun a b => le a b = true) l ->
  StronglySorted (fun a b => le a b = true) (insert_sorted le x l).
Proof.
  induction 1 as [|y l Hs IH Hy]; simpl.
  - constructor; constructor.
  - destruct (le x y) eqn:E.
    + constructor; [constructor; assumption|].
      constructor; [assumption|].
      eapply List.Forall_impl; [|exact Hy]. simpl. intros z Hz. eapply le_trans; eauto.
    + constructor; [assumption|].
      eapply Permutation_Forall; [symmetry; apply insert_sorted_perm|].
      constructor; [apply le_total; assumption|assumption].
Qed.

Lemma sorted_with_sorted l :
  StronglySorted (fun a b => le a b = true) (sorted_with le l).
Proof.
  induction l as [|x l IH]; [constructor|].
  apply insert_sorted_sorted. exact IH.
Qed.

End SortFacts.

(** ** Tier 1: byte offsets, character spans, containment *)

Section Tier1Facts.
Import Py Chunking Notions.

Lemma node_induction (P : node -> Prop) :
  (forall ty sb eb children, Forall P children -> P (Node ty sb eb children)) ->
  forall n, P n.
Proof.
  intros step. fix IH 1. intros [ty sb eb children]. apply step.
  induction children as [|c cs IHcs]; constructor; [apply IH|exact IHcs].
Qed.

Lemma utf8_len_pos ch : 1 <= utf8_len ch.
Proof. unfold utf8_len. repeat destruct (_ <? _)%N; lia. Qed.

Lemma utf8_offsets_from_length total text :
  length (utf8_offsets_from total text) = length text.
Proof.
  revert total. induction text as [|ch text IH]; intros total; simpl; [reflexivity|].
  now rewrite IH.
Qed.

Lemma utf8_byte_offsets_len text : len (_utf8_byte_offsets text) = len text + 1.
Proof.
  unfold len, _utf8_byte_offsets. simpl length. rewrite utf8_offsets_from_length. lia.
Qed.

(** The offsets ascend strictly, so bisection on them is well defined. *)
Lemma utf8_offsets_from_sorted total text :
  StronglySorted Z.lt (total :: utf8_offsets_from total text).
Proof.
  revert total. induction text as [|ch text IH]; intros total; simpl.
  - repeat constructor.
  - specialize (IH (total + utf8_len ch)).
    pose proof (utf8_len_pos ch) as Hpos.
    inversion IH as [|? ? Hs Hall]; subst.
    constructor; [exact IH|].
    constructor; [lia|].
    eapply List.Forall_impl; [|exact Hall]. simpl. intros; lia.
Qed.

Lemma utf8_byte_offsets_sorted text : Sorted Z.le (_utf8_byte_offsets text).
Proof.
  apply StronglySorted_Sorted.
  pose proof (utf8_offsets_from_sorted 0 text) as H.
  unfold _utf8_byte_offsets.
  induction H as [|x l Hs IH Hall]; constructor; [exact IH|].
  eapply List.Forall_impl; [|exact Hall]. simpl. intros; lia.
Qed.

Lemma char_index_range offs b :
  offs <> [] -> 0 <= _char_index_from_byte offs b <= len offs - 1.
Proof.
  intros Hne. unfold _char_index_from_byte.
  assert (1 <= len offs) by (unfold len; destruct offs; [congruence|simpl; lia]).
  destruct (b <=? 0) eqn:E0; [lia|].
  destruct (b >=? List.last offs 0) eqn:E1; [lia|].
  split; [apply bisect_left_nonneg|].
  apply bisect_left_below_last with (d := 0); [assumption|lia].
Qed.

Lemma char_index_mono offs b1 b2 :
  offs <> [] -> b1 <= b2 ->
  _char_index_from_byte offs b1 <= _char_index_from_byte offs b2.
Proof.
  intros Hne Hle.
  pose proof (char_index_range offs b1 Hne) as R1.
  pose proof (char_index_range offs b2 Hne) as R2.
  unfold _char_index_from_byte in *.
  destruct (b1 <=? 0) eqn:A1; [lia|].
  destruct (b2 <=? 0) eqn:A2; [lia|].
  destruct (b2 >=? List.last offs 0) eqn:B2; [lia|].
  destruct (b1 >=? List.last offs 0) eqn:B1; [lia|].
  now apply bisect_left_mono.
Qed.

Lemma utf8_byte_offsets_nonempty text : _utf8_byte_offsets text <> [].
Proof. discriminate. Qed.

(** What [traverse] collects are images of node byte pairs. *)
Lemma traverse_from_nodes tys offs max n c :
  In c (traverse tys offs max n) ->
  exists sb eb,
    ts_start c = _char_index_from_byte offs sb
    /\ ts_end c = _char_index_from_byte offs eb
    /\ (byte_ordered n = true -> sb <= eb).
Proof.
  revert c. induction n as [ty sb eb children IH] using node_induction.
  intros c Hin. simpl in Hin.
  assert (Hdesc :
    In c (List.flat_map (traverse tys offs max) children) ->
    exists sb' eb',
      ts_start c = _char_index_from_byte offs sb'
      /\ ts_end c = _char_index_from_byte offs eb'
      /\ (byte_ordered (Node ty sb eb children) = true -> sb' <= eb')).
  { intros Hc. apply in_flat_map in Hc as (child & Hchild & Hc).
    rewrite List.Forall_forall in IH.
    destruct (IH child Hchild c Hc) as (sb' & eb' & Hs & He & Hord).
    exists sb', eb'. repeat split; try assumption.
    intros Hn. apply Hord. simpl in Hn.
    apply andb_true_iff in Hn as [_ Hn].
    rewrite forallb_forall in Hn. now apply Hn. }
  destruct (in_strings ty tys); [|now apply Hdesc].
  destruct (_ <=? _); [|now apply Hdesc].
  destruct Hin as [<-|[]].
  exists sb, eb. repeat split.
  intros Hn. simpl in Hn. apply andb_true_iff in Hn as [Hn _]. lia.
Qed.

Lemma drop_contained_In c chunks : In c (drop_contained chunks) -> In c chunks.
Proof.
  unfold drop_contained. intros H.
  apply in_map_iff in H as ([i c'] & Heq & H). simpl in Heq. subst c'.
  apply filter_In in H as [H _].
  unfold enumerate in H. now apply in_combine_r in H.
Qed.

Lemma extract_from_nodes text root file_ext max c :
  In c (_extract_tree_sitter_chunks text (Some root) file_ext max) ->
  exists sb eb,
    ts_start c = _char_index_from_byte (_utf8_byte_offsets text) sb
    /\ ts_end c = _char_index_from_byte (_utf8_byte_offsets text) eb
    /\ (byte_ordered root = true -> sb <= eb).
Proof.
  unfold _extract_tree_sitter_chunks.
  destruct (existsb is_surrogate text); [intros []|].
  destruct (negb _); [intros []|].
  intros H. apply drop_contained_In in H.
  unfold sorted_by in H. apply sorted_with_In in H.
  now apply traverse_from_nodes in H.
Qed.

(** Tier-1 spans lie within the text whatever the parser reports. *)
Lemma extract_span_range text parse file_ext max c :
  In c (_extract_tree_sitter_chunks text parse file_ext max) ->
  0 <= ts_start c <= len text /\ 0 <= ts_end c <= len text.
Proof.
  destruct parse as [root|].
  - intros H. apply extract_from_nodes in H as (sb & eb & -> & -> & _).
    pose proof (utf8_byte_offsets_len text) as Hl.
    pose proof (char_index_range _ sb (utf8_byte_offsets_nonempty text)).
    pose proof (char_index_range _ eb (utf8_byte_offsets_nonempty text)).
    lia.
  - unfold _extract_tree_sitter_chunks. destruct (existsb _ _); intros [].
Qed.

Lemma enumerate_NoDup_fst {A} (l : list A) : List.NoDup (List.map fst (enumerate l)).
Proof.
  unfold enumerate.
  assert (H : forall (xs : list Z), length xs = length l ->
                List.map fst (combine xs l) = xs).
  { intros xs. revert l. induction xs as [|x xs IH]; intros [|y l] Hlen;
      simpl in *; try congruence. f_equal. apply IH. lia. }
  rewrite H by (rewrite length_map, length_seq; reflexivity).
  apply Injective_map_NoDup; [intros x y Hxy; lia|apply List.seq_NoDup].
Qed.

Lemma NoDup_filter_map_fst {A B} (f : A * B -> bool) (l : list (A * B)) :
  List.NoDup (List.map fst l) -> List.NoDup (List.map fst (List.filter f l)).
Proof.
  induction l as [|x l IH]; simpl; [constructor|].
  intros Hnd. inversion Hnd as [|? ? Hnotin Hnd']; subst.
  destruct (f x); simpl; [constructor|]; auto.
  intros Hin. apply Hnotin.
  apply in_map_iff in Hin as (y & Hy & Hin). apply filter_In in Hin as [Hin _].
  apply in_map_iff. eauto.
Qed.

Lemma drop_contained_free chunks : containment_free (drop_contained chunks).
Proof.
  unfold containment_free, drop_contained.
  intros i j a b Hij Hi Hj [Hs He].
  set (kept := List.filter (fun ic => negb (is_contained ic chunks)) (enumerate chunks)) in *.
  rewrite nth_error_map in Hi, Hj.
  destruct (nth_error kept i) as [[ia a']|] eqn:Ki; [|discriminate].
  destruct (nth_error kept j) as [[jb b']|] eqn:Kj; [|discriminate].
  simpl in Hi, Hj. injection Hi as ->. injection Hj as ->.
  assert (Hnd : List.NoDup (List.map fst kept))
    by apply NoDup_filter_map_fst, enumerate_NoDup_fst.
  assert (Hne : ia <> jb).
  { intros ->. apply Hij.
    rewrite NoDup_nth_error in Hnd. apply Hnd.
    - rewrite length_map. apply nth_error_Some. congruence.
    - rewrite !nth_error_map, Ki, Kj. reflexivity. }
  pose proof (nth_error_In _ _ Ki) as Ia. pose proof (nth_error_In _ _ Kj) as Ib.
  apply filter_In in Ia as [_ Ka]. apply filter_In in Ib as [Ib _].
  apply negb_true_iff in Ka. unfold is_contained in Ka.
  assert (Hex : existsb
           (fun jo => negb (fst (ia, a) =? fst jo)
                      && (ts_start (snd (ia, a)) >=? ts_start (snd jo))
                      && (ts_end (snd (ia, a)) <=? ts_end (snd jo)))
           (enumerate chunks) = true).
  { apply existsb_exists. exists (jb, b). split; [exact Ib|]. simpl.
    apply andb_true_iff; split; [apply andb_true_iff; split|].
    - apply negb_true_iff. lia.
    - lia.
    - lia. }
  congruence.
Qed.

End Tier1Facts.

Section Tier1Claims.
Import Py Chunking Notions.

(** C9.  For every text, the byte-to-character mapping of tier-1 chunking
    is monotone and lands in [0, len(text)]; hence every span extracted
    from a tree whose nodes have [start_byte <= end_byte] satisfies
    [0 <= start_char <= end_char <= len(text)], and slicing the text at it
    stays within bounds (the slice has exactly [end_char - start_char]
    characters). *)
Theorem tier1_spans_within_text (text : str) :
  (forall start_byte end_byte,
      start_byte <= end_byte ->
      0 <= _char_index_from_byte (_utf8_byte_offsets text) start_byte
        <= _char_index_from_byte (_utf8_byte_offsets text) end_byte
      /\ _char_index_from_byte (_utf8_byte_offsets text) end_byte <= len text)
  /\ (forall root file_ext max_chunk_chars c,
        byte_ordered root = true ->
        In c (_extract_tree_sitter_chunks text (Some root) file_ext max_chunk_chars) ->
        0 <= ts_start c <= ts_end c /\ ts_end c <= len text
        /\ slice text (ts_start c) (ts_end c)
           = firstn (Z.to_nat (ts_end c - ts_start c)) (skipn (Z.to_nat (ts_start c)) text)
        /\ len (slice text (ts_start c) (ts_end c)) = ts_end c - ts_start c).
Proof.
  pose proof (utf8_byte_offsets_len text) as Hl.
  pose proof (utf8_byte_offsets_nonempty text) as Hne.
  assert (Hmap : forall sb eb, sb <= eb ->
            0 <= _char_index_from_byte (_utf8_byte_offsets text) sb
              <= _char_index_from_byte (_utf8_byte_offsets text) eb
            /\ _char_index_from_byte (_utf8_byte_offsets text) eb <= len text).
  { intros sb eb Hle.
    pose proof (char_index_range _ sb Hne). pose proof (char_index_range _ eb Hne).
    pose proof (char_index_mono _ sb eb Hne Hle). lia. }
  split; [exact Hmap|].
  intros root file_ext max c Hord Hin.
  apply extract_from_nodes in Hin as (sb & eb & Hs & He & Hle).
  specialize (Hmap sb eb (Hle Hord)). rewrite <- Hs, <- He in Hmap.
  destruct (slice_in_range text (ts_start c) (ts_end c)) as [E1 E2]; [lia|lia|].
  repeat split; try lia; assumption.
Qed.

(** C5.  The span list the syntax-aware tier returns is containment-free:
    no returned span lies within another returned span, for every text and
    every tree the parser may give. *)
Theorem tier1_spans_containment_free (text : str) (parse : option node)
    (file_ext : string) (max_chunk_chars : Z) :
  containment_free (_extract_tree_sitter_chunks text parse file_ext max_chunk_chars).
Proof.
  unfold _extract_tree_sitter_chunks.
  assert (Hnil : containment_free []).
  { intros i j a b _ Hi. destruct i; discriminate. }
  destruct (existsb is_surrogate text); [exact Hnil|].
  destruct parse as [root|]; [|exact Hnil].
  destruct (negb _); [exact Hnil|].
  apply drop_contained_free.
Qed.

End Tier1Claims.

(** ** Stripping *)

Section StripFacts.
Import Py.

Lemma lstrip_head s :
  lstrip s = [] \/ exists c t, lstrip s = c :: t /\ is_space c = false.
Proof.
  induction s as [|c s IH]; simpl; [now left|].
  destruct (is_space c) eqn:E; [exact IH|]. right. eauto.
Qed.

Lemma lstrip_fixed c t : is_space c = false -> lstrip (c :: t) = c :: t.
Proof. intros H. simpl. now rewrite H. Qed.

Lemma lstrip_idem s : lstrip (lstrip s) = lstrip s.
Proof.
  destruct (lstrip_head s) as [->|(c & t & -> & H)]; [reflexivity|].
  now apply lstrip_fixed.
Qed.

(** [lstrip] never consumes a character that is not white space. *)
Lemma lstrip_app_keep s c :
  is_space c = false -> exists t, lstrip (s ++ [c]) = t ++ [c].
Proof.
  intros H. induction s as [|d s IH]; simpl.
  - rewrite H. now exists [].
  - destruct (is_space d); [exact IH|]. now exists (d :: s).
Qed.

Lemma rstrip_keeps_head c t :
  is_space c = false -> exists t', rstrip (c :: t) = c :: t'.
Proof.
  intros H. unfold rstrip. simpl rev.
  destruct (lstrip_app_keep (rev t) c H) as [u ->].
  rewrite rev_app_distr. simpl. eauto.
Qed.

Lemma rstrip_idem s : rstrip (rstrip s) = rstrip s.
Proof. unfold rstrip. now rewrite rev_involutive, lstrip_idem. Qed.

Lemma strip_idem s : strip (strip s) = strip s.
Proof.
  unfold strip.
  destruct (lstrip_head s) as [->|(c & t & -> & H)]; [reflexivity|].
  destruct (rstrip_keeps_head c t H) as [t' E].
  rewrite E, (lstrip_fixed c t' H), <- E. apply rstrip_idem.
Qed.

Lemma strip_nonempty s : strip s <> [] -> s <> [].
Proof. intros H ->. now apply H. Qed.

End StripFacts.

(** ** Tier 2: every span is ordered *)

Section Tier2Facts.
Import Py Chunking Notions.

Lemma Forall_ordered_app l1 l2 :
  Forall ordered l1 -> Forall ordered l2 -> Forall ordered (l1 ++ l2).
Proof. intros. apply Forall_app. now split. Qed.

Lemma char_split_ordered fuel chunk_size step text off i :
  0 < chunk_size -> Forall ordered (char_split fuel chunk_size step text off i).
Proof.
  intros Hcs. revert i. induction fuel as [|fuel IH]; intros i; simpl; [constructor|].
  destruct (i <? len text) eqn:Ei; [|constructor].
  assert (Hhere : Forall ordered
            (if truthy (strip (slice text i (Z.min (len text) (i + chunk_size))))
             then [(off + i, off + Z.min (len text) (i + chunk_size))] else [])).
  { destruct (truthy _); constructor; [unfold ordered; simpl; lia|constructor]. }
  destruct (_ >=? _); [exact Hhere|].
  apply Forall_ordered_app; [exact Hhere|apply IH].
Qed.

Lemma emit_current_ordered text off cs ce : Forall ordered (emit_current text off cs ce).
Proof.
  unfold emit_current. destruct (ce >? cs) eqn:E; simpl; [|constructor].
  destruct (truthy _); constructor; [unfold ordered; simpl; lia|constructor].
Qed.

Lemma merge_pieces_ordered recurse chunk_size chunk_overlap text off pieces cs ce :
  (forall t o, Forall ordered (recurse t o)) ->
  Forall ordered (merge_pieces recurse chunk_size chunk_overlap text off pieces cs ce).
Proof.
  intros Hrec. revert cs ce.
  induction pieces as [|[p_start p_end] rest IH]; intros cs ce; simpl.
  - apply emit_current_ordered.
  - destruct (_ <=? _); [apply IH|].
    destruct (_ <=? _).
    + apply Forall_ordered_app; [apply emit_current_ordered|apply IH].
    + apply Forall_ordered_app; [apply emit_current_ordered|].
      apply Forall_ordered_app; [apply Hrec|apply IH].
Qed.

Lemma split_recursive_ordered fuel chunk_size chunk_overlap text off seps :
  0 < chunk_size ->
  Forall ordered (split_recursive fuel chunk_size chunk_overlap text off seps).
Proof.
  intros Hcs. revert text off seps.
  induction fuel as [|fuel IH]; intros text off seps; simpl; [constructor|].
  destruct (len text <=? chunk_size).
  { destruct (truthy _); constructor; [|constructor].
    unfold ordered; simpl. pose proof (len_nonneg text). lia. }
  generalize seps at 1 2. intros all.
  induction seps as [|sep rest IHrest].
  - apply IH.
  - destruct (negb (truthy sep)); [now apply char_split_ordered|].
    destruct (contains sep text); [|exact IHrest].
    apply merge_pieces_ordered. intros t o. apply IH.
Qed.

Lemma infer_spans_ordered text chunk_overlap parts cursor :
  Forall ordered (infer_spans text chunk_overlap parts cursor).
Proof.
  revert cursor. induction parts as [|part rest IH]; intros cursor; simpl; [constructor|].
  destruct (_ <? 0); [apply IH|].
  constructor; [|apply IH].
  unfold ordered; simpl. pose proof (len_nonneg part). lia.
Qed.

End Tier2Facts.

(** ** The fuel of the fallback splitter is never the limit *)

Section FuelFacts.
Import Py Chunking.

(** The character loop ends within [len(text) - i] rounds. *)
Lemma char_split_fuel fuel1 fuel2 chunk_size step text off i :
  1 <= step -> 0 <= i ->
  len text - i <= Z.of_nat fuel1 -> len text - i <= Z.of_nat fuel2 ->
  char_split fuel1 chunk_size step text off i
  = char_split fuel2 chunk_size step text off i.
Proof.
  intros Hstep. revert fuel2 i.
  induction fuel1 as [|fuel1 IH]; intros fuel2 i Hi H1 H2.
  - destruct fuel2; simpl; [reflexivity|].
    destruct (i <? len text) eqn:Ei; [lia|reflexivity].
  - destruct fuel2; simpl.
    + destruct (i <? len text) eqn:Ei; [lia|reflexivity].
    + destruct (i <? len text) eqn:Ei; [|reflexivity].
      destruct (_ >=? _); [reflexivity|]. f_equal. apply IH; lia.
Qed.

Lemma merge_pieces_ext rec1 rec2 chunk_size chunk_overlap text off pieces cs ce :
  (forall t o, rec1 t o = rec2 t o) ->
  merge_pieces rec1 chunk_size chunk_overlap text off pieces cs ce
  = merge_pieces rec2 chunk_size chunk_overlap text off pieces cs ce.
Proof.
  intros Hrec. revert cs ce.
  induction pieces as [|[p_start p_end] rest IH]; intros cs ce; simpl; [reflexivity|].
  destruct (_ <=? _); [apply IH|].
  destruct (_ <=? _); [now rewrite IH|]. now rewrite Hrec, IH.
Qed.

Lemma slice_from_shorter {A} (l : list A) k :
  1 <= k -> l <> [] -> (length (slice_from l k) < length l)%nat.
Proof.
  intros Hk Hne. unfold slice_from, norm_index.
  destruct (k <? 0) eqn:E; [lia|]. rewrite length_skipn.
  assert (1 <= len l) by (unfold len; destruct l; [congruence|simpl; lia]).
  unfold len in *. lia.
Qed.

Lemma index_of_nonneg sep seps : 0 <= index_of sep seps.
Proof. induction seps as [|s seps IH]; simpl; [lia|]. destruct (str_eqb s sep); lia. Qed.

(** With [len(seps) + 2] units of fuel the recursion never runs dry: any
    larger amount gives the same spans. *)
Lemma split_recursive_fuel n :
  forall seps fuel1 fuel2 chunk_size chunk_overlap text off,
    (length seps <= n)%nat -> (n + 2 <= fuel1)%nat -> (n + 2 <= fuel2)%nat ->
    split_recursive fuel1 chunk_size chunk_overlap text off seps
    = split_recursive fuel2 chunk_size chunk_overlap text off seps.
Proof.
  induction n as [|n IH]; intros seps fuel1 fuel2 cs co text off Hlen H1 H2;
    (destruct fuel1 as [|fuel1]; [lia|]); (destruct fuel2 as [|fuel2]; [lia|]);
    simpl; (destruct (len text <=? cs) eqn:Elen; [reflexivity|]).
  - destruct seps; [|simpl in Hlen; lia].
    destruct fuel1 as [|fuel1]; [lia|]. destruct fuel2 as [|fuel2]; [lia|].
    simpl. rewrite Elen. reflexivity.
  - assert (Hlast : split_recursive fuel1 cs co text off [[]]
                    = split_recursive fuel2 cs co text off [[]]).
    { destruct fuel1 as [|fuel1]; [lia|]. destruct fuel2 as [|fuel2]; [lia|].
      simpl. rewrite Elen. reflexivity. }
    assert (Hne : forall rest, rest <> [] -> incl rest seps -> seps <> []).
    { intros rest Hr Hin ->. destruct rest as [|x rest]; [congruence|].
      now apply (Hin x); left. }
    assert (Hsuffix : incl seps seps) by apply incl_refl.
    revert Hsuffix. generalize seps at 1 5 8 as rest.
    induction rest as [|sep rest IHrest]; intros Hin; [exact Hlast|].
    destruct (negb (truthy sep)); [reflexivity|].
    destruct (contains sep text).
    + apply merge_pieces_ext. intros t o. apply IH; try lia.
      pose proof (slice_from_shorter seps (index_of sep seps + 1)) as Hs.
      pose proof (index_of_nonneg sep seps).
      specialize (Hs ltac:(lia) (Hne (sep :: rest) ltac:(discriminate) Hin)). lia.
    + apply IHrest. intros x Hx. apply Hin. now right.
Qed.

End FuelFacts.

Section NewlineFacts.
Import Py Chunking.

Lemma newline_positions_from_sorted (text : str) (k : nat) :
  StronglySorted Z.lt
    (List.map fst (List.filter (fun p : Z * char => (snd p =? 10)%N)
       (combine (List.map Z.of_nat (seq k (length text))) text)))
  /\ Forall (fun i => Z.of_nat k <= i)
       (List.map fst (List.filter (fun p : Z * char => (snd p =? 10)%N)
          (combine (List.map Z.of_nat (seq k (length text))) text))).
Proof.
  revert k. induction text as [|ch text IH]; intros k; simpl.
  - split; constructor.
  - destruct (IH (S k)) as [Hs Hall].
    assert (Hall' : Forall (fun i => Z.of_nat k < i)
              (List.map fst (List.filter (fun p : Z * char => (snd p =? 10)%N)
                 (combine (List.map Z.of_nat (seq (S k) (length text))) text)))).
    { eapply List.Forall_impl; [|exact Hall]. simpl. intros; lia. }
    destruct (ch =? 10)%N; simpl.
    + split; constructor; try assumption; [lia|].
      eapply List.Forall_impl; [|exact Hall']. simpl. intros; lia.
    + split; [exact Hs|].
      eapply List.Forall_impl; [|exact Hall']. simpl. intros; lia.
Qed.

(** The newline positions ascend, so [_line_number_at] is, as its comment
    says, the count of newlines strictly before the index, plus 1. *)
Lemma StronglySorted_lt_le (l : list Z) : StronglySorted Z.lt l -> StronglySorted Z.le l.
Proof.
  induction 1 as [|x l Hs IH Hall]; constructor; [exact IH|].
  eapply List.Forall_impl; [|exact Hall]. simpl. intros; lia.
Qed.

Lemma newline_positions_sorted text : Sorted Z.le (newline_positions_of text).
Proof.
  apply StronglySorted_Sorted, StronglySorted_lt_le.
  exact (proj1 (newline_positions_from_sorted text 0)).
Qed.

End NewlineFacts.

(** ** Chunks: content and line numbers *)

Section ChunkFacts.
Import Py Chunking Notions.

Lemma line_of_pos nl idx : 1 <= line_of nl idx.
Proof.
  unfold line_of, _line_number_at. destruct (truthy nl); [|lia].
  pose proof (bisect_left_nonneg nl idx). lia.
Qed.

Lemma line_of_mono nl s e : s <= e -> line_of nl s <= line_of nl e.
Proof.
  intros H. unfold line_of, _line_number_at. destruct (truthy nl); [|lia].
  pose proof (bisect_left_mono nl s e H). lia.
Qed.

Lemma truthy_nonempty {A} (l : list A) : truthy l = true <-> l <> [].
Proof. destruct l; simpl; split; congruence. Qed.

Lemma chunk_of_span_sound p text nl ty spl idx s e c :
  chunk_of_span p text nl ty spl idx s e = Some c ->
  s <= e \/ (0 <= s /\ 0 <= e) ->
  content c <> [] /\ strip (content c) = content c
  /\ 1 <= start_line c /\ start_line c <= end_line c.
Proof.
  unfold chunk_of_span. intros H Hse.
  destruct (truthy (strip (slice text s e))) eqn:Et; simpl in H; [|discriminate].
  injection H as <-. simpl.
  apply truthy_nonempty in Et.
  repeat split.
  - exact Et.
  - apply strip_idem.
  - apply line_of_pos.
  - apply line_of_mono. destruct Hse as [|[Hs He]]; [assumption|].
    apply Z.lt_le_incl. apply (slice_nonempty_ordered text); try assumption.
    now apply strip_nonempty.
Qed.

Lemma keep_some_In {A} (x : A) l : In x (keep_some l) <-> In (Some x) l.
Proof.
  induction l as [|[y|] l IH]; simpl.
  - tauto.
  - rewrite IH. split; intros [H|H]; auto; left; congruence.
  - rewrite IH. split; [auto|intros [H|H]; [discriminate|assumption]].
Qed.

Lemma recursive_chunks_sound p text nl spans c :
  Forall ordered spans -> In c (recursive_chunks p text nl spans) ->
  content c <> [] /\ strip (content c) = content c
  /\ 1 <= start_line c /\ start_line c <= end_line c.
Proof.
  intros Hord Hin. unfold recursive_chunks in Hin.
  apply keep_some_In, in_map_iff in Hin as ([idx [s e]] & Hc & Hin).
  apply (chunk_of_span_sound _ _ _ _ _ _ _ _ _ Hc). left.
  unfold enumerate in Hin. apply in_combine_r in Hin.
  rewrite List.Forall_forall in Hord. exact (Hord _ Hin).
Qed.

Lemma tree_sitter_chunks_sound p text nl spans c :
  Forall (fun sp => 0 <= ts_start sp /\ 0 <= ts_end sp) spans ->
  In c (tree_sitter_chunks p text nl spans) ->
  content c <> [] /\ strip (content c) = content c
  /\ 1 <= start_line c /\ start_line c <= end_line c.
Proof.
  intros Hpos Hin. unfold tree_sitter_chunks in Hin.
  apply keep_some_In, in_map_iff in Hin as ([idx [[s e] ty]] & Hc & Hin).
  apply (chunk_of_span_sound _ _ _ _ _ _ _ _ _ Hc). right.
  unfold enumerate in Hin. apply in_combine_r in Hin.
  rewrite List.Forall_forall in Hpos. exact (Hpos _ Hin).
Qed.

End ChunkFacts.

Section ChunkClaims.
Import Py Chunking Notions.

(** C6.  Every chunk the chunking engine produces, on any path and text
    and whichever tier applies, has content that is non-empty and already
    trimmed (so it is never empty or white space only), and 1-based line
    numbers with [start_line <= end_line].  The target size is positive,
    as the engine's configuration requires. *)
Theorem chunks_nonempty_and_line_ordered
    (p : str) (file_ext : string) (text : str) (chunk_chars chunk_overlap : Z)
    (parser : option (option node)) (lc : langchain_outcome)
    (chunks : list chunk) (c : chunk) :
  0 < chunk_chars ->
  split_text_to_code_chunks p file_ext text chunk_chars chunk_overlap parser lc
    = Some chunks ->
  In c chunks ->
  content c <> [] /\ strip (content c) = content c
  /\ 1 <= start_line c /\ start_line c <= end_line c.
Proof.
  intros Hcs Hrun Hin. unfold split_text_to_code_chunks in Hrun.
  match type of Hrun with
  | (if truthy ?t then _ else _) = _ => set (tier1 := t) in *
  end.
  assert (Htier1 : forall c', In c' tier1 ->
            content c' <> [] /\ strip (content c') = content c'
            /\ 1 <= start_line c' /\ start_line c' <= end_line c').
  { subst tier1. destruct parser as [parse|]; [|intros ? []].
    destruct (truthy (_extract_tree_sitter_chunks text parse file_ext chunk_chars));
      [|intros ? []].
    intros c'. apply tree_sitter_chunks_sound.
    apply List.Forall_forall. intros sp Hsp.
    apply extract_span_range in Hsp. lia. }
  destruct (truthy tier1).
  { injection Hrun as <-. now apply Htier1. }
  clear Htier1 tier1.
  match type of Hrun with
  | match ?sp with _ => _ end = _ => destruct sp as [spans2|] eqn:Esp; [|discriminate]
  end.
  injection Hrun as <-.
  apply recursive_chunks_sound in Hin; [exact Hin|].
  destruct (truthy spans2) eqn:Et.
  - assert (Hdocs : forall docs, Forall ordered (List.map document_span docs)).
    { intros docs. apply List.Forall_forall. intros sp Hsp.
      apply in_map_iff in Hsp as (d & <- & _).
      unfold ordered, document_span; simpl. pose proof (len_nonneg (snd d)). lia. }
    destruct lc as [|docs|before [parts|]|]; try discriminate; injection Esp as <-;
      try discriminate.
    + apply Hdocs.
    + apply Forall_ordered_app; [apply Hdocs|apply infer_spans_ordered].
  - now apply split_recursive_ordered.
Qed.

End ChunkClaims.

(** ** Embedding client *)

Section EmbedFacts.
Import Py Embedding Notions.

Lemma enumerate_cons_shift {A} (x : A) (l : list A) (k : nat) :
  combine (List.map Z.of_nat (seq k (S (length l)))) (x :: l)
  = (Z.of_nat k, x) :: combine (List.map Z.of_nat (seq (S k) (length l))) l.
Proof. reflexivity. Qed.

Lemma enumerate_from_sorted {A} (l : list A) (k : nat) :
  StronglySorted (fun a b => fst a < fst b)
    (combine (List.map Z.of_nat (seq k (length l))) l)
  /\ Forall (fun a => Z.of_nat k <= fst a)
       (combine (List.map Z.of_nat (seq k (length l))) l).
Proof.
  revert k. induction l as [|x l IH]; intros k; simpl.
  - split; constructor.
  - destruct (IH (S k)) as [Hs Hall]. split.
    + constructor; [exact Hs|].
      eapply List.Forall_impl; [|exact Hall]. simpl. intros; lia.
    + constructor; [simpl; lia|].
      eapply List.Forall_impl; [|exact Hall]. simpl. intros; lia.
Qed.

Lemma enumerate_snd {A} (l : list A) : List.map snd (enumerate l) = l.
Proof.
  unfold enumerate. generalize 0%nat.
  induction l as [|x l IH]; intros k; simpl; [reflexivity|]. now rewrite IH.
Qed.

(** A list sorted by key and a permutation of it with strictly ascending
    keys are the same list. *)
Lemma sorted_perm_unique {A} (key : A -> Z) (l1 l2 : list A) :
  Permutation l1 l2 ->
  StronglySorted (fun a b => (key a <=? key b) = true) l1 ->
  StronglySorted (fun a b => key a < key b) l2 ->
  l1 = l2.
Proof.
  revert l2. induction l1 as [|a l1 IH]; intros l2 Hp H1 H2.
  - apply Permutation_nil in Hp. now subst.
  - destruct l2 as [|b l2].
    { symmetry in Hp. now apply Permutation_nil in Hp. }
    inversion H1 as [|? ? H1' Ha]; subst. inversion H2 as [|? ? H2' Hb]; subst.
    assert (a = b) as ->.
    { assert (Ia : In a (b :: l2)) by (eapply Permutation_in; [exact Hp|now left]).
      assert (Ib : In b (a :: l1))
        by (eapply Permutation_in; [symmetry; exact Hp|now left]).
      destruct Ia as [->|Ia]; [reflexivity|].
      destruct Ib as [->|Ib]; [reflexivity|].
      rewrite List.Forall_forall in Ha, Hb.
      specialize (Ha _ Ib). specialize (Hb _ Ia). simpl in *. lia. }
    f_equal. apply IH; [now apply Permutation_cons_inv in Hp|assumption|assumption].
Qed.

(** Sorting an unordered, position-labelled reply restores the order of
    the batch. *)
Lemma sorted_reply_restores_order (vs : list vector) (data : list datum) :
  Permutation data (enumerate vs) ->
  List.map snd (sorted_by fst data) = vs.
Proof.
  intros Hp.
  rewrite (sorted_perm_unique fst (sorted_by fst data) (enumerate vs)).
  - apply enumerate_snd.
  - etransitivity; [apply sorted_with_perm|exact Hp].
  - apply sorted_with_sorted.
    + intros x y H. apply Z.leb_gt in H. apply Z.leb_le. lia.
    + intros x y z H1 H2. apply Z.leb_le in H1, H2. apply Z.leb_le. lia.
  - apply enumerate_from_sorted.
Qed.

Lemma embed_batch_never_hangs P bo left attempt batch e :
  snd (embed_batch P bo left attempt batch e) <> Hang.
Proof.
  revert attempt e. induction left as [|left IH]; intros attempt e; simpl;
    destruct (P (calls e) batch); simpl; try discriminate. apply IH.
Qed.

Lemma embed_batch_ok E P bo left attempt batch e e' vs :
  faithful E P ->
  embed_batch P bo left attempt batch e = (e', Ok vs) ->
  vs = List.map E batch.
Proof.
  intros HP. revert attempt e. induction left as [|left IH]; intros attempt e; simpl;
    destruct (P (calls e) batch) as [data|err] eqn:EP; intros H;
    try (injection H as _ <-; now apply sorted_reply_restores_order, (HP _ _ _ EP));
    try discriminate.
  now apply IH in H.
Qed.

Lemma embed_batch_replies P bo left attempt batch e :
  always_replies P ->
  exists vs, embed_batch P bo left attempt batch e = (request e, Ok vs).
Proof.
  intros HP. destruct (HP (calls e) batch) as [data EP].
  destruct left; simpl; rewrite EP; eauto.
Qed.

(** A batch whose every request fails: [left + 1] requests are made,
    [left] sleeps are taken, and the last exception is raised. *)
Lemma embed_batch_exhausted P bo batch left attempt e :
  (forall j, (j <= left)%nat -> exists err, P (calls e + j)%nat batch = Fails err) ->
  exists err,
    embed_batch P bo left attempt batch e
    = ({| clients := clients e;
          calls := (calls e + left + 1)%nat;
          slept := slept e
                   ++ List.map (fun j => sleep_s bo (attempt + Z.of_nat j)) (seq 1 left) |},
       Raise err).
Proof.
  revert attempt e. induction left as [|left IH]; intros attempt e Hfail.
  - destruct (Hfail 0%nat ltac:(lia)) as [err Herr].
    rewrite Nat.add_0_r in Herr. exists err. simpl. rewrite Herr.
    unfold request. simpl. rewrite app_nil_r. do 2 f_equal. lia.
  - destruct (Hfail 0%nat ltac:(lia)) as [err0 Herr0].
    rewrite Nat.add_0_r in Herr0. simpl embed_batch. rewrite Herr0.
    destruct (IH (attempt + 1) (sleep (sleep_s bo (attempt + 1)) (request e)))
      as [err Herr].
    { intros j Hj. destruct (Hfail (S j) ltac:(lia)) as [err' H']. exists err'.
      simpl. rewrite <- H'. f_equal. lia. }
    exists err. rewrite Herr. simpl. f_equal. f_equal; [lia|].
    rewrite <- app_assoc. f_equal. simpl. f_equal.
    rewrite <- (seq_shift left 1), List.map_map. apply List.map_ext. intros j. f_equal. lia.
Qed.

(** A batch that fails [j <= left] times and is then answered: [j] sleeps
    are taken and the sorted reply is returned. *)
Lemma embed_batch_recovers P bo batch j left attempt e data :
  (j <= left)%nat ->
  (forall i, (i < j)%nat -> exists err, P (calls e + i)%nat batch = Fails err) ->
  P (calls e + j)%nat batch = Data data ->
  embed_batch P bo left attempt batch e
  = ({| clients := clients e;
        calls := (calls e + j + 1)%nat;
        slept := slept e
                 ++ List.map (fun i => sleep_s bo (attempt + Z.of_nat i)) (seq 1 j) |},
     Ok (List.map snd (sorted_by fst data))).
Proof.
  revert left attempt e. induction j as [|j IH]; intros left attempt e Hj Hfail Hok.
  - rewrite Nat.add_0_r in Hok.
    destruct left; simpl; rewrite Hok; unfold request; simpl;
      rewrite app_nil_r; do 2 f_equal; lia.
  - destruct left as [|left]; [lia|].
    destruct (Hfail 0%nat ltac:(lia)) as [err0 Herr0].
    rewrite Nat.add_0_r in Herr0. simpl embed_batch. rewrite Herr0.
    rewrite (IH left (attempt + 1) (sleep (sleep_s bo (attempt + 1)) (request e)));
      [|lia| |].
    + simpl. f_equal. f_equal; [lia|].
      rewrite <- app_assoc. f_equal. simpl. f_equal.
      rewrite <- (seq_shift j 1), List.map_map. apply List.map_ext. intros i. f_equal. lia.
    + intros i Hi. destruct (Hfail (S i) ltac:(lia)) as [err' H']. exists err'.
      simpl. rewrite <- H'. f_equal. lia.
    + simpl. rewrite <- Hok. f_equal. lia.
Qed.

(** Requests and sleeps leave the number of clients alone, and every
    batch costs at least one request. *)
Lemma embed_batch_world P bo left attempt batch e :
  clients (fst (embed_batch P bo left attempt batch e)) = clients e
  /\ (calls e < calls (fst (embed_batch P bo left attempt batch e)))%nat.
Proof.
  revert attempt e. induction left as [|left IH]; intros attempt e; simpl;
    destruct (P (calls e) batch); simpl; try (split; [reflexivity|lia]).
  destruct (IH (attempt + 1) (sleep (sleep_s bo (attempt + 1)) (request e))) as [Hc Hn].
  simpl in Hc, Hn. split; [exact Hc|lia].
Qed.

Lemma embed_loop_world P bs mr bo texts fuel i out e :
  clients (fst (embed_loop P bs mr bo texts (S fuel) i out e)) = clients e
  /\ (i < len texts ->
      (calls e < calls (fst (embed_loop P bs mr bo texts (S fuel) i out e)))%nat).
Proof.
  assert (Hany : forall fuel i out e,
            clients (fst (embed_loop P bs mr bo texts fuel i out e)) = clients e
            /\ (calls e <= calls (fst (embed_loop P bs mr bo texts fuel i out e)))%nat).
  { clear. intros fuel. induction fuel as [|fuel IH]; intros i out e; simpl;
      destruct (i <? len texts); simpl; try (split; [reflexivity|lia]).
    pose proof (embed_batch_world P bo (Z.to_nat mr) 0 (slice texts i (i + bs)) e)
      as [Hc Hn].
    destruct (embed_batch P bo (Z.to_nat mr) 0 (slice texts i (i + bs)) e)
      as [e' [vs|err|]]; simpl in *; try (split; [assumption|lia]).
    destruct (IH (i + bs) (out ++ vs) e') as [Hc' Hn']. split; [congruence|lia]. }
  simpl. destruct (i <? len texts) eqn:Ei; simpl; [|split; [reflexivity|lia]].
  pose proof (embed_batch_world P bo (Z.to_nat mr) 0 (slice texts i (i + bs)) e)
    as [Hc Hn].
  destruct (embed_batch P bo (Z.to_nat mr) 0 (slice texts i (i + bs)) e)
    as [e' [vs|err|]]; simpl in *; try (split; [assumption|intros _; lia]).
  destruct (Hany fuel (i + bs) (out ++ vs) e') as [Hc' Hn'].
  split; [congruence|intros _; lia].
Qed.

Lemma slice_step {A} (texts : list A) i bs :
  0 <= i -> 1 <= bs ->
  skipn (Z.to_nat i) texts = slice texts i (i + bs) ++ skipn (Z.to_nat (i + bs)) texts.
Proof.
  intros Hi Hbs. unfold slice, norm_index.
  destruct (i <? 0) eqn:E1; [lia|]. destruct (i + bs <? 0) eqn:E2; [lia|].
  set (n := len texts).
  destruct (Z_lt_le_dec i n) as [Hlt|Hge].
  - replace (Z.min i n) with i by lia.
    rewrite <- (firstn_skipn (Z.to_nat (Z.min (i + bs) n - i)) (skipn (Z.to_nat i) texts)) at 1.
    f_equal. rewrite skipn_skipn.
    destruct (Z_lt_le_dec (i + bs) n).
    + f_equal. lia.
    + rewrite !skipn_all2; [reflexivity| |]; unfold n, len in *; lia.
  - rewrite !skipn_all2; [|unfold n, len in *; lia..].
    now rewrite firstn_nil.
Qed.

Lemma embed_loop_spec E P bs mr bo texts fuel i out e :
  1 <= bs -> 0 <= i -> len texts - i <= Z.of_nat fuel -> faithful E P ->
  snd (embed_loop P bs mr bo texts fuel i out e) <> Hang
  /\ (forall r, snd (embed_loop P bs mr bo texts fuel i out e) = Ok r ->
        r = out ++ List.map E (skipn (Z.to_nat i) texts))
  /\ (always_replies P ->
        exists r, snd (embed_loop P bs mr bo texts fuel i out e) = Ok r).
Proof.
  intros Hbs Hi Hfuel HP. revert i out e Hi Hfuel.
  induction fuel as [|fuel IH]; intros i out e Hi Hfuel.
  - simpl. destruct (i <? len texts) eqn:Ei; [lia|]. simpl.
    repeat split; [discriminate| |eauto].
    intros r [= <-]. rewrite skipn_all2 by (unfold len in *; lia).
    simpl. now rewrite app_nil_r.
  - simpl. destruct (i <? len texts) eqn:Ei.
    + destruct (embed_batch P bo (Z.to_nat mr) 0 (slice texts i (i + bs)) e)
        as [e' [vs|err|]] eqn:EB.
      * apply (embed_batch_ok E) in EB as ->; [|assumption].
        destruct (IH (i + bs) (out ++ List.map E (slice texts i (i + bs))) e')
          as (H1 & H2 & H3); [lia|lia|].
        repeat split; [exact H1| |exact H3].
        intros r Hr. rewrite (H2 r Hr), <- app_assoc, <- List.map_app.
        now rewrite <- slice_step.
      * simpl. repeat split; [discriminate|discriminate|].
        intros Hall.
        destruct (embed_batch_replies P bo (Z.to_nat mr) 0 (slice texts i (i + bs)) e Hall)
          as [vs Hvs]. congruence.
      * exfalso. eapply embed_batch_never_hangs. rewrite EB. reflexivity.
    + simpl. repeat split; [discriminate| |eauto].
      intros r [= <-]. rewrite skipn_all2 by (unfold len in *; lia).
      simpl. now rewrite app_nil_r.
Qed.

Lemma embed_preserves_input_order_aux
    (E : str -> vector) (P : provider) (texts : list str)
    (batch_size max_retries : Z) (retry_backoff_sec : Q) (e : env) :
  texts <> [] -> 1 <= batch_size -> faithful E P ->
  snd (embed_texts_openai P texts batch_size max_retries retry_backoff_sec e) <> Hang
  /\ (forall out,
        snd (embed_texts_openai P texts batch_size max_retries retry_backoff_sec e)
        = Ok out ->
        length out = length texts
        /\ forall i t, nth_error texts i = Some t -> nth_error out i = Some (E t))
  /\ (always_replies P ->
        exists out,
          snd (embed_texts_openai P texts batch_size max_retries retry_backoff_sec e)
          = Ok out).
Proof.
  intros Hne Hbs HP. unfold embed_texts_openai.
  destruct texts as [|t0 texts']; [congruence|]. simpl negb. cbv iota.
  destruct (embed_loop_spec E P batch_size max_retries retry_backoff_sec (t0 :: texts')
              (length (t0 :: texts')) 0 [] (new_client e)) as (H1 & H2 & H3);
    [assumption|lia|unfold len; lia|assumption|].
  split; [exact H1|]. split; [|exact H3].
  intros out Hout. apply H2 in Hout.
  assert (Heq : out = List.map E (t0 :: texts')) by exact Hout.
  clear Hout. subst out. split.
  - apply List.length_map.
  - intros i t Ht. rewrite nth_error_map, Ht. reflexivity.
Qed.

End EmbedFacts.

Section EmbedClaims.
Import Py Embedding Notions.

(** C4.  For every non-empty input list and every provider that labels
    its (possibly unordered) results by position, [Embed] does not loop
    for ever, and whenever it returns, the result has the length of the
    input and its i-th element is the embedding of [texts[i]]; with a
    provider that never raises it does return. *)
Theorem embed_preserves_input_order
    (E : str -> vector) (P : provider) (texts : list str)
    (batch_size max_retries : Z) (retry_backoff_sec : Q) (e : env) :
  texts <> [] -> 1 <= batch_size -> faithful E P ->
  snd (embed_texts_openai P texts batch_size max_retries retry_backoff_sec e) <> Hang
  /\ (forall out,
        snd (embed_texts_openai P texts batch_size max_retries retry_backoff_sec e)
        = Ok out ->
        length out = length texts
        /\ forall i t, nth_error texts i = Some t -> nth_error out i = Some (E t))
  /\ (always_replies P ->
        exists out,
          snd (embed_texts_openai P texts batch_size max_retries retry_backoff_sec e)
          = Ok out).
Proof. apply embed_preserves_input_order_aux. Qed.

(** C10.  [Embed] of the empty list returns the empty list at once: no
    client is constructed and no request is made (the world is left as it
    was), whereas any non-empty input constructs a client and issues at
    least one request. *)
Theorem embed_empty_returns_immediately
    (P : provider) (batch_size max_retries : Z) (retry_backoff_sec : Q) (e : env) :
  embed_texts_openai P [] batch_size max_retries retry_backoff_sec e = (e, Ok [])
  /\ forall t texts,
       clients (fst (embed_texts_openai P (t :: texts) batch_size max_retries
                       retry_backoff_sec e)) = S (clients e)
       /\ (calls e < calls (fst (embed_texts_openai P (t :: texts) batch_size max_retries
                                   retry_backoff_sec e)))%nat.
Proof.
  split; [reflexivity|]. intros t texts. unfold embed_texts_openai.
  simpl negb. cbv iota.
  pose proof (embed_loop_world P batch_size max_retries retry_backoff_sec (t :: texts)
                (length texts) 0 [] (new_client e)) as [Hc Hn].
  simpl length. split; [exact Hc|]. apply Hn. unfold len. simpl length. lia.
Qed.

End EmbedClaims.

Section RetryClaims.
Import Py Embedding Notions.

Lemma sleep_s_step bo a :
  1 <= a ->
  (sleep_s bo (a + 1) - sleep_s bo a == bo * 2 ^ (a - 1) + (1 # 10))%Q.
Proof.
  intros Ha. unfold sleep_s.
  replace (a + 1 - 1) with (1 + (a - 1)) by lia.
  rewrite Qpower_plus by discriminate.
  rewrite inject_Z_plus. change (2 ^ 1)%Q with 2%Q. change (inject_Z 1) with 1%Q.
  ring.
Qed.

(** With a non-negative base delay, each retry waits longer than the one
    before. *)
Lemma sleep_s_increasing bo a :
  (0 <= bo)%Q -> 1 <= a -> (sleep_s bo a < sleep_s bo (a + 1))%Q.
Proof.
  intros Hbo Ha.
  assert (H : (0 < sleep_s bo (a + 1) - sleep_s bo a)%Q).
  { rewrite sleep_s_step by assumption.
    assert (0 <= 2 ^ (a - 1))%Q by (apply Qpower_pos; discriminate).
    assert (0 <= bo * 2 ^ (a - 1))%Q by (apply Qmult_le_0_compat; assumption).
    apply Qlt_le_trans with (1 # 10)%Q; [reflexivity|].
    rewrite <- (Qplus_0_l (1 # 10)) at 1. apply Qplus_le_l. assumption. }
  apply (Qplus_lt_l _ _ (- sleep_s bo a)). rewrite Qplus_opp_r. exact H.
Qed.

Lemma exhausted_retries_abort_aux
    (P : provider) (batch_size max_retries : Z) (retry_backoff_sec : Q)
    (texts : list str) (fuel : nat) (i : Z) (out : list vector) (e : env) :
  0 <= i < len texts ->
  (forall j, (j <= Z.to_nat max_retries)%nat ->
     exists err, P (calls e + j)%nat (slice texts i (i + batch_size)) = Fails err) ->
  exists err,
    embed_loop P batch_size max_retries retry_backoff_sec texts (S fuel) i out e
    = ({| clients := clients e;
          calls := (calls e + Z.to_nat max_retries + 1)%nat;
          slept := slept e
                   ++ List.map (fun j => sleep_s retry_backoff_sec (Z.of_nat j))
                        (seq 1 (Z.to_nat max_retries)) |},
       Raise err).
Proof.
  intros Hi Hfail.
  destruct (embed_batch_exhausted P retry_backoff_sec (slice texts i (i + batch_size))
              (Z.to_nat max_retries) 0 e Hfail) as [err Herr].
  exists err. simpl. destruct (i <? len texts) eqn:Ei; [|lia].
  rewrite Herr. reflexivity.
Qed.


(** With a provider that is down, [Embed] of a non-empty list raises
    after [max_retries + 1] requests. *)
Lemma embed_provider_down P texts batch_size max_retries bo e :
  texts <> [] ->
  (forall n batch, exists err, P n batch = Fails err) ->
  exists e' err,
    embed_texts_openai P texts batch_size max_retries bo e = (e', Raise err)
    /\ calls e' = (calls e + Z.to_nat max_retries + 1)%nat.
Proof.
  intros Hne Hdown. unfold embed_texts_openai.
  destruct texts as [|t texts]; [congruence|]. simpl negb. cbv iota.
  destruct (exhausted_retries_abort_aux P batch_size max_retries bo (t :: texts)
              (length texts) 0 [] (new_client e)) as [err Herr].
  - unfold len. simpl length. lia.
  - intros j _. apply Hdown.
  - eexists _, err. split; [exact Herr|reflexivity].
Qed.

End RetryClaims.

(** ** Search *)

Section SearchFacts.
Import Py Embedding Store Notions.

Lemma embed_loop_never_hangs P bs mr bo texts fuel i out e :
  1 <= bs -> 0 <= i -> len texts - i <= Z.of_nat fuel ->
  snd (embed_loop P bs mr bo texts fuel i out e) <> Hang.
Proof.
  intros Hbs. revert i out e.
  induction fuel as [|fuel IH]; intros i out e Hi Hfuel; simpl;
    destruct (i <? len texts) eqn:Ei; try discriminate; try lia.
  destruct (embed_batch P bo (Z.to_nat mr) 0 (slice texts i (i + bs)) e)
    as [e' [vs|err|]] eqn:EB; try discriminate.
  - apply IH; lia.
  - exfalso. eapply embed_batch_never_hangs. rewrite EB. reflexivity.
Qed.

Lemma embed_never_hangs P texts bs mr bo e :
  1 <= bs -> snd (embed_texts_openai P texts bs mr bo e) <> Hang.
Proof.
  intros Hbs. unfold embed_texts_openai. destruct (negb (truthy texts)); [discriminate|].
  apply embed_loop_never_hangs; [assumption|lia|unfold len; lia].
Qed.

Lemma Qle_bool_total x y : Qle_bool x y = false -> Qle_bool y x = true.
Proof.
  intros H. apply Qle_bool_iff. apply Qlt_le_weak, Qnot_le_lt.
  intros Hle. apply Qle_bool_iff in Hle. congruence.
Qed.

Lemma Qle_bool_trans x y z :
  Qle_bool x y = true -> Qle_bool y z = true -> Qle_bool x z = true.
Proof. rewrite !Qle_bool_iff. apply Qle_trans. Qed.




Lemma vector_search_never_hangs P E distance pid query k prefix w :
  snd (vector_search_project P E distance pid query k prefix w) <> Hang.
Proof.
  unfold vector_search_project.
  pose proof (embed_never_hangs P [query] 1 default_max_retries
                default_retry_backoff_sec (net w) ltac:(lia)) as Hh.
  destruct (embed_texts_openai _ _ _ _ _ _) as [e [[|qvec vs]|err|]]; simpl in *;
    try discriminate; [|congruence].
  destruct (schema_fails E || tx_failed _); [discriminate|].
  destruct (k <? 0); discriminate.
Qed.

Lemma vector_search_succeeds Emb P E distance pid query k prefix w :
  0 <= k -> faithful Emb P -> always_replies P -> schema_fails E = false ->
  tx_failed (db w) = false ->
  exists rows, snd (vector_search_project P E distance pid query k prefix w) = Ok rows.
Proof.
  intros Hk HP Hall Hschema Htx. unfold vector_search_project.
  destruct (embed_preserves_input_order_aux Emb P [query] 1 default_max_retries
              default_retry_backoff_sec (net w)) as (_ & H2 & H3);
    [discriminate|lia|assumption|].
  destruct (H3 Hall) as [out Hout]. pose proof (H2 out Hout) as [Hlen _].
  destruct (embed_texts_openai _ _ _ _ _ _) as [e r]. simpl in Hout. subst r.
  destruct out as [|qvec vs]; [discriminate|].
  rewrite Hschema, Htx. simpl orb. cbv iota. destruct (k <? 0) eqn:Ek; [lia|]. simpl. eauto.
Qed.

Lemma In_firstn {A} (x : A) n l : In x (firstn n l) -> In x l.
Proof. intros H. rewrite <- (firstn_skipn n l). apply in_or_app. now left. Qed.

Lemma embed_faithful_result Emb P texts bs mr bo e out :
  1 <= bs -> faithful Emb P ->
  snd (embed_texts_openai P texts bs mr bo e) = Ok out ->
  out = List.map Emb texts.
Proof.
  intros Hbs Hf. unfold embed_texts_openai.
  destruct texts as [|t ts] eqn:Et; simpl negb; cbv iota.
  - simpl. now intros [= <-].
  - rewrite <- Et. intros H.
    destruct (embed_loop_spec Emb P bs mr bo texts (length texts) 0 [] (new_client e)
                Hbs ltac:(lia) ltac:(unfold len; lia) Hf) as (_ & Hr & _).
    apply Hr in H. now rewrite H.
Qed.

Lemma StronglySorted_app_cross {A} (R : A -> A -> Prop) (l1 l2 : list A) x y :
  StronglySorted R (l1 ++ l2) -> In x l1 -> In y l2 -> R x y.
Proof.
  induction l1 as [|a l1 IH]; simpl; [tauto|].
  intros Hs [<-|Hx] Hy; inversion Hs as [|? ? Hs' Hall]; subst.
  - rewrite List.Forall_forall in Hall. apply Hall, in_or_app. now right.
  - now apply IH.
Qed.

Lemma filter_and_length {A} (f g : A -> bool) (l : list A) :
  (length (List.filter (fun x => f x && g x) l) <= length (List.filter f l))%nat.
Proof.
  induction l as [|x l IH]; simpl; [lia|].
  destruct (f x), (g x); simpl; lia.
Qed.

(** What a successful search returns, in terms of the rows it read. *)
Lemma vector_search_shape P E distance pid query k prefix w rows :
  snd (vector_search_project P E distance pid query k prefix w) = Ok rows ->
  exists qvec e matching,
    snd (embed_texts_openai P [query] 1 default_max_retries default_retry_backoff_sec
           (net w)) = Ok (qvec :: e)
    /\ 0 <= k
    /\ db (fst (vector_search_project P E distance pid query k prefix w)) = db w
    /\ (forall r, In r matching ->
          In r (chunks_of pid (pending (db w))))
    /\ (length matching <= length (chunks_of pid (pending (db w))))%nat
    /\ (prefix = None -> matching = chunks_of pid (pending (db w)))
    /\ rows
       = List.map (fun r => {| cr_path := row_path r;
                               cr_start_line := row_start_line r;
                               cr_end_line := row_end_line r;
                               cr_content := row_content r;
                               score := distance (embedding r) qvec |})
           (firstn (Z.to_nat k)
              (sorted_with (fun a b => Qle_bool (distance (embedding a) qvec)
                                                (distance (embedding b) qvec)) matching)).
Proof.
  unfold vector_search_project.
  destruct (embed_texts_openai P [query] 1 default_max_retries default_retry_backoff_sec
              (net w)) as [e [[|qvec vs]|err|]]; try discriminate.
  destruct (schema_fails E || tx_failed _); [discriminate|].
  destruct (k <? 0) eqn:Ek; [discriminate|].
  simpl. intros [= <-].
  eexists qvec, vs, _. split; [reflexivity|]. split; [lia|]. split; [reflexivity|].
  split; [|split; [|split; [|reflexivity]]].
  - intros r Hr. apply filter_In in Hr as [Hin Hc].
    apply andb_true_iff in Hc as [Hc _]. unfold chunks_of. apply filter_In. now split.
  - unfold chunks_of. apply filter_and_length.
  - intros ->. unfold chunks_of. apply filter_ext. intros r. apply andb_true_r.
Qed.

Lemma search_reads_only_project_rows_aux
    (P : provider) (E : store_env) (distance : vector -> vector -> Q)
    (pid : Z) (query : str) (k : Z) (path_prefix : option str) (w : world)
    (rows : list ChunkRow) :
  snd (vector_search_project P E distance pid query k path_prefix w) = Ok rows ->
  db (fst (vector_search_project P E distance pid query k path_prefix w)) = db w
  /\ Forall (fun hit =>
               exists r, In r (chunks_of pid (pending (db w)))
                         /\ project_id r = pid
                         /\ cr_path hit = row_path r
                         /\ cr_start_line hit = row_start_line r
                         /\ cr_end_line hit = row_end_line r
                         /\ cr_content hit = row_content r) rows
  /\ len rows <= Z.min k (len (chunks_of pid (pending (db w))))
  /\ (path_prefix = None ->
      len rows = Z.min k (len (chunks_of pid (pending (db w))))).
Proof.
  intros Hrun.
  destruct (vector_search_shape _ _ _ _ _ _ _ _ _ Hrun)
    as (qvec & e & matching & _ & Hk & Hdb & Hsub & Hcount & Hnone & ->).
  split; [exact Hdb|].
  set (le := fun a b => Qle_bool (distance (embedding a) qvec)
                                 (distance (embedding b) qvec)).
  split; [|split].
  - apply List.Forall_forall. intros hit Hhit.
    apply in_map_iff in Hhit as (r & <- & Hr). apply In_firstn in Hr.
    apply sorted_with_In in Hr. exists r. simpl.
    pose proof (Hsub r Hr) as Hin. split; [assumption|].
    unfold chunks_of in Hin. apply filter_In in Hin as [_ Hp].
    apply Z.eqb_eq in Hp. now repeat split.
  - unfold len. rewrite List.length_map, length_firstn, sorted_with_length. lia.
  - intros Hp. rewrite (Hnone Hp).
    unfold len. rewrite List.length_map, length_firstn, sorted_with_length. lia.
Qed.


End SearchFacts.

Section SearchClaims.
Import Py Embedding Store Notions.


End SearchClaims.

(** ** Framework scorer *)

Section FrameworkFacts.
Import Py Framework Notions.
Local Open Scope string_scope.

Lemma mem_true_iff x l : mem x l = true <-> In x l.
Proof.
  unfold mem. rewrite existsb_exists. split.
  - intros (y & Hy & Heq). apply String.eqb_eq in Heq. now subst.
  - intros H. exists x. split; [assumption|apply String.eqb_refl].
Qed.

Lemma mem_false x l : ~ In x l -> mem x l = false.
Proof.
  intros H. destruct (mem x l) eqn:E; [|reflexivity].
  apply mem_true_iff in E. contradiction.
Qed.

Lemma fold_add_zero {A} (f : A -> Z) (l : list A) (acc : Z) :
  (forall x, In x l -> f x = 0) ->
  List.fold_left (fun score x => score + f x) l acc = acc.
Proof.
  revert acc. induction l as [|x l IH]; intros acc H; simpl; [reflexivity|].
  rewrite (H x) by now left. rewrite Z.add_0_r. apply IH.
  intros y Hy. apply H. now right.
Qed.

Lemma fold_count_none {A} (test : A -> bool) (k : Z) (l : list A) (acc : Z) :
  (forall x, In x l -> test x = false) ->
  List.fold_left (fun score x => if test x then score + k else score) l acc = acc.
Proof.
  revert acc. induction l as [|x l IH]; intros acc H; simpl; [reflexivity|].
  rewrite (H x) by now left. apply IH. intros y Hy. apply H. now right.
Qed.

Lemma file_score_zero p file :
  (forall pat text, In pat (imports p ++ indicators p) -> file = Some text ->
     contains (of_string pat) text = false) ->
  file_score p file = 0.
Proof.
  intros H. destruct file as [text|]; [|reflexivity]. simpl.
  replace (existsb (fun pat => contains (of_string pat) text) (imports p)) with false.
  - rewrite fold_count_none; [reflexivity|].
    intros ind Hind. apply H; [apply in_or_app; now right|reflexivity].
  - symmetry. apply not_true_is_false. intros Hex.
    apply existsb_exists in Hex as (pat & Hpat & Hc).
    rewrite H in Hc; [discriminate|apply in_or_app; now left|reflexivity].
Qed.

Lemma code_score_zero r p :
  (forall lang fs file, In (lang, fs) (files_map r) -> In file fs -> file_score p file = 0) ->
  code_score r p = 0.
Proof.
  unfold code_score. generalize 0 at 2 3 as acc.
  induction (files_map r) as [|[lang fs] rest IH]; intros acc H; simpl; [reflexivity|].
  rewrite fold_add_zero.
  - apply IH. intros lang' fs' file Hin Hfile. apply (H lang' fs'); [now right|assumption].
  - intros file Hfile. apply (H lang fs); [now left|].
    rewrite <- (firstn_skipn 20 fs). apply in_or_app. now left.
Qed.


Lemma react_signal_facts r :
  react_is_only_signal r ->
  exists deps dev,
    root_manifest r = Manifest deps dev
    /\ mem "react" (deps ++ dev) = true
    /\ Forall (fun d => d = "react" \/ mem d (deps ++ dev) = false) designated_deps
    /\ Forall (fun f => mem f (other_names r) = false) marker_files
    /\ Forall (fun fp => code_score r (snd fp) = 0) FRAMEWORK_PATTERNS.
Proof.
  intros ((deps & dev & Hroot & Hreact & Hother) & Hnames & Hcode).
  exists deps, dev. split; [exact Hroot|]. split.
  { apply mem_true_iff, in_or_app. now left. }
  split.
  { apply List.Forall_forall. intros d Hd.
    unfold designated_deps in Hd. apply in_flat_map in Hd as ([fw p] & Hp & Hd).
    simpl in Hd. destruct (package_deps p) as [wanted|] eqn:Ew; [|destruct Hd].
    destruct (String.eqb_spec d "react") as [->|Hne]; [now left|right].
    apply mem_false. now apply (Hother fw p wanted d). }
  split.
  { apply List.Forall_forall. intros f Hf.
    unfold marker_files in Hf. apply in_flat_map in Hf as ([fw p] & Hp & Hf).
    apply mem_false. now apply (Hnames fw p f). }
  apply List.Forall_forall. intros [fw p] Hp. simpl.
  apply code_score_zero. intros lang fs file Hfs Hfile.
  apply file_score_zero. intros pat text Hpat ->.
  now apply (Hcode fw p pat lang fs text).
Qed.

Ltac split_forall H :=
  repeat (let F := fresh "F" in apply List.Forall_cons_iff in H as [F H]).

Lemma react_signal_scores r :
  react_is_only_signal r ->
  List.map (fun fp => (fst fp, framework_score r (snd fp))) FRAMEWORK_PATTERNS
  = [("fastapi", 0); ("flask", 0); ("django", 0); ("react", 7); ("nextjs", 0);
     ("vue", 0); ("angular", 0); ("express", 0); ("spring-boot", 0); ("laravel", 0)].
Proof.
  intros H. apply react_signal_facts in H
    as (deps & dev & Hroot & Hreact & Hdeps & Hnames & Hcode).
  unfold designated_deps, marker_files in *.
  cbn [FRAMEWORK_PATTERNS List.flat_map List.app files package_deps snd] in Hdeps, Hnames.
  unfold FRAMEWORK_PATTERNS in *.
  split_forall Hdeps. split_forall Hnames. split_forall Hcode.
  cbn [snd] in *.
  cbn [List.map fst snd]. unfold framework_score.
  repeat match goal with
         | H : code_score _ _ = 0 |- _ => rewrite H; clear H
         end.
  repeat match goal with
         | H : _ = "react" \/ _ |- _ =>
             destruct H as [H|H];
             [first [discriminate H|clear H]|first [congruence|idtac]]
         end.
  unfold files_score, deps_score, rglob_finds.
  cbn [files package_deps List.fold_left]. rewrite Hroot.
  repeat match goal with
         | H : mem _ _ = _ |- _ => rewrite !H; clear H
         end.
  reflexivity.
Qed.

End FrameworkFacts.

Section FrameworkClaims.
Import Py Framework Notions.
Local Open Scope string_scope.

(** C2 (as amended).  For a project whose only framework signal is a root
    [package.json] whose dependencies contain [react], the scorer gives
    react exactly 7 (2 for the marker file [package.json] itself, 5 for
    the dependency), gives every other framework 0, and detects
    [react]. *)
Theorem react_manifest_scores_seven (r : repo) :
  react_is_only_signal r ->
  score_of r "react" = 7
  /\ (forall fw, fw <> "react" -> score_of r fw = 0)
  /\ _detect_framework r = Some "react".
Proof.
  intros H.
  assert (Hscore : forall fw,
            score_of r fw
            = match Chunking.assoc_get fw
                      (List.map (fun fp => (fst fp, framework_score r (snd fp)))
                                FRAMEWORK_PATTERNS) with
              | Some z => z
              | None => 0
              end).
  { intros fw. unfold score_of.
    induction FRAMEWORK_PATTERNS as [|[fw' p] rest IH]; simpl; [reflexivity|].
    destruct (String.eqb fw fw'); [reflexivity|exact IH]. }
  pose proof (react_signal_scores r H) as Hs.
  split; [|split].
  - rewrite Hscore, Hs. reflexivity.
  - intros fw Hne. rewrite Hscore, Hs. simpl.
    repeat match goal with
           | |- context [String.eqb fw ?s] =>
               destruct (String.eqb_spec fw s); [try reflexivity; congruence|]
           end.
    reflexivity.
  - unfold _detect_framework. rewrite Hs. reflexivity.
Qed.

Lemma react_only_repo_premise : react_is_only_signal react_only_repo.
Proof.
  split; [|split].
  - exists ["react"], []. split; [reflexivity|]. split; [now left|].
    intros fw p wanted dep _ _ _ Hne [Hin|[]]. congruence.
  - intros fw p f _ _ [].
  - intros fw p pat lang fs text _ _ [].
Qed.

(** C2, the claim as stated, fails: on the smallest project of the
    premise react scores 7, not 5. *)
Lemma react_score_is_not_five :
  react_is_only_signal react_only_repo /\ score_of react_only_repo "react" <> 5.
Proof. split; [exact react_only_repo_premise|]. vm_compute. discriminate. Qed.

Lemma react_manifest_scores_seven_witness :
  score_of react_only_repo "react" = 7
  /\ (forall fw, fw <> "react" -> score_of react_only_repo fw = 0)
  /\ _detect_framework react_only_repo = Some "react".
Proof. exact (react_manifest_scores_seven react_only_repo react_only_repo_premise). Defined.

End FrameworkClaims.

(** ** Store and orchestrator *)

Section StoreFacts.
Import Py Chunking Embedding Store Notions.

Lemma db_commit_settled s :
  committed (db_commit s) = pending (db_commit s) /\ tx_failed (db_commit s) = false.
Proof. unfold db_commit, db_rollback. destruct (tx_failed s); simpl; auto. Qed.

Lemma db_commit_idem s : db_commit (db_commit s) = db_commit s.
Proof. unfold db_commit, db_rollback. destruct (tx_failed s); reflexivity. Qed.

(** Reporting progress twice commits nothing more than reporting once. *)
Lemma emit_progress_idem tracker s :
  emit_progress tracker (emit_progress tracker s) = emit_progress tracker s.
Proof. destruct tracker; simpl; [apply db_commit_idem|reflexivity]. Qed.

Lemma emit_progress_healthy tracker s :
  tx_failed s = false -> tx_failed (emit_progress tracker s) = false.
Proof. destruct tracker; simpl; [intros _; apply db_commit_settled|auto]. Qed.

(** On a healthy session, progress reports commit what is pending and
    leave the transaction's view alone. *)
Lemma emit_progress_view tracker s :
  tx_failed s = false ->
  pending (emit_progress tracker s) = pending s
  /\ committed (emit_progress tracker s) = (if tracker then pending s else committed s).
Proof.
  intros H. destruct tracker; simpl; [|auto]. unfold db_commit. rewrite H. auto.
Qed.

(** The file loop leaves a session that has just reported progress as it
    is, and what it yields does not depend on the session. *)
Lemma chunk_files_session tracker cc co files chunks n s :
  emit_progress tracker s = s ->
  fst (chunk_files tracker cc co files chunks n s) = s.
Proof.
  intros Hs. revert chunks n.
  induction files as [|fm rest IH]; intros chunks n; simpl; [reflexivity|].
  destruct (f_read fm) as [text|]; [|apply IH].
  destruct (negb (truthy (strip text))); [apply IH|].
  destruct (split_text_to_code_chunks _ _ _ _ _ _ _); [|reflexivity].
  rewrite Hs. apply IH.
Qed.


Lemma chunk_files_never_hangs tracker cc co files chunks n s :
  snd (chunk_files tracker cc co files chunks n s) <> Hang.
Proof.
  revert chunks n s.
  induction files as [|fm rest IH]; intros chunks n s; simpl; [discriminate|].
  destruct (f_read fm) as [text|]; [|apply IH].
  destruct (negb (truthy (strip text))); [apply IH|].
  destruct (split_text_to_code_chunks _ _ _ _ _ _ _); [apply IH|discriminate].
Qed.

(** How the paged insert leaves the session. *)
Lemma execute_values_cases result rows s :
  match execute_values result rows s with
  | (s', Ok _) => s' = write (insert_rows rows) s
  | (s', Raise _) =>
      exists page,
        (page * page_size < length rows)%nat
        /\ ((result = ClientError page
             /\ s' = write (insert_rows (firstn (page * page_size) rows)) s)
            \/ (result = ServerError page
                /\ s' = fail_statement
                          (write (insert_rows (firstn (page * page_size) rows)) s)))
  | (_, Hang) => False
  end.
Proof.
  destruct result as [|page|page]; simpl; [reflexivity| |];
    (destruct (page * page_size <? length rows)%nat eqn:E; [|reflexivity]);
    apply Nat.ltb_lt in E; exists page; (split; [exact E|]); [left|right]; now split.
Qed.

(** How one call of [index_project_chunks_to_pgvector] leaves the
    session, by the way it ends.  [s0] is the session after the first
    progress report. *)
Lemma index_session_cases P E tracker pid files cc co mf w :
  let s0 := emit_progress tracker (db w) in
  match snd (index_project_chunks_to_pgvector P E tracker pid files cc co mf w) with
  | Ok res =>
      (chunks_written res = 0
       /\ db (fst (index_project_chunks_to_pgvector P E tracker pid files cc co mf w)) = s0)
      \/ (exists rows,
             rows <> [] /\ chunks_written res = len rows
             /\ Forall (fun r => project_id r = pid) rows
             /\ db (fst (index_project_chunks_to_pgvector P E tracker pid files cc co mf w))
                = db_commit (write (insert_rows rows) (write (delete_project_chunks pid) s0)))
  | Raise _ =>
      let s' := db (fst (index_project_chunks_to_pgvector P E tracker pid files cc co mf w)) in
      s' = s0 \/ s' = fail_statement s0
      \/ s' = write (delete_project_chunks pid) s0
      \/ (exists page rows,
             Forall (fun r => project_id r = pid) rows
             /\ (page * page_size < length rows)%nat
             /\ ((insert_result E = ClientError page
                  /\ s' = write (insert_rows (firstn (page * page_size) rows))
                            (write (delete_project_chunks pid) s0))
                 \/ (insert_result E = ServerError page
                     /\ s' = fail_statement
                               (write (insert_rows (firstn (page * page_size) rows))
                                  (write (delete_project_chunks pid) s0)))))
  | Hang => False
  end.
Proof.
  intros s0. unfold index_project_chunks_to_pgvector. fold s0.
  set (code_files := match mf with Some m => _ | None => _ end).
  pose proof (chunk_files_session tracker cc co code_files [] 0 s0
                (emit_progress_idem tracker (db w))) as Hs.
  pose proof (chunk_files_never_hangs tracker cc co code_files [] 0 s0) as Hh.
  destruct (chunk_files tracker cc co code_files [] 0 s0) as [s [[chunks n]|err|]];
    simpl in Hs, Hh; subst s; [|simpl; auto|congruence].
  destruct (negb (truthy chunks)) eqn:Echunks; [simpl; left; auto|].
  assert (Hdim : snd (embedding_dimension P E (net w)) <> Hang).
  { unfold embedding_dimension. destruct (known_dim E <=? 0); [|discriminate].
    pose proof (embed_never_hangs P [of_string "dimension probe"] 1 default_max_retries
                  default_retry_backoff_sec (net w) ltac:(lia)) as H.
    destruct (embed_texts_openai _ _ _ _ _ _) as [e' [[|v vs]|err|]]; simpl in *;
      congruence. }
  destruct (embedding_dimension P E (net w)) as [e [dim|err|]];
    [|simpl; auto|simpl in Hdim; congruence].
  destruct (schema_fails E || tx_failed _); [simpl; auto|].
  pose proof (embed_never_hangs P (List.map content chunks) default_batch_size
                default_max_retries default_retry_backoff_sec e
                ltac:(unfold default_batch_size; lia)) as Hemb.
  destruct (embed_texts_openai _ _ _ _ _ _) as [e' [vectors|err|]];
    [|simpl; auto|simpl in Hemb; congruence].
  destruct (negb (len vectors =? len chunks)) eqn:Elen; [simpl; auto|].
  assert (Hpid : Forall (fun r => project_id r = pid)
                        (List.map (row_of pid) (combine chunks vectors))).
  { apply List.Forall_forall. intros r Hr. apply in_map_iff in Hr as (cv & <- & _).
    reflexivity. }
  pose proof (execute_values_cases (insert_result E)
                (List.map (row_of pid) (combine chunks vectors))
                (write (delete_project_chunks pid) s0)) as Hins.
  destruct (execute_values (insert_result E) _ _) as [s1 [u|err|]];
    [| |contradiction].
  - subst s1. simpl. right. exists (List.map (row_of pid) (combine chunks vectors)).
    apply negb_false_iff in Echunks, Elen. apply Z.eqb_eq in Elen.
    split; [|split; [reflexivity|split; [exact Hpid|reflexivity]]].
    destruct chunks as [|c cs]; [discriminate|].
    destruct vectors as [|v vs]; [unfold len in Elen; simpl in Elen; lia|]. discriminate.
  - simpl. destruct Hins as (page & Hpage & Hcase). right. right. right.
    exists page, (List.map (row_of pid) (combine chunks vectors)).
    split; [exact Hpid|]. split; [exact Hpage|exact Hcase].
Qed.


End StoreFacts.

Section OrchestratorFacts.
Import Py Chunking Embedding Store Orchestrator Notions.

Lemma emit_progress_clean tracker s : clean s -> emit_progress tracker s = s.
Proof.
  intros [Hf Hp]. destruct tracker; simpl; [|reflexivity].
  unfold db_commit. rewrite Hf. destruct s as [c p f]. simpl in *. now subst.
Qed.

Lemma db_commit_clean s : clean (db_commit s).
Proof.
  split; [apply db_commit_settled|]. symmetry. apply db_commit_settled.
Qed.

Lemma commit_write_clean f s :
  clean s ->
  db_commit (write f s)
  = {| committed := f (committed s); pending := f (committed s); tx_failed := false |}.
Proof.
  intros [Hf Hp]. unfold db_commit, write. simpl. rewrite Hf, Hp. reflexivity.
Qed.

(** A failing analysis or workflow step: the run is marked failed and the
    exception is re-raised; nothing else of the committed state changes. *)
Lemma early_failure_marks_failed P E W tracker pid w err :
  clean (db w) -> is_Some (projects (committed (db w)) !! pid) ->
  analysis_result W = Raise err
  \/ (exists an, analysis_result W = Ok an /\ workflow_result W = Raise err) ->
  exists w',
    run_indexing_workflow P E W tracker pid w = (w', Raise err)
    /\ committed (db w')
       = update_project pid (set_status "failed" None) (committed (db w)).
Proof.
  intros Hclean [p Hp] Hfail.
  assert (Hmark : mark_failed tracker pid err {| db := db w; net := net w |}
                  = ({| db := db_commit (write (update_project pid (set_status "failed" None))
                                           (db w));
                        net := net w |}, Raise err)).
  { unfold mark_failed. simpl db. rewrite (emit_progress_clean _ _ Hclean).
    destruct Hclean as [Hf Hpc]. rewrite Hf, Hpc, Hp. reflexivity. }
  unfold run_indexing_workflow.
  rewrite !(emit_progress_clean _ _ Hclean).
  destruct Hfail as [Ha|(an & Ha & Hw)]; rewrite Ha; [|rewrite Hw];
    rewrite Hmark; eexists; (split; [reflexivity|]);
    simpl; now rewrite (commit_write_clean _ _ Hclean).
Qed.


Lemma chunks_of_delete_same pid d : chunks_of pid (delete_project_chunks pid d) = [].
Proof.
  unfold chunks_of. simpl.
  induction (project_code_chunks d) as [|r l IH]; simpl; [reflexivity|].
  destruct (project_id r =? pid) eqn:Er; simpl; [exact IH|]. now rewrite Er.
Qed.

Lemma chunks_of_delete_other pid other d :
  other <> pid -> chunks_of other (delete_project_chunks pid d) = chunks_of other d.
Proof.
  intros Hne. unfold chunks_of. simpl.
  induction (project_code_chunks d) as [|r l IH]; simpl; [reflexivity|].
  destruct (project_id r =? pid) eqn:Er; simpl.
  - destruct (project_id r =? other) eqn:Eo; [lia|exact IH].
  - destruct (project_id r =? other); [f_equal|]; exact IH.
Qed.

Lemma chunks_of_insert pid other rows d :
  Forall (fun r => project_id r = pid) rows ->
  chunks_of other (insert_rows rows d)
  = chunks_of other d ++ (if other =? pid then rows else []).
Proof.
  intros Hpid. unfold chunks_of. simpl. rewrite List.filter_app. f_equal.
  induction Hpid as [|r rows Hr _ IH]; simpl; [now destruct (other =? pid)|].
  rewrite Hr, IH, (Z.eqb_sym pid other). now destruct (other =? pid).
Qed.

(** A reindex that writes rows replaces the project's rows by exactly the
    new ones and leaves every other project's rows alone. *)
Lemma reindex_replaces_rows P E tracker pid files cc co mf w res :
  clean (db w) ->
  snd (index_project_chunks_to_pgvector P E tracker pid files cc co mf w) = Ok res ->
  chunks_written res <> 0 ->
  exists rows,
    len rows = chunks_written res
    /\ chunks_of pid
         (committed (db (fst (index_project_chunks_to_pgvector P E tracker pid files cc co mf w))))
       = rows
    /\ forall other, other <> pid ->
         chunks_of other
           (committed (db (fst (index_project_chunks_to_pgvector P E tracker pid files cc co mf w))))
         = chunks_of other (committed (db w)).
Proof.
  intros Hclean Hres Hn.
  pose proof (index_session_cases P E tracker pid files cc co mf w) as Hcases.
  simpl in Hcases. rewrite Hres, (emit_progress_clean _ _ Hclean) in Hcases.
  destruct Hcases as [[H0 _]|(rows & Hne & Hlen & Hpid & ->)]; [congruence|].
  exists rows. split; [congruence|].
  destruct Hclean as [Hf Hpc].
  unfold db_commit, write; simpl. rewrite Hf. simpl. rewrite Hpc. split.
  - rewrite (chunks_of_insert pid pid rows _ Hpid), chunks_of_delete_same, Z.eqb_refl.
    reflexivity.
  - intros other Hother.
    rewrite (chunks_of_insert pid other rows _ Hpid), chunks_of_delete_other by assumption.
    destruct (other =? pid) eqn:Eo; [lia|apply app_nil_r].
Qed.

(** A reindex that raises, run by the reindexing script (no progress
    tracker, the session closed at the end), leaves the committed state as
    it was. *)
Lemma failed_reindex_script_keeps_committed P E pid files w err :
  clean (db w) ->
  snd (reindex_script P E pid files w) = Raise err ->
  committed (db (fst (reindex_script P E pid files w))) = committed (db w).
Proof.
  intros Hclean. unfold reindex_script.
  pose proof (index_session_cases P E false pid files 1200 150 None w) as Hcases.
  destruct (index_project_chunks_to_pgvector P E false pid files 1200 150 None w)
    as [w' r].
  simpl in *. intros ->.
  destruct Hcases as [-> | [-> | [-> | (page & rows & _ & _ & [[_ ->] | [_ ->]])]]];
    reflexivity.
Qed.

End OrchestratorFacts.

Section OrchestratorClaims.
Import Py Chunking Embedding Store Orchestrator Notions.


Lemma indexed_world_clean : clean (db indexed_world).
Proof. split; reflexivity. Qed.




(** C3.  Two runs that break full replacement.  A reindex that produces
    no chunk returns success with [chunks_written = 0] before the delete
    is reached: the row of the earlier run stays committed, so the
    project's chunk set is not the (empty) set of this run.  And a run of
    the orchestrator with a progress tracker whose embedding stage fails
    after the delete loses the row of the earlier run: the tracker's
    commit on the shared session commits the pending delete. *)
Lemma reindex_breaks_full_replace :
  (snd (reindex_script length_provider sound_store 1 [] indexed_world)
   = Ok {| files_indexed := 0; chunks_written := 0; embedding_dim := None |}
   /\ chunks_of 1
        (committed (db (fst (reindex_script length_provider sound_store 1 []
                               indexed_world))))
      = [old_row])
  /\ (snd (index_project_chunks_to_pgvector provider_down sound_store true 1
             [sample_file] 1200 150 None indexed_world)
      = Raise "provider down"
      /\ chunks_of 1 (committed (db indexed_world)) = [old_row]
      /\ chunks_of 1
           (committed (db (fst (run_indexing_workflow provider_down sound_store
                                  sample_workflow true 1 indexed_world))))
         = []).
Proof. vm_compute. repeat split; reflexivity. Qed.

End OrchestratorClaims.

(** ** The statements at concrete inputs *)

Section Witnesses.
Import Py Chunking Embedding Store Orchestrator Notions.

Lemma tier1_spans_within_text_witness :
  (0 <= _char_index_from_byte (_utf8_byte_offsets multibyte_text) 1
     <= _char_index_from_byte (_utf8_byte_offsets multibyte_text) 6
   /\ _char_index_from_byte (_utf8_byte_offsets multibyte_text) 6 <= len multibyte_text)
  /\ (0 <= 1 <= 3 /\ 3 <= len multibyte_text
      /\ slice multibyte_text 1 3
         = firstn (Z.to_nat (3 - 1)) (skipn (Z.to_nat 1) multibyte_text)
      /\ len (slice multibyte_text 1 3) = 3 - 1).
Proof.
  split.
  - apply (proj1 (tier1_spans_within_text multibyte_text) 1 6). lia.
  - apply (proj2 (tier1_spans_within_text multibyte_text) multibyte_tree ".py"%string 1200
             (1, 3, "function_definition"%string)).
    + reflexivity.
    + vm_compute. left. reflexivity.
Defined.

Lemma chunks_nonempty_and_line_ordered_witness :
  exists c,
    split_text_to_code_chunks (of_string "a.py") ".py" two_line_text 1200 150
      (Some (Some two_line_tree)) LcUnavailable = Some [c]
    /\ splitter c = "tree_sitter"%string
    /\ (start_line c, end_line c) = (1, 2)
    /\ content c <> [] /\ strip (content c) = content c
    /\ 1 <= start_line c /\ start_line c <= end_line c.
Proof.
  eexists. split; [vm_compute; reflexivity|].
  split; [reflexivity|]. split; [reflexivity|].
  eapply (chunks_nonempty_and_line_ordered (of_string "a.py") ".py" two_line_text
            1200 150 (Some (Some two_line_tree)) LcUnavailable).
  - lia.
  - vm_compute. reflexivity.
  - left. reflexivity.
Defined.

Lemma length_provider_faithful : faithful length_embedding length_provider.
Proof.
  intros n batch data [= <-]. symmetry. apply Permutation_rev.
Qed.

Lemma embed_preserves_input_order_witness :
  snd (embed_texts_openai length_provider three_texts 2 3 (3 # 2) no_requests) <> Hang
  /\ (forall out,
        snd (embed_texts_openai length_provider three_texts 2 3 (3 # 2) no_requests)
        = Ok out ->
        length out = length three_texts
        /\ forall i t, nth_error three_texts i = Some t ->
                       nth_error out i = Some (length_embedding t))
  /\ (always_replies length_provider ->
        exists out,
          snd (embed_texts_openai length_provider three_texts 2 3 (3 # 2) no_requests)
          = Ok out).
Proof.
  apply (embed_preserves_input_order length_embedding length_provider three_texts
           2 3 (3 # 2) no_requests).
  - discriminate.
  - lia.
  - exact length_provider_faithful.
Defined.



End Witnesses.

(** ** Worked examples *)

Section Examples.
Import Py Chunking Embedding Store Orchestrator Notions.

Example split_on_separators :
  split (of_string ", ") (of_string "a, b, ") = [of_string "a"; of_string "b"; []].
Proof. reflexivity. Qed.

Example slice_negative_bound :
  slice (of_string "abcdef") 2 (-1) = of_string "cde".
Proof. reflexivity. Qed.

Example multibyte_offsets : _utf8_byte_offsets multibyte_text = [0; 1; 3; 6; 10].
Proof. reflexivity. Qed.

(** Two selected nodes with the same character span remove each other. *)
Example equal_spans_drop_each_other :
  drop_contained [(0, 5, "function_definition"%string); (0, 5, "class_definition"%string)]
  = [].
Proof. reflexivity. Qed.

(** Twenty-five characters without a separator: fixed windows of 10 with
    an overlap of 3. *)
Example fallback_fixed_windows :
  _fallback_recursive_split_spans (of_string "aaaaaaaaaaaaaaaaaaaaaaaaa")
    code_separators 10 3
  = [(0, 10); (7, 17); (14, 24); (21, 25)].
Proof. vm_compute. reflexivity. Qed.

(** A reply in reverse order is put back in input order. *)
Example embed_reorders :
  snd (embed_texts_openai length_provider three_texts 2 3 (3 # 2) no_requests)
  = Ok (List.map length_embedding three_texts).
Proof. vm_compute. reflexivity. Qed.

(** The first batch is embedded, the second exhausts its retries: four
    more requests, three sleeps of 1.6 s, 3.2 s and 6.3 s, and an
    exception instead of the vectors of the first batch. *)
Example embed_no_partial_result :
  embed_texts_openai provider_down_after_first three_texts 2 3 (3 # 2) no_requests
  = ({| clients := 1; calls := 5; slept := [32 # 20; 64 # 20; 126 # 20] |},
     Raise "provider down").
Proof. vm_compute. reflexivity. Qed.

(** A first indexing run of the sample project writes one row. *)
Example indexing_run_writes_rows :
  snd (reindex_script length_provider sound_store 1 [sample_file] indexed_world)
  = Ok {| files_indexed := 1; chunks_written := 1; embedding_dim := Some 1536 |}
  /\ List.map row_content
       (chunks_of 1 (committed (db (fst (reindex_script length_provider sound_store 1
                                           [sample_file] indexed_world)))))
     = [of_string "x = 1"].
Proof. vm_compute. split; reflexivity. Qed.

End Examples.

(** * Further properties of the code *)

(** ** Fixed windows, line numbers, byte offsets *)

Section WindowFacts.
Import Py Chunking Windows.

Lemma chunk_spans_loop_spec fuel n cc step start :
  0 < cc -> 1 <= step <= cc -> 0 <= start -> n - start <= Z.of_nat fuel ->
  Forall (fun sp => start <= fst sp < snd sp /\ snd sp <= n /\ snd sp - fst sp <= cc)
         (chunk_spans_loop fuel n cc step start)
  /\ (forall i, start <= i < n ->
        exists sp, In sp (chunk_spans_loop fuel n cc step start) /\ fst sp <= i < snd sp).
Proof.
  intros Hcc Hstep. revert start.
  induction fuel as [|fuel IH]; intros start Hs Hfuel; simpl.
  - split; [constructor|]. intros i Hi. lia.
  - destruct (start <? n) eqn:Es; [|split; [constructor|intros i Hi; lia]].
    destruct (Z.min n (start + cc) >=? n) eqn:Ee.
    + split.
      * constructor; [simpl; lia|constructor].
      * intros i Hi. exists (start, Z.min n (start + cc)). split; [now left|simpl; lia].
    + destruct (IH (start + step)) as [Hall Hcov]; [lia|lia|]. split.
      * constructor; [simpl; lia|].
        eapply List.Forall_impl; [|exact Hall]. simpl. intros sp Hsp. lia.
      * intros i Hi. destruct (Z_lt_le_dec i (start + step)) as [Hlt|Hge].
        -- exists (start, Z.min n (start + cc)). split; [now left|simpl; lia].
        -- destruct (Hcov i ltac:(lia)) as (sp & Hin & Hsp).
           exists sp. split; [now right|assumption].
Qed.

(** X1.  [_chunk_spans] rejects a non-positive window and a negative
    overlap, and otherwise returns windows that lie within the text, are
    non-empty and at most [chunk_chars] long, and together cover every
    character index (no gap is left between consecutive windows). *)
Theorem chunk_spans_cover_text (text : str) (chunk_chars chunk_overlap : Z) :
  match _chunk_spans text chunk_chars chunk_overlap with
  | Ok spans =>
      0 < chunk_chars /\ 0 <= chunk_overlap
      /\ Forall (fun sp => 0 <= fst sp < snd sp /\ snd sp <= len text
                           /\ snd sp - fst sp <= chunk_chars) spans
      /\ (forall i, 0 <= i < len text ->
            exists sp, In sp spans /\ fst sp <= i < snd sp)
  | Raise _ => chunk_chars <= 0 \/ chunk_overlap < 0
  | Hang => False
  end.
Proof.
  unfold _chunk_spans.
  destruct (chunk_chars <=? 0) eqn:E1; [left; lia|].
  destruct (chunk_overlap <? 0) eqn:E2; [right; lia|].
  destruct (len text =? 0) eqn:E3.
  - split; [lia|]. split; [lia|]. split; [constructor|]. intros i Hi. lia.
  - destruct (chunk_spans_loop_spec (length text) (len text) chunk_chars
                (Z.max 1 (chunk_chars - chunk_overlap)) 0) as [Hall Hcov];
      [lia|lia|lia|unfold len; lia|].
    split; [lia|]. split; [lia|]. split; assumption.
Qed.

End WindowFacts.

Section LineFacts.
Import Py Chunking ExtraNotions.

Lemma bisect_newlines_from (text : str) (k : nat) (idx : Z) :
  bisect_left
    (List.map fst (List.filter (fun p : Z * char => (snd p =? 10)%N)
       (combine (List.map Z.of_nat (seq k (length text))) text))) idx
  = newlines_before text (idx - Z.of_nat k).
Proof.
  unfold newlines_before, len. revert k.
  induction text as [|ch text IH]; intros k; simpl.
  - now rewrite firstn_nil.
  - specialize (IH (S k)).
    destruct (Z_lt_le_dec (Z.of_nat k) idx) as [Hlt|Hge].
    + replace (Z.to_nat (idx - Z.of_nat k)) with (S (Z.to_nat (idx - Z.of_nat (S k))))
        by lia.
      simpl. destruct (ch =? 10)%N; simpl.
      * replace (Z.of_nat k <? idx) with true by (symmetry; apply Z.ltb_lt; lia).
        rewrite IH. lia.
      * exact IH.
    + replace (Z.to_nat (idx - Z.of_nat k)) with O by lia.
      replace (Z.to_nat (idx - Z.of_nat (S k))) with O in IH by lia.
      simpl in *. destruct (ch =? 10)%N; simpl.
      * replace (Z.of_nat k <? idx) with false by (symmetry; apply Z.ltb_ge; lia).
        reflexivity.
      * exact IH.
Qed.

(** X2.  The line number stamped for a character index is one more than
    the number of newline characters before that index. *)
Theorem line_number_counts_newlines (text : str) (idx : Z) :
  line_of (newline_positions_of text) idx = 1 + newlines_before text idx.
Proof.
  unfold line_of, _line_number_at.
  assert (H : bisect_left (newline_positions_of text) idx = newlines_before text idx).
  { transitivity (newlines_before text (idx - Z.of_nat 0));
      [exact (bisect_newlines_from text 0 idx)|f_equal; simpl; lia]. }
  destruct (newline_positions_of text) eqn:E; simpl truthy; cbv iota; [|lia].
  simpl in H. lia.
Qed.

End LineFacts.

Section OffsetFacts.
Import Py Chunking.

Lemma bisect_left_at_index (l : list Z) (i : nat) :
  StronglySorted Z.lt l -> (i < length l)%nat ->
  bisect_left l (nth i l 0) = Z.of_nat i.
Proof.
  intros Hs. revert i. induction Hs as [|x l Hs IH Hall]; intros i Hi; [simpl in Hi; lia|].
  destruct i as [|i]; simpl.
  - now rewrite Z.ltb_irrefl.
  - simpl in Hi. rewrite List.Forall_forall in Hall.
    assert (x < nth i l 0) by (apply Hall, nth_In; lia).
    replace (x <? nth i l 0) with true by (symmetry; apply Z.ltb_lt; lia).
    rewrite IH by lia. lia.
Qed.

Lemma last_nth (l : list Z) d : List.last l d = nth (length l - 1) l d.
Proof.
  induction l as [|x l IH]; [reflexivity|].
  destruct l as [|y l]; [reflexivity|].
  change (List.last (x :: y :: l) d) with (List.last (y :: l) d). rewrite IH.
  simpl. now rewrite Nat.sub_0_r.
Qed.

Lemma sorted_nth_lt (l : list Z) i j :
  StronglySorted Z.lt l -> (i < j < length l)%nat -> nth i l 0 < nth j l 0.
Proof.
  intros Hs. revert i j. induction Hs as [|x l Hs IH Hall]; intros i j Hij; [simpl in Hij; lia|].
  destruct j as [|j]; [lia|]. simpl in Hij. destruct i as [|i]; simpl.
  - rewrite List.Forall_forall in Hall. apply Hall, nth_In. lia.
  - apply IH. lia.
Qed.

(** X3.  Byte offsets and character indexes round-trip: the UTF-8 byte
    offset recorded for character [i] (the total byte length for
    [i = len(text)]) maps back to [i], for texts of any mix of 1- to
    4-byte characters. *)
Theorem byte_offset_round_trip (text : str) (i : nat) :
  (i <= length text)%nat ->
  _char_index_from_byte (_utf8_byte_offsets text)
    (nth i (_utf8_byte_offsets text) 0) = Z.of_nat i.
Proof.
  intros Hi. set (offs := _utf8_byte_offsets text).
  assert (Hs : StronglySorted Z.lt offs) by apply (utf8_offsets_from_sorted 0 text).
  assert (Hlen : length offs = S (length text)).
  { unfold offs, _utf8_byte_offsets. simpl. now rewrite utf8_offsets_from_length. }
  unfold _char_index_from_byte.
  destruct i as [|i].
  - change (nth 0 offs 0) with 0. reflexivity.
  - assert (H0 : 0 < nth (S i) offs 0).
    { change 0 with (nth 0 offs 0) at 1. apply sorted_nth_lt; [assumption|lia]. }
    replace (nth (S i) offs 0 <=? 0) with false by (symmetry; apply Z.leb_gt; lia).
    rewrite (last_nth offs 0), Hlen. simpl Nat.sub. rewrite Nat.sub_0_r.
    destruct (Nat.eq_dec (S i) (length text)) as [->|Hne].
    + replace (_ >=? _) with true by (symmetry; apply Z.geb_le; lia).
      unfold len. lia.
    + assert (nth (S i) offs 0 < nth (length text) offs 0)
        by (apply sorted_nth_lt; [assumption|lia]).
      replace (_ >=? _) with false by (symmetry; rewrite Z.geb_leb; apply Z.leb_gt; lia).
      apply bisect_left_at_index; [assumption|lia].
Qed.

End OffsetFacts.

(** ** The internal fallback splitter *)

Section FallbackFacts.
Import Py Chunking Notions ExtraNotions.

Lemma lstrip_nil_blank s c : lstrip s = [] -> In c s -> is_space c = true.
Proof.
  induction s as [|d s IH]; simpl; [tauto|].
  destruct (is_space d) eqn:E; [|discriminate].
  intros H [<-|Hin]; [assumption|now apply IH].
Qed.

Lemma strip_nil_blank s c : strip s = [] -> In c s -> is_space c = true.
Proof.
  unfold strip, rstrip. intros H Hin.
  assert (H1 : lstrip (rev (lstrip s)) = []).
  { rewrite <- (rev_involutive (lstrip _)), H. reflexivity. }
  destruct (lstrip_head s) as [E|(d & t & E & Hd)].
  - now apply (lstrip_nil_blank s).
  - assert (is_space d = true); [|congruence].
    apply (lstrip_nil_blank (rev (lstrip s))); [assumption|].
    rewrite E. apply in_rev. rewrite rev_involutive. now left.
Qed.

Lemma slice_nth_error {A} (s : list A) a b i :
  0 <= a -> a <= i < b -> b <= len s ->
  nth_error (slice s a b) (Z.to_nat (i - a)) = nth_error s (Z.to_nat i).
Proof.
  intros Ha Hi Hb.
  destruct (slice_in_range s a b ltac:(lia) Hb) as [-> _].
  rewrite nth_error_firstn.
  replace (Z.to_nat (i - a) <? Z.to_nat (b - a))%nat with true
    by (symmetry; apply Nat.ltb_lt; lia).
  rewrite nth_error_skipn. f_equal. lia.
Qed.

Lemma visible_slice_truthy text a b i :
  0 <= a -> a <= i < b -> b <= len text -> visible_at text i ->
  truthy (strip (slice text a b)) = true.
Proof.
  intros Ha Hi Hb (_ & c & Hc & Hsp).
  destruct (strip (slice text a b)) eqn:E; [|reflexivity].
  assert (is_space c = true); [|congruence].
  apply (strip_nil_blank (slice text a b)); [assumption|].
  apply (nth_error_In _ (Z.to_nat (i - a))). now rewrite slice_nth_error.
Qed.

Lemma visible_in_range text i : visible_at text i -> 0 <= i < len text.
Proof.
  intros (H0 & c & Hc & _). split; [assumption|].
  assert (Z.to_nat i < length text)%nat by (apply nth_error_Some; congruence).
  unfold len. lia.
Qed.

Lemma visible_slice text a b j :
  0 <= a -> a <= b -> b <= len text ->
  visible_at (slice text a b) j -> visible_at text (a + j).
Proof.
  intros Ha Hab Hb Hv. pose proof (visible_in_range _ _ Hv) as Hj.
  destruct (slice_in_range text a b ltac:(lia) Hb) as [_ Hlen]. rewrite Hlen in Hj.
  destruct Hv as (_ & c & Hc & Hsp). split; [lia|]. exists c. split; [|assumption].
  rewrite <- (slice_nth_error text a b (a + j)) by lia.
  now replace (a + j - a) with j by lia.
Qed.

Lemma slice_visible text a b i :
  0 <= a -> a <= i < b -> b <= len text ->
  visible_at text i -> visible_at (slice text a b) (i - a).
Proof.
  intros Ha Hi Hb (_ & c & Hc & Hsp). split; [lia|]. exists c. split; [|assumption].
  now rewrite slice_nth_error.
Qed.

Lemma covers_app_l l1 l2 i : covers l1 i -> covers (l1 ++ l2) i.
Proof. intros (sp & Hin & H). exists sp. split; [apply in_or_app; now left|assumption]. Qed.

Lemma covers_app_r l1 l2 i : covers l2 i -> covers (l1 ++ l2) i.
Proof. intros (sp & Hin & H). exists sp. split; [apply in_or_app; now right|assumption]. Qed.

Lemma within_weaken lo hi lo' hi' size sp :
  lo' <= lo -> hi <= hi' -> within lo hi size sp -> within lo' hi' size sp.
Proof. unfold within. lia. Qed.

(** The character loop: windows of at most [chunk_size] characters, and
    no visible character is left out. *)
Lemma char_split_spec fuel chunk_size step text off i :
  0 < chunk_size -> 1 <= step <= chunk_size -> 0 <= i ->
  len text - i <= Z.of_nat fuel ->
  Forall (within (off + i) (off + len text) chunk_size)
         (char_split fuel chunk_size step text off i)
  /\ (forall j, i <= j -> visible_at text j ->
        covers (char_split fuel chunk_size step text off i) (off + j)).
Proof.
  intros Hcs Hstep. revert i.
  induction fuel as [|fuel IH]; intros i Hi Hfuel.
  - split; [constructor|]. intros j Hj Hv. apply visible_in_range in Hv. lia.
  - simpl. destruct (i <? len text) eqn:Ei.
    2:{ split; [constructor|]. intros j Hj Hv. apply visible_in_range in Hv. lia. }
    apply Z.ltb_lt in Ei.
    set (e := Z.min (len text) (i + chunk_size)).
    assert (He : i < e <= len text) by (unfold e; lia).
    assert (Hhere : Forall (within (off + i) (off + len text) chunk_size)
              (if truthy (strip (slice text i e)) then [(off + i, off + e)] else [])).
    { destruct (truthy _); constructor; [|constructor].
      unfold within; simpl. unfold e. lia. }
    assert (Hcov : forall j, i <= j < e -> visible_at text j ->
              covers (if truthy (strip (slice text i e)) then [(off + i, off + e)] else [])
                     (off + j)).
    { intros j Hj Hv. rewrite (visible_slice_truthy text i e j) by (assumption || lia).
      exists (off + i, off + e). split; [now left|simpl; lia]. }
    destruct (e >=? len text) eqn:Ee.
    + split; [exact Hhere|]. intros j Hj Hv.
      pose proof (visible_in_range _ _ Hv). apply Hcov; [|assumption].
      apply Z.geb_le in Ee. lia.
    + destruct (IH (i + step) ltac:(lia) ltac:(lia)) as [IHb IHc].
      split.
      * apply Forall_app. split; [exact Hhere|].
        eapply List.Forall_impl; [|exact IHb].
        intros sp. apply within_weaken; lia.
      * intros j Hj Hv. destruct (Z_lt_le_dec j e) as [Hlt|Hge].
        -- apply covers_app_l, Hcov; [lia|assumption].
        -- apply covers_app_r, IHc; [|assumption].
           rewrite Z.geb_leb in Ee. apply Z.leb_gt in Ee. unfold e in *. lia.
Qed.

Lemma split_go_nonempty sep text skip cur : split_go sep text skip cur <> [].
Proof.
  revert skip cur. induction text as [|c t IH]; intros skip cur; simpl; [discriminate|].
  destruct skip; [|apply IH]. destruct (starts_with _ _); [discriminate|apply IH].
Qed.

Lemma starts_with_length p s : starts_with p s = true -> (length p <= length s)%nat.
Proof.
  revert s. induction p as [|a p IH]; intros s; simpl; [lia|].
  destruct s as [|b s]; [discriminate|].
  intros H. apply andb_true_iff in H. destruct H as [_ H]. apply IH in H. simpl. lia.
Qed.

(** The pieces of [text.split(sep)], separators included, tile the text. *)
Lemma piece_spans_tile sep text skip cur cursor :
  sep <> [] -> (skip <= length text)%nat ->
  tiles cursor (piece_spans (len sep) (split_go sep text skip cur) cursor)
        (cursor + len cur + len text - Z.of_nat skip).
Proof.
  intros Hsep. revert skip cur cursor.
  induction text as [|c t IH]; intros skip cur cursor Hskip.
  - simpl in *. unfold len. rewrite length_rev. simpl. lia.
  - cbn [split_go]. destruct skip as [|k].
    + destruct (starts_with sep (c :: t)) eqn:Es.
      * apply starts_with_length in Es. simpl in Es.
        assert (Hl : (1 <= length sep)%nat) by (destruct sep; [congruence|simpl; lia]).
        specialize (IH (length sep - 1)%nat [] (cursor + len (rev cur) + len sep)
                       ltac:(lia)).
        pose proof (split_go_nonempty sep t (length sep - 1) []) as Hne.
        destruct (split_go sep t (length sep - 1) []) as [|q qs] eqn:Eq; [congruence|].
        cbn [piece_spans]. cbn [tiles]. split; [reflexivity|].
        split; [pose proof (len_nonneg (rev cur)); pose proof (len_nonneg sep); lia|].
        cbn [piece_spans] in IH.
        replace (cursor + len cur + len (c :: t) - Z.of_nat 0)
          with (cursor + len (rev cur) + len sep + len (@nil char) + len t
                - Z.of_nat (length sep - 1)); [exact IH|].
        unfold len. rewrite length_rev. simpl. lia.
      * specialize (IH 0%nat (c :: cur) cursor ltac:(lia)).
        replace (cursor + len cur + len (c :: t) - Z.of_nat 0)
          with (cursor + len (c :: cur) + len t - Z.of_nat 0); [exact IH|].
        unfold len. simpl. lia.
    + specialize (IH k cur cursor ltac:(simpl in Hskip; lia)).
      replace (cursor + len cur + len (c :: t) - Z.of_nat (S k))
        with (cursor + len cur + len t - Z.of_nat k); [exact IH|].
      unfold len. simpl. lia.
Qed.

Lemma split_pieces_tile sep text :
  sep <> [] -> tiles 0 (piece_spans (len sep) (split sep text) 0) (len text).
Proof.
  intros Hsep. pose proof (piece_spans_tile sep text 0 [] 0 Hsep ltac:(lia)) as H.
  unfold split. replace (len text) with (0 + len (@nil char) + len text - Z.of_nat 0);
    [exact H|unfold len; simpl; lia].
Qed.

Lemma tiles_le cursor pieces final : tiles cursor pieces final -> cursor <= final.
Proof.
  revert cursor. induction pieces as [|[a b] rest IH]; intros cursor; simpl; [lia|].
  intros (-> & Hab & H). apply IH in H. lia.
Qed.

Lemma emit_current_spec text off chunk_size cs ce :
  0 <= cs -> ce <= len text -> ce - cs <= chunk_size ->
  Forall (within (off + cs) (off + ce) chunk_size) (emit_current text off cs ce)
  /\ (forall j, cs <= j < ce -> visible_at text j ->
        covers (emit_current text off cs ce) (off + j)).
Proof.
  intros H0 Hce Hsz. unfold emit_current. split.
  - destruct (ce >? cs) eqn:E; simpl; [|constructor].
    destruct (truthy _); constructor; [|constructor].
    unfold within; simpl. lia.
  - intros j Hj Hv. replace (ce >? cs) with true by (symmetry; lia).
    rewrite (visible_slice_truthy text cs ce j) by (assumption || lia).
    exists (off + cs, off + ce). split; [now left|simpl; lia].
Qed.

Lemma merge_pieces_spec recurse chunk_size chunk_overlap text off pieces cs ce final :
  0 < chunk_size ->
  (forall a b, 0 <= a -> a <= b -> b <= len text ->
     splits_well chunk_size (slice text a b) (off + a) (recurse (slice text a b) (off + a))) ->
  0 <= cs -> cs <= ce -> ce - cs <= chunk_size -> final <= len text ->
  tiles ce pieces final ->
  Forall (within (off + cs) (off + final) chunk_size)
         (merge_pieces recurse chunk_size chunk_overlap text off pieces cs ce)
  /\ (forall j, cs <= j < final -> visible_at text j ->
        covers (merge_pieces recurse chunk_size chunk_overlap text off pieces cs ce)
               (off + j)).
Proof.
  intros Hsize Hrec. revert cs ce.
  induction pieces as [|[ps pe] rest IH]; intros cs ce H0 Hle Hsz Hfin Ht.
  - simpl in Ht. subst final. simpl. now apply emit_current_spec.
  - simpl in Ht. destruct Ht as (-> & Hp & Ht).
    pose proof (tiles_le _ _ _ Ht) as Hpf.
    cbn [merge_pieces].
    destruct (emit_current_spec text off chunk_size cs ce H0 ltac:(lia) Hsz) as [Fb Fc].
    assert (Fb' : Forall (within (off + cs) (off + final) chunk_size)
                         (emit_current text off cs ce)).
    { eapply List.Forall_impl; [|exact Fb]. intros sp. apply within_weaken; lia. }
    destruct (pe - cs <=? chunk_size) eqn:E1.
    { apply Z.leb_le in E1. apply IH; (assumption || lia). }
    set (os := if chunk_overlap >? 0 then Z.max cs (ce - chunk_overlap) else ce).
    assert (Hos : cs <= os <= ce) by (unfold os; destruct (chunk_overlap >? 0) eqn:Eo; lia).
    destruct (pe - os <=? chunk_size) eqn:E2.
    + apply Z.leb_le in E2.
      destruct (IH os pe ltac:(lia) ltac:(lia) ltac:(lia) Hfin Ht) as [IHb IHc].
      split.
      * apply Forall_app. split; [exact Fb'|].
        eapply List.Forall_impl; [|exact IHb]. intros sp. apply within_weaken; lia.
      * intros j Hj Hv. destruct (Z_lt_le_dec j ce).
        -- apply covers_app_l, Fc; [lia|assumption].
        -- apply covers_app_r, IHc; [lia|assumption].
    + destruct (IH pe pe ltac:(lia) ltac:(lia) ltac:(lia) Hfin Ht) as [IHb IHc].
      destruct (Hrec ce pe ltac:(lia) Hp ltac:(lia)) as [Rb Rc].
      destruct (slice_in_range text ce pe ltac:(lia) ltac:(lia)) as [_ Hlen].
      rewrite Hlen in Rb.
      split.
      * apply Forall_app. split; [exact Fb'|]. apply Forall_app. split.
        -- eapply List.Forall_impl; [|exact Rb]. intros sp. apply within_weaken; lia.
        -- eapply List.Forall_impl; [|exact IHb]. intros sp. apply within_weaken; lia.
      * intros j Hj Hv. destruct (Z_lt_le_dec j ce).
        -- apply covers_app_l, Fc; [lia|assumption].
        -- apply covers_app_r. destruct (Z_lt_le_dec j pe).
           ++ apply covers_app_l.
              replace (off + j) with (off + ce + (j - ce)) by lia.
              apply Rc, slice_visible; (assumption || lia).
           ++ apply covers_app_r, IHc; [lia|assumption].
Qed.

Lemma short_text_spec chunk_size text off :
  len text <= chunk_size ->
  splits_well chunk_size text off
    (if truthy (strip text) then [(off, off + len text)] else []).
Proof.
  intros Hlen. split.
  - destruct (strip text) eqn:E; simpl; constructor; [|constructor].
    assert (text <> []) by (apply strip_nonempty; congruence).
    assert (0 < len text) by (unfold len; destruct text; [congruence|simpl; lia]).
    unfold within; simpl. lia.
  - intros j Hv. pose proof (visible_in_range _ _ Hv) as Hj.
    destruct (strip text) eqn:E; simpl.
    + destruct Hv as (_ & c & Hc & Hsp).
      assert (is_space c = true); [|congruence].
      apply (strip_nil_blank text); [assumption|]. eapply nth_error_In, Hc.
    + exists (off, off + len text). split; [now left|simpl; lia].
Qed.

Lemma char_level_spec chunk_size chunk_overlap text off :
  0 < chunk_size ->
  splits_well chunk_size text off
    (char_split (length text) chunk_size
       (Z.max 1 (chunk_size - Z.max 0 chunk_overlap)) text off 0).
Proof.
  intros Hcs.
  destruct (char_split_spec (length text) chunk_size
              (Z.max 1 (chunk_size - Z.max 0 chunk_overlap)) text off 0
              Hcs ltac:(lia) ltac:(lia) ltac:(unfold len; lia)) as [Hb Hc].
  split.
  - eapply List.Forall_impl; [|exact Hb]. intros sp. apply within_weaken; lia.
  - intros j Hv. apply Hc; [|assumption]. apply visible_in_range in Hv. lia.
Qed.

(** With enough fuel the recursion splits every text well, whatever the
    separators. *)
Lemma split_recursive_spec chunk_size chunk_overlap :
  0 < chunk_size ->
  forall fuel seps text off,
    (length seps + 2 <= fuel)%nat \/ (seps = [[]] /\ (1 <= fuel)%nat) ->
    splits_well chunk_size text off
      (split_recursive fuel chunk_size chunk_overlap text off seps).
Proof.
  intros Hcs. induction fuel as [|fuel IH]; intros seps text off Hfuel; [lia|].
  cbn [split_recursive].
  destruct (len text <=? chunk_size) eqn:Elen.
  { apply short_text_spec. lia. }
  destruct Hfuel as [Hfuel|[-> _]].
  2:{ cbn [truthy negb]. now apply char_level_spec. }
  assert (Hne : forall rest, rest <> [] -> incl rest seps -> seps <> []).
  { intros rest Hr Hin ->. destruct rest as [|x rest]; [congruence|].
    now apply (Hin x); left. }
  assert (Hsuffix : incl seps seps) by apply incl_refl.
  revert Hsuffix. generalize seps at 1 5 as rest.
  induction rest as [|sep rest IHrest]; intros Hin.
  - apply IH. right. split; [reflexivity|lia].
  - destruct (negb (truthy sep)) eqn:Et; [now apply char_level_spec|].
    destruct (contains sep text).
    + assert (Hsep : sep <> []) by (destruct sep; [discriminate|discriminate]).
      destruct (merge_pieces_spec
                  (fun t o => split_recursive fuel chunk_size chunk_overlap t o
                                (slice_from seps (index_of sep seps + 1)))
                  chunk_size chunk_overlap text off
                  (piece_spans (len sep) (split sep text) 0) 0 0 (len text)) as [Hb Hc];
        try lia.
      * intros a b Ha Hab Hb. apply IH. left.
        pose proof (slice_from_shorter seps (index_of sep seps + 1)) as Hs.
        pose proof (index_of_nonneg sep seps).
        specialize (Hs ltac:(lia) (Hne (sep :: rest) ltac:(discriminate) Hin)). lia.
      * now apply split_pieces_tile.
      * split.
        -- eapply List.Forall_impl; [|exact Hb]. intros sp. apply within_weaken; lia.
        -- intros j Hv. apply Hc; [|assumption]. apply visible_in_range in Hv. lia.
    + apply IHrest. intros x Hx. apply Hin. now right.
Qed.

(** X4.  The internal fallback splitter, for a positive chunk size and
    any separators and overlap: every span is non-empty, lies within the
    text and has at most [chunk_size] characters; and every character
    that is not white space lies in some span, so no visible text is
    lost. *)
Theorem fallback_spans_bounded_and_cover
    (content : str) (separators : list str) (chunk_size chunk_overlap : Z) :
  0 < chunk_size ->
  Forall (within 0 (len content) chunk_size)
         (_fallback_recursive_split_spans content separators chunk_size chunk_overlap)
  /\ (forall i, visible_at content i ->
        covers (_fallback_recursive_split_spans content separators chunk_size chunk_overlap) i).
Proof.
  intros Hcs.
  destruct (split_recursive_spec chunk_size chunk_overlap Hcs
              (length separators + 2) separators content 0 (or_introl (Nat.le_refl _))) as [Hb Hc].
  split; [exact Hb|]. intros i Hv. exact (Hc i Hv).
Qed.

End FallbackFacts.

(** ** Chunks of the hybrid entry point *)

Section ChunkOriginFacts.
Import Py Chunking Notions ExtraNotions.

Lemma in_strings_In x l : in_strings x l = true <-> In x l.
Proof.
  unfold in_strings. rewrite existsb_exists. split.
  - intros (y & Hin & E). apply String.eqb_eq in E. now subst.
  - intros Hin. exists x. split; [assumption|apply String.eqb_refl].
Qed.

Lemma traverse_typed_bounded tys offs max n c :
  In c (traverse tys offs max n) ->
  In (snd c) tys /\ ts_end c - ts_start c <= 2 * max.
Proof.
  revert c. induction n as [ty sb eb children IH] using node_induction.
  intros c Hin. simpl in Hin.
  assert (Hdesc : In c (List.flat_map (traverse tys offs max) children) ->
                  In (snd c) tys /\ ts_end c - ts_start c <= 2 * max).
  { intros Hc. apply in_flat_map in Hc as (child & Hchild & Hc).
    rewrite List.Forall_forall in IH. exact (IH child Hchild c Hc). }
  destruct (in_strings ty tys) eqn:Ety; [|now apply Hdesc].
  destruct (_ <=? _) eqn:Esz; [|now apply Hdesc].
  destruct Hin as [<-|[]]. simpl. split; [now apply in_strings_In|].
  apply Z.leb_le in Esz. unfold ts_start, ts_end; simpl. lia.
Qed.

Lemma StronglySorted_weaken {A} (R S : A -> A -> Prop) (l : list A) :
  (forall a b, R a b -> S a b) -> StronglySorted R l -> StronglySorted S l.
Proof.
  intros HRS. induction 1 as [|x l Hs IH Hall]; constructor; [exact IH|].
  eapply List.Forall_impl; [|exact Hall]. intros y. apply HRS.
Qed.

Lemma filter_snd_sorted {A B} (R : B -> B -> Prop) (f : A * B -> bool) (ps : list (A * B)) :
  StronglySorted R (List.map snd ps) ->
  StronglySorted R (List.map snd (List.filter f ps)).
Proof.
  induction ps as [|q ps IH]; simpl; intros Hs; [constructor|].
  inversion Hs as [|? ? Hs' Hall]; subst.
  destruct (f q); simpl; [|now apply IH].
  constructor; [now apply IH|].
  apply List.Forall_forall. intros y Hy.
  rewrite List.Forall_forall in Hall. apply Hall.
  apply in_map_iff in Hy as (p' & <- & Hp). apply filter_In in Hp as [Hp _].
  now apply in_map.
Qed.

Lemma tier1_spans_typed_sized_sorted_aux (text : str) (parse : option node)
    (file_ext : string) (max_chunk_chars : Z) :
  Forall (fun c => In (snd c) (_get_chunkable_node_types file_ext)
                   /\ ts_end c - ts_start c <= 2 * max_chunk_chars)
         (_extract_tree_sitter_chunks text parse file_ext max_chunk_chars)
  /\ StronglySorted (fun a b => ts_start a <= ts_start b)
       (_extract_tree_sitter_chunks text parse file_ext max_chunk_chars).
Proof.
  unfold _extract_tree_sitter_chunks.
  destruct (existsb is_surrogate text); [split; constructor|].
  destruct parse as [root|]; [|split; constructor].
  destruct (negb _); [split; constructor|].
  split.
  - apply List.Forall_forall. intros c Hc.
    apply drop_contained_In in Hc. unfold sorted_by in Hc. apply sorted_with_In in Hc.
    now apply traverse_typed_bounded in Hc.
  - unfold drop_contained. apply filter_snd_sorted. rewrite enumerate_snd.
    unfold sorted_by.
    eapply StronglySorted_weaken; [|apply sorted_with_sorted].
    + intros a b H. simpl in H. now apply Z.leb_le in H.
    + intros x y H. apply Z.leb_gt in H. apply Z.leb_le. lia.
    + intros x y z H1 H2. apply Z.leb_le in H1, H2. apply Z.leb_le. lia.
Qed.

(** X5.  Every span of the syntax-aware tier names a node type designated
    for the file extension and is at most twice the target size long, and
    the spans are returned in the order of their start positions. *)
Theorem tier1_spans_typed_sized_sorted (text : str) (parse : option node)
    (file_ext : string) (max_chunk_chars : Z) :
  Forall (fun c => In (snd c) (_get_chunkable_node_types file_ext)
                   /\ ts_end c - ts_start c <= 2 * max_chunk_chars)
         (_extract_tree_sitter_chunks text parse file_ext max_chunk_chars)
  /\ StronglySorted (fun a b => ts_start a <= ts_start b)
       (_extract_tree_sitter_chunks text parse file_ext max_chunk_chars).
Proof. apply tier1_spans_typed_sized_sorted_aux. Qed.

Lemma lstrip_suffix s : exists pre, s = pre ++ lstrip s.
Proof.
  induction s as [|c s [pre IH]]; [now exists []|]. simpl.
  destruct (is_space c); [|now exists []].
  exists (c :: pre). simpl. now f_equal.
Qed.

Lemma strip_occurs s : occurs_in (strip s) s.
Proof.
  unfold strip, rstrip. destruct (lstrip_suffix s) as [pre Hpre].
  destruct (lstrip_suffix (rev (lstrip s))) as [post Hpost].
  exists pre, (rev post). rewrite Hpre at 1. f_equal.
  rewrite <- rev_app_distr, <- Hpost. now rewrite rev_involutive.
Qed.

Lemma slice_occurs {A} (s : list A) a b :
  exists before after, s = before ++ slice s a b ++ after.
Proof.
  unfold slice.
  set (m := Z.to_nat (norm_index (len s) a)).
  set (n := Z.to_nat (norm_index (len s) b - norm_index (len s) a)).
  exists (firstn m s), (skipn n (skipn m s)).
  now rewrite (firstn_skipn n), (firstn_skipn m).
Qed.

Lemma strip_slice_occurs text s e : occurs_in (strip (slice text s e)) text.
Proof.
  destruct (slice_occurs text s e) as (b1 & a1 & H1).
  destruct (strip_occurs (slice text s e)) as (b2 & a2 & H2).
  exists (b1 ++ b2), (a2 ++ a1). rewrite H1 at 1. rewrite H2 at 1.
  now rewrite <- !app_assoc.
Qed.

Lemma chunk_of_span_fields p text nl ty spl idx s e c :
  chunk_of_span p text nl ty spl idx s e = Some c ->
  path c = p /\ chunk_index c = idx /\ chunk_type c = ty /\ splitter c = spl
  /\ content c = strip (slice text s e)
  /\ start_line c = line_of nl s /\ end_line c = line_of nl e
  /\ content c <> [].
Proof.
  unfold chunk_of_span. destruct (truthy (strip (slice text s e))) eqn:Et; [|discriminate].
  simpl. intros [= <-]. simpl. repeat split. now apply truthy_nonempty.
Qed.

(** Chunk indexes are the positions of the spans, so they ascend. *)
Lemma keep_some_indexed {A} (f : Z * A -> option chunk) (ps : list (Z * A)) :
  (forall q c, f q = Some c -> chunk_index c = fst q) ->
  StronglySorted (fun a b => fst a < fst b) ps ->
  StronglySorted Z.lt (List.map chunk_index (keep_some (List.map f ps))).
Proof.
  intros Hf. induction 1 as [|q ps Hs IH Hall]; simpl; [constructor|].
  destruct (f q) as [c|] eqn:E; [|exact IH].
  simpl. constructor; [exact IH|].
  apply List.Forall_forall. intros y Hy.
  apply in_map_iff in Hy as (c' & <- & Hc').
  apply keep_some_In, in_map_iff in Hc' as (q' & Hq' & Hin).
  rewrite List.Forall_forall in Hall.
  rewrite (Hf _ _ E), (Hf _ _ Hq'). now apply Hall.
Qed.

Lemma enumerate_sorted {A} (l : list A) :
  StronglySorted (fun a b : Z * A => fst a < fst b) (enumerate l)
  /\ Forall (fun a : Z * A => 0 <= fst a) (enumerate l).
Proof. exact (enumerate_from_sorted l 0). Qed.

Lemma recursive_chunks_origin p file_ext text spans :
  Forall (fun c => path c = p /\ occurs_in (content c) text
                   /\ 0 <= chunk_index c /\ tier_marked file_ext c
                   /\ exists s e, content c = strip (slice text s e) /\ content c <> [])
         (recursive_chunks p text (newline_positions_of text) spans)
  /\ StronglySorted Z.lt
       (List.map chunk_index (recursive_chunks p text (newline_positions_of text) spans)).
Proof.
  unfold recursive_chunks. destruct (enumerate_sorted spans) as [Hs Hpos]. split.
  - apply List.Forall_forall. intros c Hc.
    apply keep_some_In, in_map_iff in Hc as ([idx [s e]] & Hc & Hin).
    apply chunk_of_span_fields in Hc as (Hp & Hi & Ht & Hsp & Hcont & _ & _ & Hne).
    rewrite List.Forall_forall in Hpos. specialize (Hpos _ Hin). simpl in Hpos.
    split; [assumption|]. split; [rewrite Hcont; apply strip_slice_occurs|].
    split; [lia|]. split; [right; now split|]. now exists s, e.
  - apply keep_some_indexed; [|exact Hs].
    intros [idx [s e]] c Hc. now apply chunk_of_span_fields in Hc.
Qed.

Lemma tree_sitter_chunks_origin p file_ext text spans :
  Forall (fun c => In (snd c) (_get_chunkable_node_types file_ext)) spans ->
  Forall (fun c => path c = p /\ occurs_in (content c) text
                   /\ 0 <= chunk_index c /\ tier_marked file_ext c
                   /\ exists s e, content c = strip (slice text s e) /\ content c <> [])
         (tree_sitter_chunks p text (newline_positions_of text) spans)
  /\ StronglySorted Z.lt
       (List.map chunk_index (tree_sitter_chunks p text (newline_positions_of text) spans)).
Proof.
  intros Hty.
  unfold tree_sitter_chunks. destruct (enumerate_sorted spans) as [Hs Hpos]. split.
  - apply List.Forall_forall. intros c Hc.
    apply keep_some_In, in_map_iff in Hc as ([idx [[s e] ty]] & Hc & Hin).
    apply chunk_of_span_fields in Hc as (Hp & Hi & Ht & Hsp & Hcont & _ & _ & Hne).
    rewrite List.Forall_forall in Hpos. specialize (Hpos _ Hin). simpl in Hpos.
    split; [assumption|]. split; [rewrite Hcont; apply strip_slice_occurs|].
    split; [lia|]. split; [|now exists s, e].
    left. split; [assumption|]. exists ty. split; [assumption|].
    rewrite List.Forall_forall in Hty.
    unfold enumerate in Hin. apply in_combine_r in Hin. exact (Hty _ Hin).
  - apply keep_some_indexed; [|exact Hs].
    intros [idx [[s e] ty]] c Hc. now apply chunk_of_span_fields in Hc.
Qed.

Lemma split_chunks_origin p file_ext text cc co parser lc chunks :
  split_text_to_code_chunks p file_ext text cc co parser lc = Some chunks ->
  Forall (fun c => path c = p /\ occurs_in (content c) text
                   /\ 0 <= chunk_index c /\ tier_marked file_ext c
                   /\ exists s e, content c = strip (slice text s e) /\ content c <> []) chunks
  /\ StronglySorted Z.lt (List.map chunk_index chunks).
Proof.
  intros Hrun. unfold split_text_to_code_chunks in Hrun.
  match type of Hrun with
  | (if truthy ?t then _ else _) = _ => set (tier1 := t) in *
  end.
  assert (Htier1 :
    Forall (fun c => path c = p /\ occurs_in (content c) text
                     /\ 0 <= chunk_index c /\ tier_marked file_ext c
                     /\ exists s e, content c = strip (slice text s e) /\ content c <> [])
           tier1
    /\ StronglySorted Z.lt (List.map chunk_index tier1)).
  { subst tier1. destruct parser as [parse|]; [|split; constructor].
    destruct (truthy (_extract_tree_sitter_chunks text parse file_ext cc));
      [|split; constructor].
    apply tree_sitter_chunks_origin.
    eapply List.Forall_impl;
      [|exact (proj1 (tier1_spans_typed_sized_sorted_aux text parse file_ext cc))].
    intros c H. exact (proj1 H). }
  destruct (truthy tier1).
  { injection Hrun as <-. exact Htier1. }
  match type of Hrun with
  | match ?sp with _ => _ end = _ => destruct sp as [spans2|]; [|discriminate]
  end.
  injection Hrun as <-. apply recursive_chunks_origin.
Qed.

(** X6.  Whatever tier produced them, the chunks of a file bear the
    file's path, their content occurs in the text as a contiguous run of
    characters, they carry the marks of exactly one tier (a tree-sitter
    chunk naming a node type designated for the extension), and their
    chunk indexes are non-negative and strictly ascending, hence
    distinct. *)
Theorem chunks_stamped_and_numbered
    (p : str) (file_ext : string) (text : str) (chunk_chars chunk_overlap : Z)
    (parser : option (option node)) (lc : langchain_outcome) (chunks : list chunk) :
  split_text_to_code_chunks p file_ext text chunk_chars chunk_overlap parser lc
    = Some chunks ->
  Forall (fun c => path c = p /\ occurs_in (content c) text
                   /\ 0 <= chunk_index c /\ tier_marked file_ext c) chunks
  /\ StronglySorted Z.lt (List.map chunk_index chunks).
Proof.
  intros Hrun. destruct (split_chunks_origin _ _ _ _ _ _ _ _ Hrun) as [Hall Hs].
  split; [|exact Hs]. eapply List.Forall_impl; [|exact Hall].
  intros c (H1 & H2 & H3 & H4 & _). now repeat split.
Qed.

Lemma strip_head_visible s :
  strip s = [] \/ exists d t, strip s = d :: t /\ is_space d = false.
Proof.
  unfold strip. destruct (lstrip_head s) as [->|(d & t & -> & Hd)]; [now left|].
  right. destruct (rstrip_keeps_head d t Hd) as [t' ->]. now exists d, t'.
Qed.

(** X7.  A text of white space only gives no chunk at all, on every
    tier and whatever spans the splitters report. *)
Theorem blank_text_gives_no_chunks
    (p : str) (file_ext : string) (text : str) (chunk_chars chunk_overlap : Z)
    (parser : option (option node)) (lc : langchain_outcome) (chunks : list chunk) :
  (forall ch, In ch text -> is_space ch = true) ->
  split_text_to_code_chunks p file_ext text chunk_chars chunk_overlap parser lc
    = Some chunks ->
  chunks = [].
Proof.
  intros Hblank Hrun. destruct (split_chunks_origin _ _ _ _ _ _ _ _ Hrun) as [Hall _].
  destruct chunks as [|c rest]; [reflexivity|]. exfalso.
  apply Forall_inv in Hall.
  destruct Hall as (_ & (b & a & Hocc) & _ & _ & s & e & Hc & Hne).
  destruct (strip_head_visible (slice text s e)) as [E|(d & t & E & Hd)];
    [congruence|].
  rewrite Hc, E in Hocc.
  assert (is_space d = true); [|congruence].
  apply Hblank. rewrite Hocc. apply in_or_app. right. now left.
Qed.

Lemma In_enumerate {A} (x : A) (l : list A) :
  In x l -> exists idx, In (idx, x) (enumerate l).
Proof.
  intros H. rewrite <- (enumerate_snd l) in H.
  apply in_map_iff in H as ([idx y] & E & H). simpl in E. subst y. now exists idx.
Qed.

(** X8.  For a file without a tree-sitter parser, when the LangChain
    splitter is unavailable or fails, the internal splitter's chunks leave
    no visible character out: the line of every character that is not
    white space lies in the line range of some chunk. *)
Theorem fallback_chunks_cover_lines
    (p : str) (file_ext : string) (text : str) (chunk_chars chunk_overlap : Z)
    (lc : langchain_outcome) (chunks : list chunk) (i : Z) :
  0 < chunk_chars ->
  lc = LcUnavailable \/ lc = LcError ->
  split_text_to_code_chunks p file_ext text chunk_chars chunk_overlap None lc
    = Some chunks ->
  visible_at text i ->
  exists c, In c chunks
            /\ start_line c <= line_of (newline_positions_of text) i <= end_line c.
Proof.
  intros Hcs Hlc Hrun Hv. unfold split_text_to_code_chunks in Hrun. cbn [truthy] in Hrun.
  assert (Hch : chunks = recursive_chunks p text (newline_positions_of text)
                  (_fallback_recursive_split_spans text (_get_separators_for_file file_ext)
                     chunk_chars chunk_overlap)).
  { destruct Hlc as [-> | ->]; cbn [truthy] in Hrun; congruence. }
  subst chunks. clear Hrun.
  destruct (split_recursive_spec chunk_chars chunk_overlap Hcs
              (length (_get_separators_for_file file_ext) + 2)
              (_get_separators_for_file file_ext) text 0
              (or_introl (Nat.le_refl _))) as [Hb Hc].
  destruct (Hc i Hv) as ([a b] & Hin & Hab). simpl in Hab.
  rewrite List.Forall_forall in Hb. specialize (Hb _ Hin).
  unfold within in Hb. simpl in Hb.
  destruct (In_enumerate _ _ Hin) as [idx Hidx].
  set (nl := newline_positions_of text).
  pose proof (visible_slice_truthy text a b i ltac:(lia) ltac:(lia) ltac:(lia) Hv) as Ht.
  exists {| path := p; chunk_index := idx;
            start_line := line_of nl a; end_line := line_of nl b;
            content := strip (slice text a b);
            chunk_type := "recursive"; splitter := "recursive" |}.
  split.
  - unfold recursive_chunks. apply keep_some_In, in_map_iff.
    exists (idx, (a, b)). split; [|exact Hidx].
    unfold chunk_of_span. fold nl. now rewrite Ht.
  - simpl. split; apply line_of_mono; lia.
Qed.

End ChunkOriginFacts.

(** ** Embedding client: request budget and recovery *)

Section EmbedBudgetFacts.
Import Py Embedding Notions.

Lemma embed_batch_budget P bo retries_left attempt batch e :
  clients (fst (embed_batch P bo retries_left attempt batch e)) = clients e
  /\ (calls (fst (embed_batch P bo retries_left attempt batch e))
      <= calls e + retries_left + 1)%nat
  /\ (length (slept (fst (embed_batch P bo retries_left attempt batch e)))
      <= length (slept e) + retries_left)%nat.
Proof.
  revert attempt e. induction retries_left as [|n IH]; intros attempt e; simpl.
  - destruct (P (calls e) batch); simpl; lia.
  - destruct (P (calls e) batch); simpl; [lia|].
    destruct (IH (attempt + 1) (sleep (sleep_s bo (attempt + 1)) (request e)))
      as (Hc & Hr & Hs).
    rewrite Hc. simpl in *. rewrite length_app in Hs. simpl in Hs. lia.
Qed.

Lemma batches_step n bs :
  1 <= bs -> 1 <= n ->
  0 <= (Z.max 0 (n - bs) + bs - 1) / bs <= (n + bs - 1) / bs - 1.
Proof.
  intros Hbs Hn. split; [apply Z.div_pos; lia|].
  destruct (Z_lt_le_dec (n - bs) 0) as [Hlt|Hge].
  - replace (Z.max 0 (n - bs)) with 0 by lia.
    rewrite Z.div_small by lia.
    assert (1 <= (n + bs - 1) / bs); [|lia].
    apply Z.div_le_lower_bound; lia.
  - replace (Z.max 0 (n - bs) + bs - 1) with (n + bs - 1 + (-1) * bs) by lia.
    rewrite Z.div_add by lia. lia.
Qed.

Lemma embed_loop_budget P bs mr bo texts fuel i out e :
  1 <= bs ->
  let e' := fst (embed_loop P bs mr bo texts fuel i out e) in
  let batches := (Z.max 0 (len texts - i) + bs - 1) / bs in
  clients e' = clients e
  /\ Z.of_nat (calls e') <= Z.of_nat (calls e) + (Z.max 0 mr + 1) * batches
  /\ len (slept e') <= len (slept e) + Z.max 0 mr * batches.
Proof.
  intros Hbs. revert i out e.
  induction fuel as [|fuel IH]; intros i out e; cbn zeta; simpl embed_loop.
  - assert (0 <= (Z.max 0 (len texts - i) + bs - 1) / bs) by (apply Z.div_pos; lia).
    destruct (i <? len texts); simpl; nia.
  - destruct (i <? len texts) eqn:Ei.
    2:{ assert (0 <= (Z.max 0 (len texts - i) + bs - 1) / bs) by (apply Z.div_pos; lia).
        simpl. nia. }
    apply Z.ltb_lt in Ei.
    pose proof (embed_batch_budget P bo (Z.to_nat mr) 0 (slice texts i (i + bs)) e)
      as (Hc & Hr & Hs).
    pose proof (batches_step (len texts - i) bs Hbs ltac:(lia)) as Hstep.
    replace (Z.max 0 (len texts - i)) with (len texts - i) by lia.
    set (B := (len texts - i + bs - 1) / bs) in *.
    destruct (embed_batch P bo (Z.to_nat mr) 0 (slice texts i (i + bs)) e)
      as [e1 [vs|err|]] eqn:Eb; simpl in Hc, Hr, Hs.
    + specialize (IH (i + bs) (out ++ vs) e1). cbn zeta in IH.
      replace (len texts - (i + bs)) with (len texts - i - bs) in IH by lia.
      set (B' := (Z.max 0 (len texts - i - bs) + bs - 1) / bs) in *.
      destruct IH as (IHc & IHr & IHs).
      unfold len in *. split; [congruence|]. split; nia.
    + simpl. unfold len in *. split; [assumption|]. split; nia.
    + simpl. unfold len in *. split; [assumption|]. split; nia.
Qed.

(** X9.  Whatever the provider does, one call of [embed_texts_openai]
    with a batch size of at least 1 constructs at most one client, issues
    at most [max_retries + 1] requests per batch, that is at most
    [(max_retries + 1) * ceil(len(texts) / batch_size)] requests, and
    sleeps at most [max_retries] times per batch. *)
Theorem embed_request_budget (P : provider) (texts : list str)
    (batch_size max_retries : Z) (retry_backoff_sec : Q) (e : env) :
  1 <= batch_size ->
  let e' := fst (embed_texts_openai P texts batch_size max_retries retry_backoff_sec e) in
  let batches := (len texts + batch_size - 1) / batch_size in
  (clients e' <= clients e + 1)%nat
  /\ Z.of_nat (calls e') <= Z.of_nat (calls e) + (Z.max 0 max_retries + 1) * batches
  /\ len (slept e') <= len (slept e) + Z.max 0 max_retries * batches.
Proof.
  intros Hbs. cbn zeta. unfold embed_texts_openai.
  assert (0 <= (len texts + batch_size - 1) / batch_size)
    by (apply Z.div_pos; [pose proof (len_nonneg texts)|]; lia).
  destruct (negb (truthy texts)); simpl fst.
  - split; [lia|]. split; nia.
  - pose proof (embed_loop_budget P batch_size max_retries retry_backoff_sec texts
                  (length texts) 0 [] (new_client e) Hbs) as Hl.
    cbn zeta in Hl. pose proof (len_nonneg texts).
    replace (Z.max 0 (len texts - 0)) with (len texts) in Hl by lia.
    destruct Hl as (Hc & Hr & Hs). simpl in Hc, Hr, Hs.
    split; [lia|]. split; assumption.
Qed.

(** X10.  Transient failures are absorbed: when the texts fit in one
    batch and the provider fails [j <= max_retries] times before it
    replies, the call succeeds with the reply put in input order, after
    [j + 1] requests and [j] back-off sleeps. *)
Theorem embed_recovers_after_failures (P : provider) (texts : list str)
    (batch_size max_retries : Z) (retry_backoff_sec : Q) (e : env)
    (j : nat) (data : list datum) :
  texts <> [] -> len texts <= batch_size -> (j <= Z.to_nat max_retries)%nat ->
  (forall i, (i < j)%nat -> exists err, P (calls e + i)%nat texts = Fails err) ->
  P (calls e + j)%nat texts = Data data ->
  embed_texts_openai P texts batch_size max_retries retry_backoff_sec e
  = ({| clients := S (clients e);
        calls := (calls e + j + 1)%nat;
        slept := slept e
                 ++ List.map (fun i => sleep_s retry_backoff_sec (Z.of_nat i)) (seq 1 j) |},
     Ok (List.map snd (sorted_by fst data))).
Proof.
  intros Hne Hfit Hj Hfail Hok. unfold embed_texts_openai.
  destruct texts as [|t ts] eqn:Et; [congruence|]. rewrite <- Et in *.
  assert (Hlen : 1 <= len texts) by (subst texts; unfold len; simpl; lia).
  replace (negb (truthy texts)) with false by (subst texts; reflexivity).
  replace (length texts) with (S (length ts)) by (subst texts; reflexivity).
  cbn [embed_loop].
  replace (0 <? len texts) with true by (symmetry; apply Z.ltb_lt; lia).
  assert (Hslice : slice texts 0 (0 + batch_size) = texts).
  { unfold slice, norm_index. simpl (0 <? 0).
    replace (0 + batch_size <? 0) with false by (symmetry; apply Z.ltb_ge; lia).
    replace (Z.min 0 (len texts)) with 0 by lia.
    replace (Z.min (0 + batch_size) (len texts)) with (len texts) by lia.
    simpl skipn. rewrite Z.sub_0_r. unfold len. rewrite Nat2Z.id. apply firstn_all. }
  rewrite Hslice.
  rewrite (embed_batch_recovers P retry_backoff_sec texts j (Z.to_nat max_retries) 0
             (new_client e) data Hj Hfail Hok).
  destruct (length ts) as [|fuel]; cbn [embed_loop];
    (replace (0 + batch_size <? len texts) with false by (symmetry; apply Z.ltb_ge; lia));
    reflexivity.
Qed.

End EmbedBudgetFacts.

(** ** Vector store: what a run writes, and what a search reads *)

Section IndexFacts.
Import Py Chunking Embedding Store Notions.

(** No readable, non-blank file: the file loop collects nothing. *)
Lemma chunk_files_no_content tracker cc co files chunks n s :
  Forall (fun f => match f_read f with
                   | Some text => strip text = []
                   | None => True
                   end) files ->
  chunk_files tracker cc co files chunks n s = (s, Ok (chunks, n)).
Proof.
  induction 1 as [|fm rest Hfm _ IH]; simpl; [reflexivity|].
  destruct (f_read fm) as [text|]; [|exact IH]. now rewrite Hfm.
Qed.

(** X11.  When no file of the set can be read or every readable one is
    blank, indexing returns success with zero files and zero chunks
    without contacting the provider, and the session is touched by the
    first progress report only: nothing is deleted or written. *)
Theorem index_without_content_writes_nothing
    (P : provider) (E : store_env) (tracker : bool) (pid : Z)
    (files : list file_meta) (chunk_chars chunk_overlap : Z)
    (max_files : option Z) (w : world) :
  Forall (fun f => match f_read f with
                   | Some text => strip text = []
                   | None => True
                   end) files ->
  index_project_chunks_to_pgvector P E tracker pid files chunk_chars chunk_overlap
    max_files w
  = ({| db := emit_progress tracker (db w); net := net w |},
     Ok {| files_indexed := 0; chunks_written := 0; embedding_dim := None |}).
Proof.
  intros Hall. unfold index_project_chunks_to_pgvector.
  rewrite chunk_files_no_content; [reflexivity|].
  apply List.Forall_forall. intros f Hf.
  rewrite List.Forall_forall in Hall. apply Hall.
  destruct max_files as [m|].
  - unfold slice_to in Hf. apply In_firstn in Hf.
    apply filter_In in Hf. tauto.
  - apply filter_In in Hf. tauto.
Qed.

(** A run that writes rows writes the chunks paired with the vectors the
    provider gave for their contents. *)
Lemma index_rows_from_embedding P E tracker pid files cc co mf w res :
  snd (index_project_chunks_to_pgvector P E tracker pid files cc co mf w) = Ok res ->
  chunks_written res <> 0 ->
  exists chunks vectors e n,
    snd (chunk_files tracker cc co
           (match mf with
            | Some m =>
                slice_to (List.filter (fun f => truthy (f_absolute_path f) && truthy (f_path f))
                                      files) m
            | None =>
                List.filter (fun f => truthy (f_absolute_path f) && truthy (f_path f)) files
            end) [] 0 (emit_progress tracker (db w))) = Ok (chunks, n)
    /\ snd (embed_texts_openai P (List.map content chunks) default_batch_size
              default_max_retries default_retry_backoff_sec e) = Ok vectors
    /\ len vectors = len chunks
    /\ chunks_written res = len chunks
    /\ db (fst (index_project_chunks_to_pgvector P E tracker pid files cc co mf w))
       = db_commit (write (insert_rows (List.map (row_of pid) (combine chunks vectors)))
                      (write (delete_project_chunks pid) (emit_progress tracker (db w)))).
Proof.
  unfold index_project_chunks_to_pgvector.
  set (s0 := emit_progress tracker (db w)).
  set (code_files := match mf with Some m => _ | None => _ end).
  pose proof (chunk_files_session tracker cc co code_files [] 0 s0
                (emit_progress_idem tracker (db w))) as Hs.
  destruct (chunk_files tracker cc co code_files [] 0 s0) as [s [[chunks n]|err|]];
    simpl in Hs; subst s; [|discriminate|discriminate].
  destruct (negb (truthy chunks)) eqn:Echunks.
  { simpl. intros [= <-]. simpl. congruence. }
  simpl snd at 2.
  destruct (embedding_dimension P E (net w)) as [e [dim|err|]];
    [|discriminate|discriminate].
  destruct (schema_fails E || tx_failed _); [discriminate|].
  destruct (embed_texts_openai P (List.map content chunks) default_batch_size
              default_max_retries default_retry_backoff_sec e)
    as [e' [vectors|err|]] eqn:Eemb; [|discriminate|discriminate].
  destruct (negb (len vectors =? len chunks)) eqn:Elen; [discriminate|].
  pose proof (execute_values_cases (insert_result E)
                (List.map (row_of pid) (combine chunks vectors))
                (write (delete_project_chunks pid) s0)) as Hins.
  destruct (execute_values (insert_result E) _ _) as [s1 [u|err|]];
    [|discriminate|discriminate].
  subst s1. simpl. intros [= <-] _. simpl.
  apply negb_false_iff, Z.eqb_eq in Elen.
  exists chunks, vectors, e, n. rewrite Eemb. simpl.
  split; [reflexivity|]. split; [reflexivity|]. split; [assumption|]. split; [|reflexivity].
  unfold len in *. rewrite List.length_map, length_combine. lia.
Qed.



End IndexFacts.

Section SearchReadFacts.
Import Py Chunking Embedding Store Notions ExtraNotions.


(** X14.  With a provider faithful to an embedding function, a search
    without path prefix returns the nearest rows of the project: every
    hit is a project row scored by its distance to the embedding of the
    query, and every project row that is not returned is at least as far
    from the query as each hit. *)
Theorem search_returns_the_nearest
    (Emb : str -> vector) (P : provider) (E : store_env)
    (distance : vector -> vector -> Q) (pid : Z) (query : str) (k : Z) (w : world)
    (rows : list ChunkRow) :
  faithful Emb P ->
  snd (vector_search_project P E distance pid query k None w) = Ok rows ->
  Forall (fun hit => exists r, In r (chunks_of pid (pending (db w)))
                               /\ hit = hit_of distance (Emb query) r) rows
  /\ (forall r, In r (chunks_of pid (pending (db w))) ->
        In (hit_of distance (Emb query) r) rows
        \/ Forall (fun hit => (score hit <= distance (embedding r) (Emb query))%Q) rows).
Proof.
  intros Hf Hrun.
  destruct (vector_search_shape _ _ _ _ _ _ _ _ _ Hrun)
    as (qvec & e & matching & Hemb & Hk & _ & _ & _ & Hnone & ->).
  apply (embed_faithful_result Emb) in Hemb; [|lia|assumption].
  injection Hemb as -> _. rewrite (Hnone eq_refl). clear Hrun Hnone.
  set (le := fun a b => Qle_bool (distance (embedding a) (Emb query))
                                 (distance (embedding b) (Emb query))).
  set (ordered := sorted_with le (chunks_of pid (pending (db w)))).
  assert (Hsorted : StronglySorted (fun a b => le a b = true) ordered).
  { apply sorted_with_sorted.
    - intros x y. apply Qle_bool_total.
    - intros x y z. apply Qle_bool_trans. }
  split.
  - apply List.Forall_forall. intros hit Hhit.
    apply in_map_iff in Hhit as (r & <- & Hr). apply In_firstn in Hr.
    apply sorted_with_In in Hr. now exists r.
  - intros r Hr. apply (sorted_with_In le) in Hr. fold ordered in Hr.
    rewrite <- (firstn_skipn (Z.to_nat k) ordered) in Hr, Hsorted.
    apply in_app_or in Hr as [Hr|Hr].
    + left. now apply (in_map (hit_of distance (Emb query))) in Hr.
    + right. apply List.Forall_forall. intros hit Hhit.
      apply in_map_iff in Hhit as (x & <- & Hx). simpl.
      apply Qle_bool_iff.
      exact (StronglySorted_app_cross _ _ _ x r Hsorted Hx Hr).
Qed.

(** X15.  The search endpoint, case by case, on a session whose
    transaction has not failed.  A project that is missing or belongs to
    someone else is answered with 404, and an own project whose status is
    not [completed] with 400, in both cases before any request is made to
    the provider and with the world left as it is.  For an own, completed
    project the endpoint searches with [k = min(top_k, 50)] and no path
    prefix: what the search returns is returned, at most
    [min(top_k, 50)] hits, each a row of that project, with the session
    unchanged; every failure of the search becomes 500; and the endpoint
    never loops.  In a failed transaction the project lookup itself
    raises. *)
Theorem search_endpoint_guards
    (P : provider) (E : store_env) (distance : vector -> vector -> Q)
    (pid : Z) (query : str) (top_k current_user : Z) (w : world) :
  (tx_failed (db w) = true ->
   search_project_code P E distance pid query top_k current_user w
   = (w, Raise "InFailedSqlTransaction"))
  /\ (tx_failed (db w) = false ->
      (~ exists p, projects (pending (db w)) !! pid = Some p
                   /\ owner_id p = current_user) ->
      search_project_code P E distance pid query top_k current_user w
      = (w, Raise "404 Project not found"))
  /\ (forall p,
        tx_failed (db w) = false ->
        projects (pending (db w)) !! pid = Some p -> owner_id p = current_user ->
        preprocessing_status p <> "completed"%string ->
        search_project_code P E distance pid query top_k current_user w
        = (w, Raise "400 Project indexing status"))
  /\ (forall p,
        tx_failed (db w) = false ->
        projects (pending (db w)) !! pid = Some p -> owner_id p = current_user ->
        preprocessing_status p = "completed"%string ->
        match vector_search_project P E distance pid query (Z.min top_k 50) None w with
        | (w', Ok rows) =>
            search_project_code P E distance pid query top_k current_user w
            = (w', Ok rows)
            /\ 0 <= top_k /\ len rows <= Z.min top_k 50 /\ db w' = db w
            /\ Forall (fun hit => exists r, In r (chunks_of pid (pending (db w)))
                                            /\ project_id r = pid
                                            /\ cr_path hit = row_path r
                                            /\ cr_content hit = row_content r) rows
        | (w', Raise _) =>
            search_project_code P E distance pid query top_k current_user w
            = (w', Raise "500 Search failed")
        | (_, Hang) => False
        end).
Proof.
  unfold search_project_code. split; [|split; [|split]].
  - intros ->. reflexivity.
  - intros -> Hnone. destruct (projects (pending (db w)) !! pid) as [p|] eqn:Ep;
      [|reflexivity].
    destruct (owner_id p =? current_user) eqn:Eo; [|reflexivity].
    exfalso. apply Hnone. exists p. apply Z.eqb_eq in Eo. now split.
  - intros p -> -> Ho Hst. apply Z.eqb_eq in Ho. rewrite Ho. simpl negb. cbv iota.
    destruct (String.eqb (preprocessing_status p) "completed") eqn:Es; [|reflexivity].
    apply String.eqb_eq in Es. contradiction.
  - intros p -> -> Ho Hst. apply Z.eqb_eq in Ho. rewrite Ho, Hst. simpl negb. cbv iota.
    rewrite ?String.eqb_refl. simpl negb. cbv iota.
    pose proof (vector_search_never_hangs P E distance pid query (Z.min top_k 50) None w)
      as Hh.
    pose proof (vector_search_shape P E distance pid query (Z.min top_k 50) None w)
      as Hshape.
    pose proof (search_reads_only_project_rows_aux P E distance pid query
                  (Z.min top_k 50) None w) as Hread.
    destruct (vector_search_project P E distance pid query (Z.min top_k 50) None w)
      as [w' [rows|err|]]; simpl in *; [|reflexivity|congruence].
    destruct (Hshape rows eq_refl) as (_ & _ & _ & _ & Hk & _).
    destruct (Hread rows eq_refl) as (Hdb & Hall & Hlen & _).
    split; [reflexivity|]. split; [lia|]. split; [lia|]. split; [assumption|].
    eapply List.Forall_impl; [|exact Hall].
    intros hit (r & H1 & H2 & H3 & _ & _ & H6). exists r. now repeat split.
Qed.

End SearchReadFacts.

(** ** The reindexing script and the orchestrator as a whole *)

Section ScriptFacts.
Import Py Chunking Embedding Store Orchestrator Script Notions.

Lemma db_close_clean s : clean (db_close s).
Proof. split; reflexivity. Qed.

(** One call without tracker on a clean session: a normal return leaves
    the session clean, an exception leaves the committed state alone; the
    [projects] table and the rows of other projects are never touched. *)
Lemma index_call_committed P E pid files cc co mf w :
  clean (db w) ->
  let w' := fst (index_project_chunks_to_pgvector P E false pid files cc co mf w) in
  match snd (index_project_chunks_to_pgvector P E false pid files cc co mf w) with
  | Ok _ =>
      clean (db w')
      /\ projects (committed (db w')) = projects (committed (db w))
      /\ forall other, other <> pid ->
           chunks_of other (committed (db w')) = chunks_of other (committed (db w))
  | Raise _ => committed (db w') = committed (db w)
  | Hang => False
  end.
Proof.
  intros Hclean. cbn zeta.
  pose proof (index_session_cases P E false pid files cc co mf w) as Hcases.
  cbn zeta in Hcases. simpl emit_progress in Hcases.
  destruct (index_project_chunks_to_pgvector P E false pid files cc co mf w) as [w' r].
  simpl in *. destruct r as [res|err|]; [| |assumption].
  - destruct Hcases as [[_ ->]|(rows & _ & _ & Hpid & ->)].
    + split; [assumption|]. split; [reflexivity|]. reflexivity.
    + split; [apply db_commit_clean|].
      destruct Hclean as [Hf Hpc]. unfold db_commit, write; simpl. rewrite Hf. simpl.
      rewrite Hpc. split; [reflexivity|]. intros other Hother.
      rewrite (chunks_of_insert pid other rows _ Hpid), chunks_of_delete_other
        by assumption.
      destruct (other =? pid) eqn:Eo; [lia|apply app_nil_r].
  - destruct Hcases as [-> | [-> | [-> | (page & rows & _ & _ & [[_ ->] | [_ ->]])]]];
      reflexivity.
Qed.

Lemma reindex_projects_spec P E jobs w :
  clean (db w) ->
  let w' := fst (reindex_projects P E jobs w) in
  snd (reindex_projects P E jobs w) <> Hang
  /\ (snd (reindex_projects P E jobs w) = Ok tt -> clean (db w'))
  /\ projects (committed (db w')) = projects (committed (db w))
  /\ forall pid, (forall files, ~ In (pid, Some files) jobs) ->
       chunks_of pid (committed (db w')) = chunks_of pid (committed (db w)).
Proof.
  cbn zeta. revert w. induction jobs as [|[pid [files|]] rest IH]; intros w Hclean.
  - simpl. split; [discriminate|]. split; [intros _; assumption|].
    split; [reflexivity|]. intros; reflexivity.
  - cbn [reindex_projects].
    pose proof (index_call_committed P E pid files 1200 150 None w Hclean) as Hcall.
    cbn zeta in Hcall.
    destruct (index_project_chunks_to_pgvector P E false pid files 1200 150 None w)
      as [w1 [res|err|]]; simpl in Hcall; [| |contradiction].
    + destruct Hcall as (Hc1 & Hp1 & Ho1).
      destruct (IH w1 Hc1) as (Hh & Hc & Hp & Ho).
      split; [assumption|]. split; [assumption|]. split; [congruence|].
      intros other Hother. rewrite Ho.
      * apply Ho1. intros ->. apply (Hother files). now left.
      * intros fs Hin. apply (Hother fs). now right.
    + simpl. split; [discriminate|]. split; [discriminate|].
      rewrite Hcall. now split.
  - cbn [reindex_projects]. destruct (IH w Hclean) as (Hh & Hc & Hp & Ho).
    split; [assumption|]. split; [assumption|]. split; [assumption|].
    intros other Hother. apply Ho. intros fs Hin. apply (Hother fs). now right.
Qed.

(** X16.  The reindexing script, once its arguments are parsed and
    started on a clean session: [main] ends, returns 1 exactly when no
    project matches and 0 exactly when every located project has been
    indexed, and leaves the session closed and clean; the process exits
    with status 0 in that second case only, and with status 1 both when
    no project matches and when an index call raises.  The [projects]
    table is never changed, and the committed rows of every project that
    was not indexed (one that is not selected, or whose folder cannot be
    located) are as before. *)
Theorem reindex_main_touches_only_its_projects
    (P : provider) (E : store_env)
    (jobs : list (Z * option (list file_meta))) (w : world) :
  clean (db w) ->
  let w' := fst (main P E jobs w) in
  snd (main P E jobs w) <> Hang
  /\ clean (db w')
  /\ (snd (main P E jobs w) = Ok 1 <-> jobs = [])
  /\ (snd (main P E jobs w) = Ok 0
      <-> jobs <> [] /\ snd (reindex_projects P E jobs w) = Ok tt)
  /\ (forall err, snd (main P E jobs w) = Raise err
                  <-> jobs <> [] /\ snd (reindex_projects P E jobs w) = Raise err)
  /\ fst (exit_status P E jobs w) = w'
  /\ (snd (exit_status P E jobs w) = Ok 0 <-> snd (main P E jobs w) = Ok 0)
  /\ (snd (exit_status P E jobs w) = Ok 1
      <-> jobs = [] \/ exists err, snd (reindex_projects P E jobs w) = Raise err)
  /\ projects (committed (db w')) = projects (committed (db w))
  /\ forall pid, (forall files, ~ In (pid, Some files) jobs) ->
       chunks_of pid (committed (db w')) = chunks_of pid (committed (db w)).
Proof.
  intros Hclean. cbn zeta. unfold exit_status, main.
  destruct jobs as [|j rest] eqn:Ej; simpl negb; cbv iota.
  - simpl. split; [discriminate|]. split; [apply db_close_clean|].
    split; [tauto|]. split; [split; [discriminate|intros [H _]; congruence]|].
    split; [intros err; split; [discriminate|intros [H _]; congruence]|].
    split; [reflexivity|]. split; [tauto|]. split; [split; [now left|reflexivity]|].
    now split.
  - rewrite <- Ej.
    assert (Hne : jobs <> []) by (rewrite Ej; discriminate).
    destruct (reindex_projects_spec P E jobs w Hclean) as (Hh & _ & Hp & Ho).
    destruct (reindex_projects P E jobs w) as [w1 [[]|err|]]; simpl in *;
      [| |congruence].
    + split; [discriminate|]. split; [apply db_close_clean|].
      split; [split; [discriminate|intros H; congruence]|].
      split; [split; [now split|reflexivity]|].
      split; [intros e; split; [discriminate|intros [_ H]; discriminate]|].
      split; [reflexivity|]. split; [tauto|].
      split; [split; [discriminate|intros [H|(e & H)]; [congruence|discriminate]]|].
      now split.
    + split; [discriminate|]. split; [apply db_close_clean|].
      split; [split; [discriminate|intros H; congruence]|].
      split; [split; [discriminate|intros [_ H]; discriminate]|].
      split; [intros e; split; [intros [= <-]; now split|intros [_ [= <-]]; reflexivity]|].
      split; [reflexivity|]. split; [split; discriminate|].
      split; [split; [intros _; right; now exists err|reflexivity]|].
      now split.
Qed.

End ScriptFacts.

Section RunFacts.
Import Py Chunking Embedding Store Orchestrator Notions.

(** The embedding stage never hangs by itself and, followed by the
    closing progress report, leaves the [projects] table as committed
    before it. *)
Lemma index_stage_keeps_projects P E tracker pid files cc co mf w :
  clean (db w) ->
  snd (index_project_chunks_to_pgvector P E tracker pid files cc co mf w) <> Hang
  /\ projects
       (committed
          (emit_progress tracker
             (db (fst (index_project_chunks_to_pgvector P E tracker pid files cc co mf w)))))
     = projects (committed (db w)).
Proof.
  intros Hclean.
  pose proof (index_session_cases P E tracker pid files cc co mf w) as Hcases.
  cbn zeta in Hcases. rewrite (emit_progress_clean _ _ Hclean) in Hcases.
  destruct (index_project_chunks_to_pgvector P E tracker pid files cc co mf w) as [w' r].
  simpl in *. destruct Hclean as [Hf Hpc].
  destruct r as [res|err|]; [| |contradiction]; (split; [discriminate|]).
  - destruct Hcases as [[_ ->]|(rows & _ & _ & _ & ->)].
    + rewrite (emit_progress_clean _ _ (conj Hf Hpc)). reflexivity.
    + rewrite (emit_progress_clean _ _ (db_commit_clean _)).
      unfold db_commit, write; simpl. rewrite Hf. simpl. now rewrite Hpc.
  - destruct Hcases as [-> | [-> | [-> | (page & rows & _ & _ & [[_ ->] | [_ ->]])]]];
      destruct tracker; simpl;
      unfold db_commit; simpl; rewrite ?Hf; simpl; rewrite ?Hpc; reflexivity.
Qed.

(** X17.  What a run on a clean session returns, and how it leaves the
    project, is decided by the analysis and the workflow step alone,
    whatever the embedding provider and the store do: it returns normally
    exactly when both steps succeed, with the project committed as
    [completed] together with its analysis; it raises exactly when one of
    them raises, with the project committed as [failed]; it hangs only
    when one of them hangs.  No other project is changed. *)
Theorem run_outcome_and_status
    (P : provider) (E : store_env) (W : workflow_env) (tracker : bool)
    (pid : Z) (w : world) (p : project) :
  clean (db w) -> projects (committed (db w)) !! pid = Some p ->
  let w' := fst (run_indexing_workflow P E W tracker pid w) in
  match snd (run_indexing_workflow P E W tracker pid w) with
  | Ok res =>
      exists an all_files,
        analysis_result W = Ok an /\ workflow_result W = Ok all_files
        /\ res = {| success := true; run_project_id := pid;
                    run_total_files := len all_files; run_framework := framework an |}
        /\ projects (committed (db w'))
           = <[pid := set_status "completed" (Some an) p]> (projects (committed (db w)))
  | Raise err =>
      (analysis_result W = Raise err
       \/ (exists an, analysis_result W = Ok an /\ workflow_result W = Raise err))
      /\ projects (committed (db w'))
         = <[pid := set_status "failed" None p]> (projects (committed (db w)))
  | Hang =>
      (analysis_result W = Hang
       \/ (exists an, analysis_result W = Ok an /\ workflow_result W = Hang))
      /\ committed (db w') = committed (db w)
  end.
Proof.
  intros Hclean Hp. cbn zeta.
  assert (Halter : forall f, alter f pid (projects (committed (db w)))
                             = <[pid := f p]> (projects (committed (db w)))).
  { intros f. apply map_eq. intros k. destruct (decide (k = pid)) as [->|Hne].
    - rewrite lookup_alter_eq, lookup_insert_eq, Hp. reflexivity.
    - rewrite lookup_alter_ne, lookup_insert_ne by congruence. reflexivity. }
  destruct (analysis_result W) as [an|err|] eqn:Ha.
  - destruct (workflow_result W) as [files|err|] eqn:Hw.
    + unfold run_indexing_workflow.
      rewrite !(emit_progress_clean _ _ Hclean), Ha, Hw.
      destruct Hclean as [Hf Hpc]. rewrite Hf, Hpc, Hp.
      rewrite (commit_write_clean _ _ (conj Hf Hpc)).
      set (U := update_project pid (set_status "completed" (Some an)) (committed (db w))).
      set (mid := {| db := {| committed := U; pending := U; tx_failed := false |};
                     net := net w |}).
      assert (Hmid : clean (db mid)) by (split; reflexivity).
      destruct (index_stage_keeps_projects P E tracker pid files 1200 150 None mid Hmid)
        as [Hh Hproj].
      destruct (index_project_chunks_to_pgvector P E tracker pid files 1200 150 None mid)
        as [w1 [res|err|]]; simpl in Hh, Hproj |- *; [| |congruence];
        exists an, files; (split; [reflexivity|]); (split; [reflexivity|]);
        (split; [reflexivity|]); rewrite Hproj; unfold U; simpl; apply Halter.
    + destruct (early_failure_marks_failed P E W tracker pid w err Hclean
                  ltac:(rewrite Hp; eauto)
                  ltac:(right; exists an; now split)) as (w1 & -> & Hc).
      simpl. split; [right; now exists an|]. rewrite Hc. simpl. apply Halter.
    + unfold run_indexing_workflow.
      rewrite !(emit_progress_clean _ _ Hclean), Ha, Hw. simpl.
      split; [right; now exists an|reflexivity].
  - destruct (early_failure_marks_failed P E W tracker pid w err Hclean
                ltac:(rewrite Hp; eauto) ltac:(now left)) as (w1 & -> & Hc).
    simpl. split; [now left|]. rewrite Hc. simpl. apply Halter.
  - unfold run_indexing_workflow.
    rewrite !(emit_progress_clean _ _ Hclean), Ha. simpl.
    split; [now left|reflexivity].
Qed.

End RunFacts.

(** ** Repository analyzer: framework, language and entry points *)

Section AnalyzerFacts.
Import Py Framework Analyzer Notions ExtraNotions.
Local Open Scope string_scope.

Lemma first_greatest_cons_skip {A} (key : A -> Z) (a : A) (l : list A) (x : A) :
  key a < key x -> first_greatest key l x -> first_greatest key (a :: l) x.
Proof.
  intros Ha (pre & post & -> & Hpre & Hpost).
  exists (a :: pre), post. split; [reflexivity|]. split; [|assumption].
  intros y [<-|Hy]; [assumption|now apply Hpre].
Qed.

Lemma first_greatest_cons_take {A} (key : A -> Z) (a : A) (l : list A) :
  (forall y, In y l -> key y <= key a) -> first_greatest key (a :: l) a.
Proof. intros H. exists [], l. split; [reflexivity|]. split; [intros y []|assumption]. Qed.

Lemma first_greatest_bound {A} (key : A -> Z) (l : list A) (x y : A) :
  first_greatest key l x -> In y l -> key y <= key x.
Proof.
  intros (pre & post & -> & Hpre & Hpost) Hy.
  apply in_app_or in Hy as [Hy|[<-|Hy]]; [apply Hpre in Hy; lia|lia|now apply Hpost].
Qed.

(** The head of a descending stable sort of the positive entries is the
    first entry with the greatest score. *)
Lemma best_positive_spec {A} (key : A -> Z) (l : list A) :
  match sorted_by_desc key (List.filter (fun x => key x >? 0)%Z l) with
  | x :: _ => (0 < key x)%Z /\ first_greatest key l x
  | [] => forall y, In y l -> (key y <= 0)%Z
  end.
Proof.
  induction l as [|a l IH]; [intros y []|].
  cbn [List.filter]. destruct (key a >? 0)%Z eqn:Ea.
  - unfold sorted_by_desc, sorted_with in *. cbn [List.fold_right].
    destruct (List.fold_right _ _ _) as [|h t] eqn:Es.
    + simpl. split; [lia|]. apply first_greatest_cons_take.
      intros y Hy. specialize (IH y Hy). lia.
    + simpl. destruct IH as [Hh Hfg]. destruct (key h <=? key a)%Z eqn:El.
      * split; [lia|]. apply first_greatest_cons_take.
        intros y Hy. pose proof (first_greatest_bound key l h y Hfg Hy). lia.
      * split; [assumption|]. apply first_greatest_cons_skip; [lia|assumption].
  - destruct (sorted_by_desc key _) as [|h t].
    + intros y [<-|Hy]; [lia|now apply IH].
    + destruct IH as [Hh Hfg]. split; [assumption|].
      apply first_greatest_cons_skip; [lia|assumption].
Qed.

Lemma first_greatest_map {A B} (f : A -> B) (key : B -> Z) (l : list A) (y : B) :
  first_greatest key (List.map f l) y ->
  exists x, f x = y /\ first_greatest (fun a => key (f a)) l x.
Proof.
  intros (pre & post & Hl & Hpre & Hpost).
  apply map_eq_app in Hl as (pre' & rest & -> & <- & Hrest).
  apply map_eq_cons in Hrest as (x & post' & -> & <- & <-).
  exists x. split; [reflexivity|]. exists pre', post'. split; [reflexivity|].
  split; intros a Ha; [apply Hpre|apply Hpost]; now apply in_map.
Qed.

(** X18.  [_detect_framework] returns the framework with the greatest
    positive score, and of several with that score the first in the order
    of [FRAMEWORK_PATTERNS]; it returns nothing exactly when no framework
    scores above zero. *)
Theorem detect_framework_first_greatest (r : repo) :
  match _detect_framework r with
  | Some fw =>
      exists p,
        (0 < framework_score r p)%Z
        /\ first_greatest (fun fp => framework_score r (snd fp)) FRAMEWORK_PATTERNS (fw, p)
  | None =>
      forall fw p, In (fw, p) FRAMEWORK_PATTERNS -> (framework_score r p <= 0)%Z
  end.
Proof.
  unfold _detect_framework.
  pose proof (best_positive_spec snd
                (List.map (fun fp => (fst fp, framework_score r (snd fp)))
                          FRAMEWORK_PATTERNS)) as H.
  destruct (sorted_by_desc snd _) as [|[fw sc] t].
  - intros fw p Hin.
    apply (H (fw, framework_score r p)).
    apply (in_map (fun fp => (fst fp, framework_score r (snd fp))) _ (fw, p) Hin).
  - destruct H as [Hpos Hfg].
    apply first_greatest_map in Hfg as ([fw' p] & Heq & Hfg).
    simpl in Heq. injection Heq as -> <-. exists p. split; [exact Hpos|exact Hfg].
Qed.

Lemma first_greatest_snoc_keep {A} (key : A -> Z) (l : list A) (x a : A) :
  (key a <= key x)%Z -> first_greatest key l x -> first_greatest key (l ++ [a]) x.
Proof.
  intros Ha (pre & post & -> & Hpre & Hpost).
  exists pre, (post ++ [a])%list. split; [now rewrite <- app_assoc|].
  split; [assumption|]. intros y Hy.
  apply in_app_or in Hy as [Hy|[<-|[]]]; [now apply Hpost|assumption].
Qed.

Lemma first_greatest_snoc_take {A} (key : A -> Z) (l : list A) (x a : A) :
  (key x < key a)%Z -> first_greatest key l x -> first_greatest key (l ++ [a]) a.
Proof.
  intros Ha Hfg. exists l, []. split; [reflexivity|]. split; [|intros y []].
  intros y Hy. pose proof (first_greatest_bound key l x y Hfg Hy). lia.
Qed.

Lemma max_by_lines_first_greatest (processed : list (string * Z)) (best : string * Z)
    (rest : list (string * Z)) :
  first_greatest snd processed best ->
  exists n, first_greatest snd (processed ++ rest) (max_by_lines best rest, n).
Proof.
  revert processed best. induction rest as [|kv rest IH]; intros processed best Hfg.
  - simpl. exists (snd best). rewrite app_nil_r. now destruct best.
  - cbn [max_by_lines]. replace (processed ++ kv :: rest)%list
      with ((processed ++ [kv]) ++ rest)%list by now rewrite <- app_assoc.
    destruct (snd kv >? snd best)%Z eqn:E; apply IH.
    + apply (first_greatest_snoc_take snd processed best kv); [lia|assumption].
    + apply first_greatest_snoc_keep; [lia|assumption].
Qed.

(** X19.  [_detect_primary_language] answers [unknown] when no language
    has been counted, and otherwise the language with the most lines, the
    first one counted among several with the most. *)
Theorem primary_language_first_greatest (language_stats : list (string * Z)) :
  match language_stats with
  | [] => _detect_primary_language language_stats = "unknown"
  | _ :: _ =>
      exists lines,
        first_greatest snd language_stats (_detect_primary_language language_stats, lines)
  end.
Proof.
  destruct language_stats as [|kv rest]; [reflexivity|].
  apply (max_by_lines_first_greatest [kv] kv rest).
  exists [], []. split; [reflexivity|]. split; intros y [].
Qed.

Lemma add_matches_spec (matches entry_points : list string) :
  List.NoDup entry_points ->
  List.NoDup (add_matches matches entry_points)
  /\ (forall x, In x (add_matches matches entry_points) <->
                In x entry_points \/ In x matches)
  /\ exists added, add_matches matches entry_points = (entry_points ++ added)%list.
Proof.
  revert entry_points. induction matches as [|m rest IH]; intros eps Hnd; simpl.
  - split; [assumption|]. split; [tauto|]. exists []. now rewrite app_nil_r.
  - destruct (mem m eps) eqn:Em.
    + destruct (IH eps Hnd) as (H1 & H2 & H3). split; [assumption|]. split; [|assumption].
      intros x. rewrite H2. apply mem_true_iff in Em.
      split; [tauto|]. intros [H|[<-|H]]; tauto.
    + assert (Hnd' : List.NoDup (eps ++ [m])).
      { apply List.NoDup_app; [assumption|repeat constructor; intros []|].
        intros x Hx [<-|[]]. apply mem_true_iff in Hx. congruence. }
      destruct (IH (eps ++ [m])%list Hnd') as (H1 & H2 & added & H3).
      split; [assumption|]. split.
      * intros x. rewrite H2, in_app_iff. simpl. tauto.
      * exists (m :: added). rewrite H3, <- app_assoc. reflexivity.
Qed.

Lemma fold_add_matches_spec (rglob : string -> list string) (patterns eps : list string) :
  List.NoDup eps ->
  List.NoDup (List.fold_left (fun e pattern => add_matches (rglob pattern) e) patterns eps)
  /\ (forall x,
        In x (List.fold_left (fun e pattern => add_matches (rglob pattern) e) patterns eps)
        <-> In x eps \/ exists pattern, In pattern patterns /\ In x (rglob pattern)).
Proof.
  revert eps. induction patterns as [|pat rest IH]; intros eps Hnd; simpl.
  - split; [assumption|]. intros x. split; [tauto|]. intros [H|(p & [] & _)]. assumption.
  - destruct (add_matches_spec (rglob pat) eps Hnd) as (H1 & H2 & _).
    destruct (IH _ H1) as (H3 & H4). split; [assumption|].
    intros x. rewrite H4, H2. split.
    + intros [[H|H]|(p & Hp & Hx)]; [now left|right; exists pat; split; [now left|assumption]|].
      right. exists p. split; [now right|assumption].
    + intros [H|(p & [<-|Hp] & Hx)]; [tauto|tauto|]. right. now exists p.
Qed.

Lemma NoDup_firstn_keep {A} (n : nat) (l : list A) : List.NoDup l -> List.NoDup (firstn n l).
Proof.
  intros H. revert n. induction H as [|x l Hx Hnd IH]; intros [|n]; simpl; try constructor.
  - intros Hin. apply Hx. rewrite <- (firstn_skipn n l). apply in_or_app. now left.
  - apply IH.
Qed.

(** X20.  [_find_entry_points] returns at most five paths, no path
    twice, and each of them a match of one of the entry point patterns. *)
Theorem entry_points_distinct_matches (rglob : string -> list string) :
  (length (_find_entry_points rglob) <= 5)%nat
  /\ List.NoDup (_find_entry_points rglob)
  /\ Forall (fun ep => exists language patterns pattern,
                         In (language, patterns) ENTRY_POINT_PATTERNS
                         /\ In pattern patterns /\ In ep (rglob pattern))
            (_find_entry_points rglob).
Proof.
  unfold _find_entry_points.
  assert (H : forall (table : list (string * list string)) (eps : list string),
            List.NoDup eps ->
            List.NoDup
              (List.fold_left
                 (fun entry_points lp =>
                    List.fold_left (fun e pattern => add_matches (rglob pattern) e)
                                   (snd lp) entry_points) table eps)
            /\ forall x,
                 In x (List.fold_left
                         (fun entry_points lp =>
                            List.fold_left (fun e pattern => add_matches (rglob pattern) e)
                                           (snd lp) entry_points) table eps) ->
                 In x eps \/ exists lp pattern,
                               In lp table /\ In pattern (snd lp) /\ In x (rglob pattern)).
  { induction table as [|lp rest IH]; intros eps Hnd; simpl; [split; [assumption|tauto]|].
    destruct (fold_add_matches_spec rglob (snd lp) eps Hnd) as (H1 & H2).
    destruct (IH _ H1) as (H3 & H4). split; [assumption|].
    intros x Hx. apply H4 in Hx as [Hx|(lp' & p & Hlp & Hp & Hx)].
    - apply H2 in Hx as [Hx|(p & Hp & Hx)]; [now left|].
      right. exists lp, p. split; [now left|now split].
    - right. exists lp', p. split; [now right|now split]. }
  destruct (H ENTRY_POINT_PATTERNS [] ltac:(constructor)) as (Hnd & Hin).
  split; [rewrite length_firstn; lia|]. split; [now apply NoDup_firstn_keep|].
  apply List.Forall_forall. intros ep Hep. apply In_firstn in Hep.
  apply Hin in Hep as [[]|([lang pats] & p & Hlp & Hp & Hx)].
  exists lang, pats, p. now repeat split.
Qed.

Lemma fold_first_matches (rglob : string -> list string) (patterns acc : list string) :
  List.fold_left (fun important pattern => (important ++ firstn 1 (rglob pattern))%list)
                 patterns acc
  = (acc ++ List.flat_map (fun pattern => firstn 1 (rglob pattern)) patterns)%list.
Proof.
  revert acc. induction patterns as [|p rest IH]; intros acc; simpl.
  - now rewrite app_nil_r.
  - rewrite IH, <- app_assoc. reflexivity.
Qed.

(** X24.  [_identify_important_files] lists at most ten files, each the
    first match of one of the important patterns, in the order of the
    patterns and with at most one file per pattern. *)
Theorem important_files_first_matches (rglob : string -> list string) :
  _identify_important_files rglob
  = firstn 10 (List.flat_map (fun pattern => firstn 1 (rglob pattern)) important_patterns)
  /\ (length (_identify_important_files rglob) <= 10)%nat
  /\ Forall (fun f => exists pattern,
                        In pattern important_patterns
                        /\ hd_error (rglob pattern) = Some f)
            (_identify_important_files rglob).
Proof.
  unfold _identify_important_files. rewrite fold_first_matches, app_nil_l.
  split; [reflexivity|]. split; [rewrite length_firstn; lia|].
  apply List.Forall_forall. intros f Hf. apply In_firstn in Hf.
  apply in_flat_map in Hf as (p & Hp & Hf). exists p. split; [assumption|].
  destruct (rglob p) as [|m ms]; simpl in Hf; [contradiction|].
  destruct Hf as [<-|[]]. reflexivity.
Qed.

End AnalyzerFacts.

(** ** Prompt formatting *)

Section PromptFacts.
Import Py Store Prompt Notions ExtraNotions.

Lemma total_len_app l1 l2 : total_len (l1 ++ l2) = total_len l1 + total_len l2.
Proof.
  unfold total_len. induction l1 as [|b l1 IH]; simpl; [reflexivity|].
  rewrite IH. lia.
Qed.

Lemma total_len_nonneg l : 0 <= total_len l.
Proof.
  unfold total_len. induction l as [|b l IH]; simpl; [lia|].
  pose proof (len_nonneg b). lia.
Qed.

(** The loop takes a prefix of the blocks: the longest one that fits the
    budget, and the first block in any case. *)
Lemma select_blocks_spec max_chars blocks parts used :
  used = total_len parts ->
  (length parts <= 1)%nat \/ total_len parts <= max_chars ->
  exists n,
    (n <= length blocks)%nat
    /\ select_blocks max_chars blocks parts used = parts ++ firstn n blocks
    /\ (parts = [] -> blocks <> [] -> (1 <= n)%nat)
    /\ ((length (parts ++ firstn n blocks) <= 1)%nat
        \/ total_len (parts ++ firstn n blocks) <= max_chars)
    /\ ((n < length blocks)%nat ->
        max_chars < total_len (parts ++ firstn (S n) blocks)).
Proof.
  revert parts used. induction blocks as [|b rest IH]; intros parts used Hused Hinv.
  - exists 0%nat. simpl. rewrite app_nil_r. split; [lia|]. split; [reflexivity|].
    split; [congruence|]. split; [assumption|lia].
  - cbn [select_blocks].
    destruct ((used + len b >? max_chars) && truthy parts) eqn:Ec.
    + apply andb_true_iff in Ec as [Eu Et]. exists 0%nat. simpl. rewrite app_nil_r.
      split; [lia|]. split; [reflexivity|].
      split; [intros ->; discriminate|]. split; [assumption|].
      intros _. rewrite total_len_app. unfold total_len at 2. simpl. lia.
    + assert (Hinv' : (length (parts ++ [b]) <= 1)%nat
                      \/ total_len (parts ++ [b]) <= max_chars).
      { apply andb_false_iff in Ec as [Eu|Et].
        - right. rewrite total_len_app. unfold total_len at 2. simpl. lia.
        - left. destruct parts; [simpl; lia|discriminate]. }
      destruct (IH (parts ++ [b]) (used + len b)) as (n & Hn & Hsel & _ & Hfit & Hmax).
      { rewrite total_len_app. unfold total_len at 2. simpl. lia. }
      { exact Hinv'. }
      exists (S n). simpl firstn. simpl length.
      replace (parts ++ b :: firstn n rest) with ((parts ++ [b]) ++ firstn n rest)
        by now rewrite <- app_assoc.
      split; [lia|]. split; [exact Hsel|]. split; [lia|]. split; [exact Hfit|].
      intros Hlt.
      replace (parts ++ b :: firstn (S n) rest) with ((parts ++ [b]) ++ firstn (S n) rest)
        by now rewrite <- app_assoc.
      apply Hmax. lia.
Qed.

Lemma len_app {A} (a b : list A) : len (a ++ b) = len a + len b.
Proof. unfold len. rewrite length_app. lia. Qed.

Lemma len_cons {A} (x : A) (l : list A) : len (x :: l) = len l + 1.
Proof. unfold len. simpl length. lia. Qed.

Lemma join_len sep parts :
  parts <> [] ->
  len (join sep parts) = total_len parts + (len parts - 1) * len sep.
Proof.
  induction parts as [|p rest IH]; [congruence|]. intros _.
  destruct rest as [|q rest].
  - unfold total_len, len. simpl. lia.
  - specialize (IH ltac:(discriminate)).
    change (join sep (p :: q :: rest)) with (p ++ sep ++ join sep (q :: rest)).
    rewrite !len_app, IH, !len_cons.
    change (total_len (p :: q :: rest)) with (len p + total_len (q :: rest)). lia.
Qed.

Lemma lstrip_len s : len (lstrip s) <= len s.
Proof.
  unfold len. induction s as [|c s IH]; simpl; [lia|].
  destruct (is_space c); simpl; lia.
Qed.

Lemma strip_len s : len (strip s) <= len s.
Proof.
  unfold strip, rstrip. pose proof (lstrip_len s). pose proof (lstrip_len (rev (lstrip s))).
  unfold len in *. rewrite length_rev in *. lia.
Qed.

(** X21.  [format_chunks_for_prompt] renders a prefix of the hits, in
    their order: the first hit always, and then as many as keep the
    blocks within [max_chars]; the next block, if any, would exceed it.
    The joining newlines are not counted, so the text is at most the
    blocks' characters plus one newline between two blocks. *)
Theorem prompt_takes_longest_fitting_prefix
    (fmt_score : Q -> str) (chunks : list hit) (max_chars : Z) :
  exists n,
    (n <= length chunks)%nat
    /\ format_chunks_for_prompt fmt_score chunks max_chars
       = strip (join nl (List.map (block fmt_score) (firstn n chunks)))
    /\ (chunks <> [] -> (1 <= n)%nat)
    /\ ((n <= 1)%nat
        \/ total_len (List.map (block fmt_score) (firstn n chunks)) <= max_chars)
    /\ ((n < length chunks)%nat ->
        max_chars < total_len (List.map (block fmt_score) (firstn (S n) chunks)))
    /\ len (format_chunks_for_prompt fmt_score chunks max_chars)
       <= total_len (List.map (block fmt_score) (firstn n chunks)) + Z.of_nat (n - 1).
Proof.
  unfold format_chunks_for_prompt.
  destruct (select_blocks_spec max_chars (List.map (block fmt_score) chunks) [] 0
              eq_refl ltac:(left; simpl; lia)) as (n & Hn & Hsel & Hfirst & Hfit & Hmax).
  rewrite List.length_map in Hn, Hmax. simpl in Hsel, Hfit, Hmax.
  rewrite Hsel. rewrite !firstn_map in *.
  exists n. split; [assumption|]. split; [reflexivity|].
  split.
  { intros Hne. apply Hfirst; [reflexivity|]. destruct chunks; [congruence|discriminate]. }
  split.
  { destruct Hfit as [Hl|Ht]; [left|right; assumption].
    rewrite List.length_map, length_firstn in Hl. lia. }
  split; [assumption|].
  set (sel := List.map (block fmt_score) (firstn n chunks)).
  assert (Hlen : length sel = n).
  { unfold sel. rewrite List.length_map, length_firstn. lia. }
  pose proof (strip_len (join nl sel)) as Hs.
  destruct sel as [|b rest] eqn:Esel.
  - simpl in *. subst n. unfold total_len. simpl. vm_compute. discriminate.
  - rewrite join_len in Hs by discriminate. rewrite <- Hlen.
    unfold len in Hs at 3. unfold nl in Hs at 2. simpl length in Hs.
    unfold len in Hs at 2. simpl length in *. lia.
Qed.

End PromptFacts.

(** ** Rows of one run and the table's uniqueness constraint *)

Section RowKeyFacts.
Import Py Chunking Embedding Store Notions ExtraNotions.

Lemma sorted_lt_NoDup (l : list Z) : StronglySorted Z.lt l -> List.NoDup l.
Proof.
  induction 1 as [|x l Hs IH Hall]; constructor; [|exact IH].
  intros Hin. rewrite List.Forall_forall in Hall. specialize (Hall x Hin). lia.
Qed.

(** The chunks of one file have distinct keys. *)
Lemma file_chunk_keys p file_ext text cc co parser lc chunks :
  split_text_to_code_chunks p file_ext text cc co parser lc = Some chunks ->
  List.NoDup (List.map chunk_key chunks) /\ Forall (fun c => path c = p) chunks.
Proof.
  intros Hrun. destruct (split_chunks_origin _ _ _ _ _ _ _ _ Hrun) as [Hall Hs].
  split.
  - apply sorted_lt_NoDup in Hs.
    apply (NoDup_map_inv (fun k : str * Z => snd k)). now rewrite List.map_map.
  - eapply List.Forall_impl; [|exact Hall]. intros c H. exact (proj1 H).
Qed.

Lemma NoDup_map_filter {A B} (f : A -> B) (g : A -> bool) (l : list A) :
  List.NoDup (List.map f l) -> List.NoDup (List.map f (List.filter g l)).
Proof.
  induction l as [|x l IH]; simpl; [constructor|].
  intros H. inversion H as [|? ? Hx Hnd]; subst.
  destruct (g x); simpl; [|now apply IH].
  constructor; [|now apply IH].
  intros Hin. apply Hx. apply in_map_iff in Hin as (y & Hy & Hin).
  apply filter_In in Hin as [Hin _]. apply in_map_iff. now exists y.
Qed.

Lemma NoDup_map_firstn {A B} (f : A -> B) (n : nat) (l : list A) :
  List.NoDup (List.map f l) -> List.NoDup (List.map f (firstn n l)).
Proof. rewrite <- firstn_map. apply NoDup_firstn_keep. Qed.

(** The file loop over files of distinct paths collects chunks of
    distinct keys. *)
Lemma chunk_files_keys tracker cc co files acc n s chunks n' :
  snd (chunk_files tracker cc co files acc n s) = Ok (chunks, n') ->
  List.NoDup (List.map f_path files) ->
  List.NoDup (List.map chunk_key acc) ->
  (forall c f, In c acc -> In f files -> path c <> f_path f) ->
  List.NoDup (List.map chunk_key chunks).
Proof.
  revert acc n s. induction files as [|fm rest IH]; intros acc n s Hrun Hnd Hacc Hsep.
  - simpl in Hrun. now injection Hrun as <- _.
  - simpl in Hrun, Hnd. inversion Hnd as [|? ? Hfm Hnd']; subst.
    assert (Hsep' : forall c f, In c acc -> In f rest -> path c <> f_path f).
    { intros c f Hc Hf. apply Hsep; [assumption|now right]. }
    destruct (f_read fm) as [text|]; [|now apply (IH acc n s)].
    destruct (negb (truthy (strip text))); [now apply (IH acc n s)|].
    destruct (split_text_to_code_chunks (f_path fm) (f_ext fm) text cc co
                (f_parser fm) (f_langchain fm)) as [cs|] eqn:Ecs; [|discriminate].
    destruct (file_chunk_keys _ _ _ _ _ _ _ _ Ecs) as [Hcs Hpath].
    rewrite List.Forall_forall in Hpath.
    apply (IH (acc ++ cs) (n + 1) (emit_progress tracker s) Hrun Hnd').
    + rewrite List.map_app. apply List.NoDup_app; [assumption|assumption|].
      intros k Hk1 Hk2.
      apply in_map_iff in Hk1 as (c1 & <- & Hc1).
      apply in_map_iff in Hk2 as (c2 & Heq & Hc2).
      apply (Hsep c1 fm Hc1 ltac:(now left)).
      rewrite <- (Hpath c2 Hc2). unfold chunk_key in Heq. congruence.
    + intros c f Hc Hf. apply in_app_or in Hc as [Hc|Hc]; [now apply Hsep'|].
      rewrite (Hpath c Hc). intros Heq. apply Hfm. rewrite Heq. now apply in_map.
Qed.

(** X22.  The rows a run writes never collide on the table's uniqueness
    constraint [(project_id, path, chunk_index)]: for a file set of
    distinct paths, the rows committed for the project have distinct
    path and chunk index pairs. *)
Theorem run_rows_have_distinct_keys
    (P : provider) (E : store_env) (tracker : bool) (pid : Z)
    (files : list file_meta) (chunk_chars chunk_overlap : Z)
    (max_files : option Z) (w : world) (res : index_result) :
  clean (db w) -> List.NoDup (List.map f_path files) ->
  snd (index_project_chunks_to_pgvector P E tracker pid files chunk_chars chunk_overlap
         max_files w) = Ok res ->
  chunks_written res <> 0 ->
  List.NoDup
    (List.map row_key
       (chunks_of pid
          (committed
             (db (fst (index_project_chunks_to_pgvector P E tracker pid files chunk_chars
                         chunk_overlap max_files w)))))).
Proof.
  intros Hclean Hnd Hres Hn.
  destruct (index_rows_from_embedding P E tracker pid files chunk_chars chunk_overlap
              max_files w res Hres Hn)
    as (chunks & vectors & e & n & Hfiles & _ & Hlen & _ & ->).
  assert (Hkeys : List.NoDup (List.map chunk_key chunks)).
  { apply (chunk_files_keys _ _ _ _ _ _ _ _ _ Hfiles); [|constructor|intros c f []].
    destruct max_files as [m|].
    - unfold slice_to. apply NoDup_map_firstn, NoDup_map_filter, Hnd.
    - apply NoDup_map_filter, Hnd. }
  assert (Hpid : Forall (fun r => project_id r = pid)
                   (List.map (row_of pid) (combine chunks vectors))).
  { apply List.Forall_forall. intros r Hr. apply in_map_iff in Hr as (c & <- & _).
    reflexivity. }
  rewrite (emit_progress_clean _ _ Hclean).
  destruct Hclean as [Hfl Hpc]. unfold db_commit, write; simpl. rewrite Hfl. simpl.
  rewrite (chunks_of_insert pid pid _ _ Hpid), chunks_of_delete_same, Z.eqb_refl.
  simpl. rewrite List.map_map.
  replace (List.map (fun x => row_key (row_of pid x)) (combine chunks vectors))
    with (List.map chunk_key (List.map fst (combine chunks vectors)))
    by (rewrite List.map_map; reflexivity).
  assert (Hfst : List.map fst (combine chunks vectors) = chunks).
  { clear -Hlen. unfold len in Hlen. apply Nat2Z.inj in Hlen.
    revert vectors Hlen. induction chunks as [|c cs IH]; intros [|v vs] H; simpl in *;
      try discriminate; [reflexivity|]. f_equal. apply IH. lia. }
  now rewrite Hfst.
Qed.

End RowKeyFacts.

(** ** Spans inferred from split parts *)

Section InferFacts.
Import Py Chunking Notions ExtraNotions.

Lemma starts_with_firstn p s : starts_with p s = true -> firstn (length p) s = p.
Proof.
  revert s. induction p as [|a p IH]; intros s; simpl; [reflexivity|].
  destruct s as [|b s]; [discriminate|]. intros H.
  apply andb_true_iff in H as [Hab H]. apply N.eqb_eq in Hab. subst b.
  simpl. f_equal. now apply IH.
Qed.

Lemma find_from_spec sub s pos :
  0 <= pos ->
  find_from sub s pos = -1
  \/ (pos <= find_from sub s pos <= pos + len s
      /\ starts_with sub (skipn (Z.to_nat (find_from sub s pos - pos)) s) = true).
Proof.
  revert pos. induction s as [|c s IH]; intros pos Hpos; simpl.
  - destruct (starts_with sub []) eqn:E; [|now left].
    right. unfold len; simpl. split; [lia|]. now rewrite Z.sub_diag.
  - destruct (starts_with sub (c :: s)) eqn:E.
    + right. rewrite Z.sub_diag. simpl. split; [|assumption].
      pose proof (len_nonneg (c :: s)). lia.
    + destruct (IH (pos + 1) ltac:(lia)) as [H|[Hr Hs]]; [now left|].
      right. rewrite len_cons. split; [lia|].
      replace (Z.to_nat (find_from sub s (pos + 1) - pos))
        with (S (Z.to_nat (find_from sub s (pos + 1) - (pos + 1)))) by lia.
      exact Hs.
Qed.

(** What [find] returns, when it is not [-1], is the position of an
    occurrence. *)
Lemma find_occurrence sub s start :
  find sub s start = -1
  \/ (0 <= find sub s start
      /\ find sub s start + len sub <= len s
      /\ slice s (find sub s start) (find sub s start + len sub) = sub).
Proof.
  unfold find. destruct (len s <? start); [now left|].
  pose proof (norm_index_range (len s) start (len_nonneg s)) as Hst.
  set (st := norm_index (len s) start) in *.
  destruct (find_from_spec sub (skipn (Z.to_nat st) s) st ltac:(lia)) as [H|[Hr Hs]];
    [now left|].
  right. set (p := find_from sub (skipn (Z.to_nat st) s) st) in *.
  rewrite skipn_skipn in Hs.
  replace (Z.to_nat (p - st) + Z.to_nat st)%nat with (Z.to_nat p) in Hs by lia.
  pose proof (starts_with_length _ _ Hs) as Hl. rewrite length_skipn in Hl.
  assert (Hlen : len (skipn (Z.to_nat st) s) = len s - st).
  { unfold len. rewrite length_skipn. unfold len in Hst. lia. }
  rewrite Hlen in Hr.
  assert (Hfit : p + len sub <= len s) by (unfold len in *; lia).
  split; [lia|]. split; [assumption|].
  destruct (slice_in_range s p (p + len sub)) as [-> _];
    [pose proof (len_nonneg sub); lia|assumption|].
  replace (Z.to_nat (p + len sub - p)) with (length sub) by (unfold len; lia).
  now apply starts_with_firstn.
Qed.

(** X23.  The spans inferred from the parts of [split_text] are real
    occurrences: each lies within the text and the text between its
    bounds is one of the parts. *)
Theorem inferred_spans_are_occurrences
    (text : str) (chunk_overlap : Z) (parts : list str) (cursor : Z) :
  Forall (fun sp => 0 <= fst sp /\ snd sp <= len text
                    /\ exists part, In part parts
                                    /\ slice text (fst sp) (snd sp) = part)
         (infer_spans text chunk_overlap parts cursor).
Proof.
  revert cursor. induction parts as [|part rest IH]; intros cursor; simpl; [constructor|].
  assert (Hrest : forall c,
            Forall (fun sp => 0 <= fst sp /\ snd sp <= len text
                              /\ exists part0, In part0 (part :: rest)
                                               /\ slice text (fst sp) (snd sp) = part0)
                   (infer_spans text chunk_overlap rest c)).
  { intros c. eapply List.Forall_impl; [|apply IH].
    intros sp (H1 & H2 & q & Hq & Hs). split; [assumption|]. split; [assumption|].
    exists q. split; [now right|assumption]. }
  set (pos := if find part text cursor <? 0 then find part text 0
              else find part text cursor).
  assert (Hpos : pos = -1
                 \/ (0 <= pos /\ pos + len part <= len text
                     /\ slice text pos (pos + len part) = part)).
  { unfold pos. destruct (find part text cursor <? 0); apply find_occurrence. }
  destruct (pos <? 0) eqn:E; [apply Hrest|].
  constructor; [|apply Hrest].
  destruct Hpos as [Hneg|(H0 & Hfit & Hs)]; [lia|]. simpl.
  split; [assumption|]. split; [assumption|]. exists part. split; [now left|assumption].
Qed.

End InferFacts.

(** ** Instances of the further properties *)

Section MoreWitnesses.
Import Py Chunking Embedding Store Orchestrator Script Notions ExtraNotions.

Lemma byte_offset_round_trip_witness :
  _char_index_from_byte (_utf8_byte_offsets multibyte_text)
    (nth 2 (_utf8_byte_offsets multibyte_text) 0) = Z.of_nat 2.
Proof. apply (byte_offset_round_trip multibyte_text 2). simpl. lia. Defined.

Lemma fallback_spans_bounded_and_cover_witness :
  Forall (within 0 (len two_line_text) 8)
         (_fallback_recursive_split_spans two_line_text code_separators 8 2)
  /\ (forall i, visible_at two_line_text i ->
        covers (_fallback_recursive_split_spans two_line_text code_separators 8 2) i).
Proof. apply (fallback_spans_bounded_and_cover two_line_text code_separators 8 2). lia. Defined.

Lemma chunks_stamped_and_numbered_witness :
  exists chunks,
    split_text_to_code_chunks (of_string "a.py") ".py" two_line_text 8 2 None LcUnavailable
    = Some chunks
    /\ Forall (fun c => path c = of_string "a.py" /\ occurs_in (content c) two_line_text
                        /\ 0 <= chunk_index c /\ tier_marked ".py" c) chunks
    /\ StronglySorted Z.lt (List.map chunk_index chunks).
Proof.
  eexists. split; [vm_compute; reflexivity|].
  eapply (chunks_stamped_and_numbered (of_string "a.py") ".py" two_line_text 8 2 None
            LcUnavailable).
  vm_compute. reflexivity.
Defined.

Lemma blank_text_gives_no_chunks_witness :
  exists chunks,
    split_text_to_code_chunks (of_string "blank.py") ".py" blank_text 1200 150 None
      LcUnavailable = Some chunks
    /\ chunks = [].
Proof.
  eexists. split; [vm_compute; reflexivity|].
  eapply (blank_text_gives_no_chunks (of_string "blank.py") ".py" blank_text 1200 150 None
            LcUnavailable).
  - intros ch [<-|[<-|[<-|[]]]]; reflexivity.
  - vm_compute. reflexivity.
Defined.

Lemma fallback_chunks_cover_lines_witness :
  exists chunks,
    split_text_to_code_chunks (of_string "a.py") ".py" two_line_text 8 2 None LcUnavailable
    = Some chunks
    /\ exists c, In c chunks
                 /\ start_line c <= line_of (newline_positions_of two_line_text) 11
                    <= end_line c.
Proof.
  eexists. split; [vm_compute; reflexivity|].
  eapply (fallback_chunks_cover_lines (of_string "a.py") ".py" two_line_text 8 2
            LcUnavailable _ 11).
  - lia.
  - now left.
  - vm_compute. reflexivity.
  - split; [lia|]. eexists. split; [vm_compute; reflexivity|reflexivity].
Defined.

Lemma embed_request_budget_witness :
  (clients (fst (embed_texts_openai length_provider three_texts 2 3 (3 # 2) no_requests))
   <= clients no_requests + 1)%nat
  /\ Z.of_nat (calls (fst (embed_texts_openai length_provider three_texts 2 3 (3 # 2)
                             no_requests)))
     <= Z.of_nat (calls no_requests) + (Z.max 0 3 + 1) * ((len three_texts + 2 - 1) / 2)
  /\ len (slept (fst (embed_texts_openai length_provider three_texts 2 3 (3 # 2)
                        no_requests)))
     <= len (slept no_requests) + Z.max 0 3 * ((len three_texts + 2 - 1) / 2).
Proof.
  apply (embed_request_budget length_provider three_texts 2 3 (3 # 2) no_requests). lia.
Defined.

Lemma embed_recovers_after_failures_witness :
  embed_texts_openai (provider_up_after 2) three_texts 64 3 (3 # 2) no_requests
  = ({| clients := S (clients no_requests);
        calls := (calls no_requests + 2 + 1)%nat;
        slept := slept no_requests
                 ++ List.map (fun i => sleep_s (3 # 2) (Z.of_nat i)) (seq 1 2) |},
     Ok (List.map snd
           (sorted_by fst (rev (enumerate (List.map length_embedding three_texts)))))).
Proof.
  apply (embed_recovers_after_failures (provider_up_after 2) three_texts 64 3 (3 # 2)
           no_requests 2).
  - discriminate.
  - unfold len. simpl. lia.
  - simpl. lia.
  - intros i Hi. exists "rate limited"%string.
    destruct i as [|[|i]]; [reflexivity|reflexivity|lia].
  - reflexivity.
Defined.

Lemma index_without_content_writes_nothing_witness :
  index_project_chunks_to_pgvector length_provider sound_store true 1
    [unreadable_file; blank_file] 1200 150 None indexed_world
  = ({| db := emit_progress true (db indexed_world); net := net indexed_world |},
     Ok {| files_indexed := 0; chunks_written := 0; embedding_dim := None |}).
Proof.
  apply (index_without_content_writes_nothing length_provider sound_store true 1
           [unreadable_file; blank_file] 1200 150 None indexed_world).
  constructor; [exact I|]. constructor; [reflexivity|]. constructor.
Defined.



Lemma search_returns_the_nearest_witness :
  snd (vector_search_project length_provider sound_store squared_distance 1
         (of_string "q") 2 None library_world)
  = Ok [hit_of squared_distance [1%Q] (stored_row 1 "b.py" 1);
        hit_of squared_distance [1%Q] (stored_row 1 "a.py" 3)]
  /\ Forall (fun hit =>
               exists r, In r (chunks_of 1 (pending (db library_world)))
                         /\ hit = hit_of squared_distance
                                    (length_embedding (of_string "q")) r)
            [hit_of squared_distance [1%Q] (stored_row 1 "b.py" 1);
             hit_of squared_distance [1%Q] (stored_row 1 "a.py" 3)]
  /\ (forall r, In r (chunks_of 1 (pending (db library_world))) ->
        In (hit_of squared_distance (length_embedding (of_string "q")) r)
           [hit_of squared_distance [1%Q] (stored_row 1 "b.py" 1);
            hit_of squared_distance [1%Q] (stored_row 1 "a.py" 3)]
        \/ Forall (fun hit =>
                     (score hit
                      <= squared_distance (embedding r)
                           (length_embedding (of_string "q")))%Q)
                  [hit_of squared_distance [1%Q] (stored_row 1 "b.py" 1);
                   hit_of squared_distance [1%Q] (stored_row 1 "a.py" 3)]).
Proof.
  split; [vm_compute; reflexivity|].
  apply (search_returns_the_nearest length_embedding length_provider sound_store
           squared_distance 1 (of_string "q") 2 library_world).
  - exact length_provider_faithful.
  - vm_compute. reflexivity.
Defined.

Lemma reindex_main_touches_only_its_projects_witness :
  snd (main provider_down sound_store [(1, Some [sample_file]); (2, None)] indexed_world)
  <> Hang
  /\ clean (db (fst (main provider_down sound_store
                       [(1, Some [sample_file]); (2, None)] indexed_world)))
  /\ (snd (main provider_down sound_store [(1, Some [sample_file]); (2, None)]
             indexed_world) = Ok 1
      <-> [(1, Some [sample_file]); (2, @None (list file_meta))] = [])
  /\ (snd (main provider_down sound_store [(1, Some [sample_file]); (2, None)]
             indexed_world) = Ok 0
      <-> [(1, Some [sample_file]); (2, @None (list file_meta))] <> []
          /\ snd (reindex_projects provider_down sound_store
                    [(1, Some [sample_file]); (2, None)] indexed_world) = Ok tt)
  /\ (forall err,
        snd (main provider_down sound_store [(1, Some [sample_file]); (2, None)]
               indexed_world) = Raise err
        <-> [(1, Some [sample_file]); (2, @None (list file_meta))] <> []
            /\ snd (reindex_projects provider_down sound_store
                      [(1, Some [sample_file]); (2, None)] indexed_world) = Raise err)
  /\ fst (exit_status provider_down sound_store [(1, Some [sample_file]); (2, None)]
            indexed_world)
     = fst (main provider_down sound_store [(1, Some [sample_file]); (2, None)]
              indexed_world)
  /\ (snd (exit_status provider_down sound_store [(1, Some [sample_file]); (2, None)]
             indexed_world) = Ok 0
      <-> snd (main provider_down sound_store [(1, Some [sample_file]); (2, None)]
                 indexed_world) = Ok 0)
  /\ (snd (exit_status provider_down sound_store [(1, Some [sample_file]); (2, None)]
             indexed_world) = Ok 1
      <-> [(1, Some [sample_file]); (2, @None (list file_meta))] = []
          \/ exists err,
               snd (reindex_projects provider_down sound_store
                      [(1, Some [sample_file]); (2, None)] indexed_world) = Raise err)
  /\ projects (committed (db (fst (main provider_down sound_store
                                     [(1, Some [sample_file]); (2, None)] indexed_world))))
     = projects (committed (db indexed_world))
  /\ forall pid,
       (forall files, ~ In (pid, Some files) [(1, Some [sample_file]); (2, None)]) ->
       chunks_of pid
         (committed (db (fst (main provider_down sound_store
                                [(1, Some [sample_file]); (2, None)] indexed_world))))
       = chunks_of pid (committed (db indexed_world)).
Proof.
  apply (reindex_main_touches_only_its_projects provider_down sound_store
           [(1, Some [sample_file]); (2, None)] indexed_world).
  exact indexed_world_clean.
Defined.

Lemma run_outcome_and_status_witness :
  exists an all_files,
    analysis_result sample_workflow = Ok an
    /\ workflow_result sample_workflow = Ok all_files
    /\ {| success := true; run_project_id := 1; run_total_files := 1;
          run_framework := None |}
       = {| success := true; run_project_id := 1;
            run_total_files := len all_files; run_framework := framework an |}
    /\ projects
         (committed
            (db (fst (run_indexing_workflow length_provider sound_store sample_workflow
                        true 1 indexed_world))))
       = <[1 := set_status "completed" (Some an) sample_project]>
           (projects (committed (db indexed_world))).
Proof.
  exact (run_outcome_and_status length_provider sound_store sample_workflow true 1
           indexed_world sample_project indexed_world_clean eq_refl).
Defined.

Lemma run_rows_have_distinct_keys_witness :
  List.map row_key
    (chunks_of 1
       (committed
          (db (fst (index_project_chunks_to_pgvector length_provider sound_store false 1
                      [source_file "a.py"; source_file "b.py"] 8 2 None indexed_world)))))
  = [(of_string "a.py", 0); (of_string "a.py", 1); (of_string "a.py", 2);
     (of_string "a.py", 3); (of_string "b.py", 0); (of_string "b.py", 1);
     (of_string "b.py", 2); (of_string "b.py", 3)]
  /\ List.NoDup
       (List.map row_key
          (chunks_of 1
             (committed
                (db (fst (index_project_chunks_to_pgvector length_provider sound_store
                            false 1 [source_file "a.py"; source_file "b.py"] 8 2 None
                            indexed_world)))))).
Proof.
  split; [vm_compute; reflexivity|].
  apply (run_rows_have_distinct_keys length_provider sound_store false 1
           [source_file "a.py"; source_file "b.py"] 8 2 None indexed_world
           {| files_indexed := 2; chunks_written := 8; embedding_dim := Some 1536 |}).
  - exact indexed_world_clean.
  - constructor; [|constructor; [intros []|constructor]].
    intros [H|[]]. discriminate H.
  - vm_compute. reflexivity.
  - simpl. lia.
Defined.

End MoreWitnesses.
